(** * Euclidean uniform tilings: reflection engine and automaton traversal

    A shallow embedding of [Example_Euclidean_uniform_tilings.py]
    (class [EuclideanUniformTiling] and its module-level helpers) together
    with the properties of it that are stated in the specification.

    Numbers.  The program computes with numpy [float64] values and Python
    numbers.  Every definition below is written once, over an interface
    [Scalar] of the arithmetic operations the program uses, and is read at
    two instances:
    - [float64]: Rocq's primitive binary64 floats, whose [+ - * / sqrt abs]
      are the IEEE 754 operations numpy performs (NaN and infinities
      included);
    - [real]: the real numbers, the exact arithmetic in which the algebraic
      identities of the reflections hold.

    Exceptions.  A Python call either returns or raises; [outcome] records
    which, so index errors and shape mismatches are written out. *)

From Stdlib Require Import ZArith List Lia String Sorted.
From Stdlib Require Import Floats Reals Lra RNsatz.
From stdpp Require Import base list.
From Equations Require Import Equations.

(** ** Python outcomes *)

Inductive exn : Set :=
| IndexError
| ValueError
| ZeroDivisionError.

Inductive outcome (A : Type) : Type :=
| Returns (a : A)
| Raises (e : exn).
Arguments Returns {A} a.
Arguments Raises {A} e.

Definition bind {A B} (m : outcome A) (k : A -> outcome B) : outcome B :=
  match m with
  | Returns a => k a
  | Raises e => Raises e
  end.

Notation "'let*' x := m 'in' k" := (bind m (fun x => k))
  (at level 10, x name, m at level 100, k at level 200).

(** [[f(x) for x in xs]]: the first exception ends the comprehension. *)
Fixpoint for_each {A B} (f : A -> outcome B) (xs : list A) : outcome (list B) :=
  match xs with
  | [] => Returns []
  | x :: xs' =>
      let* y := f x in
      let* ys := for_each f xs' in
      Returns (y :: ys)
  end.

(** [xs[i]] for a Python list or a 1-d array and a non-negative index. *)
Definition getitem {A} (xs : list A) (i : nat) : outcome A :=
  match xs !! i with
  | Some x => Returns x
  | None => Raises IndexError
  end.

(** [xs[i]] for an arbitrary Python integer: negative indices count from
    the end, anything outside [-len, len) raises. *)
Definition py_index {A} (xs : list A) (i : Z) : outcome A :=
  let n := Z.of_nat (length xs) in
  if (0 <=? i)%Z && (i <? n)%Z then getitem xs (Z.to_nat i)
  else if (- n <=? i)%Z && (i <? 0)%Z then getitem xs (Z.to_nat (n + i))
  else Raises IndexError.

(** ** Scalars *)

Class Scalar (F : Type) := {
  of_int : Z -> F;          (* int -> float conversion, also of literals *)
  fadd : F -> F -> F;
  fsub : F -> F -> F;
  fmul : F -> F -> F;
  fdiv : F -> F -> F;       (* numpy division: never raises *)
  fneg : F -> F;
  fsqrt : F -> F;           (* np.sqrt: never raises *)
  fabs : F -> F;
  truthy : F -> bool        (* bool(x): x != 0 *)
}.

Class Trig (F : Type) := {
  np_cos : F -> F;
  np_pi : F
}.

Declare Scope num_scope.
Delimit Scope num_scope with num.
Infix "+" := fadd : num_scope.
Infix "-" := fsub : num_scope.
Infix "*" := fmul : num_scope.
Infix "/" := fdiv : num_scope.
Notation "- x" := (fneg x) : num_scope.

(** binary64.  [binary_normalize] rounds an integer to the nearest float,
    as the conversion of a Python int does (an integer beyond the binary64
    range, which Python refuses to convert, becomes infinite here). *)
#[export] Instance float64 : Scalar float := {|
  of_int z := SF2Prim (binary_normalize prec emax z 0 false);
  fadd := PrimFloat.add;
  fsub := PrimFloat.sub;
  fmul := PrimFloat.mul;
  fdiv := PrimFloat.div;
  fneg := PrimFloat.opp;
  fsqrt := PrimFloat.sqrt;
  fabs := PrimFloat.abs;
  truthy x := negb (PrimFloat.eqb x 0%float)
|}.

(** Exact arithmetic. *)
#[export] Instance real : Scalar R := {|
  of_int := IZR;
  fadd := Rplus;
  fsub := Rminus;
  fmul := Rmult;
  fdiv := Rdiv;
  fneg := Ropp;
  fsqrt := sqrt;
  fabs := Rabs;
  truthy x := if Req_dec_T x 0%R then false else true
|}.

#[export] Instance real_trig : Trig R := {|
  np_cos := cos;
  np_pi := PI
|}.

(** ** numpy arrays of scalars *)

Definition vec (F : Type) := list F.
Definition matrix (F : Type) := list (vec F).

Section Arrays.
Context {F : Type} `{Scalar F}.

(** Sum of the elementwise products, accumulated left to right.  numpy
    leaves [np.dot] on float64 arrays to its BLAS routine, which may add
    in another order or fuse a product with an addition: in exact
    arithmetic that is immaterial, in binary64 the last bits of the
    result may differ from this reading.  What is stated below about
    binary64 values either does not depend on those bits or is stated at
    inputs whose products and sums are exact in any order. *)
Fixpoint dot_acc (acc : F) (v w : vec F) : F :=
  match v, w with
  | x :: v', y :: w' => dot_acc (acc + x * y)%num v' w'
  | _, _ => acc
  end.

(** [np.dot(v, w)] for 1-d arrays: the shapes must agree. *)
Definition np_dot (v w : vec F) : outcome F :=
  if Nat.eqb (length v) (length w) then Returns (dot_acc (of_int 0) v w)
  else Raises ValueError.

(** [M[i, j]] and [M[i, j] = x] on a 2-d array. *)
Definition getitem2 (M : matrix F) (i j : nat) : outcome F :=
  let* row := getitem M i in getitem row j.

Definition setitem2 (M : matrix F) (i j : nat) (x : F) : outcome (matrix F) :=
  let* row := getitem M i in
  let* _ := getitem row j in
  Returns (<[i := <[j := x]> row]> M).

(** [np.asarray(rows, dtype=np.float)]: a nested list whose rows differ
    in length is refused. *)
Definition rectangular {A} (rows : list (list A)) : bool :=
  match rows with
  | [] => true
  | r :: rs => forallb (fun r' => Nat.eqb (length r') (length r)) rs
  end.

Definition asarray (rows : list (list Z)) : outcome (matrix F) :=
  if rectangular rows then Returns (map (map of_int) rows)
  else Raises ValueError.

Definition zeros_like (C : matrix F) : matrix F :=
  map (map (fun _ => of_int 0)) C.
End Arrays.

(** ** Module-level helpers *)

Section Helpers.
Context {F : Type} `{Scalar F}.

(** [hex_to_rgb(value)] *)
Definition hex_to_rgb (value : Z) : list F :=
  map (fun k => (of_int (Z.land (Z.shiftr value (8 * k)) 255) / of_int 255)%num)
      [2; 1; 0]%Z.
End Helpers.

(** ** class EuclideanUniformTiling: the mirrors and the reflections *)

Section Mirrors.
Context {F : Type} `{Scalar F} `{Trig F}.

(** Lines 53-60 of [get_mirrors]: the rows of [M] are filled in place
    from the matrix [C] of required inner products, each assignment
    reading back the entries stored before it. *)
Definition mirrors_from_cosines (C : matrix F) : outcome (matrix F) :=
  let M := zeros_like C in
  let* M := setitem2 M 0 0 (of_int 1) in
  let* c10 := getitem2 C 1 0 in
  let* M := setitem2 M 1 0 c10 in
  let* m10 := getitem2 M 1 0 in
  let* M := setitem2 M 1 1 (fsqrt (of_int 1 - m10 * m10)%num) in
  let* c20 := getitem2 C 2 0 in
  let* M := setitem2 M 2 0 c20 in
  let* c21 := getitem2 C 2 1 in
  let* m20 := getitem2 M 2 0 in
  let* m10 := getitem2 M 1 0 in
  let* m11 := getitem2 M 1 1 in
  let* M := setitem2 M 2 1 ((c21 - m20 * m10) / m11)%num in
  let* m20 := getitem2 M 2 0 in
  let* m21 := getitem2 M 2 1 in
  let* M := setitem2 M 2 2
              (fsqrt (fabs (m20 * m20 + m21 * m21 - of_int 1)%num)) in
  Returns M.

(** Line 52: [C = -np.cos(np.pi / np.asarray(cox_mat, dtype=np.float))] *)
Definition cosines (cox_mat : list (list Z)) : outcome (matrix F) :=
  let* A := asarray cox_mat in
  Returns (map (map (fun a => - np_cos (np_pi / a))%num) A).

Definition get_mirrors (cox_mat : list (list Z)) : outcome (matrix F) :=
  let* C := cosines cox_mat in
  mirrors_from_cosines C.
End Mirrors.

Section Reflections.
Context {F : Type} `{Scalar F}.

(** [v - 2 * (np.dot(v, normal) + dist) * normal]: the scalar
    [2 * (...)] multiplies [normal] elementwise and the product is taken
    from [v] elementwise. *)
Definition reflect (v normal : vec F) (dist : F) : outcome (vec F) :=
  let* d := np_dot v normal in
  let s := (of_int 2 * (d + dist))%num in
  Returns (zip_with (fun x n => x - s * n)%num v normal).

(** [[partial(reflect, normal=n, dist=d) for n, d in zip(mirrors, init_dist)]] *)
Definition get_reflections (mirrors : matrix F) (init_dist : list F)
  : list (vec F -> outcome (vec F)) :=
  map (fun nd v => reflect v (fst nd) (snd nd)) (zip mirrors init_dist).

(** [np.array(v[:2]) / v[-1]] *)
Definition project_to_plane (v : vec F) : outcome (vec F) :=
  let* w := py_index v (-1) in
  Returns (map (fun x => x / w)%num (take 2 v)).
End Reflections.

Section Inset.
Context {F : Type} `{Scalar F}.

(** [np.sum(points, axis=0)] for a non-empty list of 1-d arrays.  Rows of
    one length make a 2-d array, whose rows are added elementwise, in
    order.  With rows of different lengths [np.asarray] (numpy before
    1.24, the versions that still have [np.float]) makes an array of
    objects, which [np.sum] adds in order with numpy's [+] on 1-d arrays:
    that broadcasts an array of one component and refuses any other pair
    of different shapes. *)
Definition add_rows (acc row : vec F) : outcome (vec F) :=
  if Nat.eqb (length acc) (length row) then Returns (zip_with fadd acc row)
  else
    match acc, row with
    | _, [y] => Returns (map (fun x => x + y)%num acc)
    | [x], _ => Returns (map (fun y => x + y)%num row)
    | _, _ => Raises ValueError
    end.

Fixpoint sum_rows (acc : vec F) (rows : list (vec F)) : outcome (vec F) :=
  match rows with
  | [] => Returns acc
  | row :: rows' => let* acc' := add_rows acc row in sum_rows acc' rows'
  end.

(** The nested function [get_point(p, q)] of [inset_corners]. *)
Definition get_point (margin : F) (p q : vec F) : outcome (F * F) :=
  let* p0 := getitem p 0 in
  let* q0 := getitem q 0 in
  let vx := (p0 - q0)%num in
  let* p1 := getitem p 1 in
  let* q1 := getitem q 1 in
  let vy := (p1 - q1)%num in
  let r := fsqrt (vx * vx + vy * vy)%num in
  let t := (of_int 1 - margin / r)%num in
  Returns (q0 + t * vx, q1 + t * vy)%num.

(** [inset_corners(points, margin)].  With no point the centroid is the
    scalar [0.0 / 0] (NaN, no exception) and the result is empty. *)
Definition inset_corners (points : list (vec F)) (margin : F)
  : outcome (list (F * F)) :=
  match points with
  | [] => Returns []
  | p :: ps =>
      let* s := sum_rows p ps in
      let q := map (fun x => x / of_int (Z.of_nat (length points)))%num s in
      for_each (fun p => get_point margin p q) points
  end.
End Inset.

(** ** class EuclideanUniformTiling: faces, traversal, drawing

    The automaton comes from the module [automata], which this file does
    not contain: its states and their [all_transitions()] are parameters. *)

Section Tiling.
Context {F : Type} `{Scalar F} {State : Type}.
Variable all_transitions : State -> list (Z * State).

Record automaton := { start : State }.

(** The attributes of an instance. *)
Record tiling := {
  active : list bool;
  cox_mat : list (list Z);
  dfa : automaton;
  mirrors : matrix F;
  init_v : vec F;
  reflections : list (vec F -> outcome (vec F));
  fundamental_faces : list (list (vec F))
}.

Definition append_face (self : tiling) (f0 : list (vec F)) : tiling :=
  {| active := active self;
     cox_mat := cox_mat self;
     dfa := dfa self;
     mirrors := mirrors self;
     init_v := init_v self;
     reflections := reflections self;
     fundamental_faces := fundamental_faces self ++ [f0] |}.

(** [self.reflections[b](self.reflections[a](P))]: the outer operator is
    looked up first, then the argument is evaluated. *)
Definition reflect_twice (self : tiling) (a b : nat) (P : vec F) : outcome (vec F) :=
  let* Rb := getitem (reflections self) b in
  let* Ra := getitem (reflections self) a in
  let* P' := Ra P in
  Rb P'.

(** [self.cox_mat[i][j]] *)
Definition cox_entry (self : tiling) (i j : nat) : outcome Z :=
  let* row := getitem (cox_mat self) i in getitem row j.

(** The loop of the branch where both mirrors are active. *)
Fixpoint both_active_loop (self : tiling) (i j : nat) (n : nat)
    (f0 : list (vec F)) (P Q : vec F) : outcome (list (vec F)) :=
  match n with
  | O => Returns f0
  | S n' =>
      let f0 := (f0 ++ [P]) ++ [Q] in
      let* P' := reflect_twice self i j P in
      let* Q' := reflect_twice self i j Q in
      both_active_loop self i j n' f0 P' Q'
  end.

(** The loop of the branches where one mirror is active: [a] is applied
    first, then [b]. *)
Fixpoint one_active_loop (self : tiling) (a b : nat) (n : nat)
    (f0 : list (vec F)) (P : vec F) : outcome (list (vec F)) :=
  match n with
  | O => Returns f0
  | S n' =>
      let f0 := f0 ++ [P] in
      let* P' := reflect_twice self a b P in
      one_active_loop self a b n' f0 P'
  end.

(** [x and y] with [y] evaluated only when [x] is true. *)
Definition and_then (x : outcome bool) (y : outcome bool) : outcome bool :=
  let* b := x in if b then y else Returns false.

Definition order_gt_2 (self : tiling) (i j : nat) : outcome bool :=
  let* n := cox_entry self i j in Returns (2 <? n)%Z.

(** The body of the loop of [get_fundamental_faces] for the pair
    [(i, j)]: [Some f0] when a face is appended, [None] on [continue]. *)
Definition face_of_pair (self : tiling) (i j : nat)
  : outcome (option (list (vec F))) :=
  let P := init_v self in
  let* both := and_then (getitem (active self) i) (getitem (active self) j) in
  if both then
    let* Rj := getitem (reflections self) j in
    let* Q := Rj P in
    let* n := cox_entry self i j in
    let* f0 := both_active_loop self i j (Z.to_nat n) [] P Q in
    Returns (Some f0)
  else
    let* only_i := and_then (getitem (active self) i) (order_gt_2 self i j) in
    if only_i then
      let* n := cox_entry self i j in
      let* f0 := one_active_loop self i j (Z.to_nat n) [] P in
      Returns (Some f0)
    else
      let* only_j := and_then (getitem (active self) j) (order_gt_2 self i j) in
      if only_j then
        let* n := cox_entry self i j in
        let* f0 := one_active_loop self j i (Z.to_nat n) [] P in
        Returns (Some f0)
      else Returns None.

(** [itertools.combinations(xs, 2)] *)
Fixpoint combinations2 {A} (xs : list A) : list (A * A) :=
  match xs with
  | [] => []
  | x :: xs' => map (fun y => (x, y)) xs' ++ combinations2 xs'
  end.

(** The [for] loop over the pairs: an exception leaves the faces
    appended so far in [self.fundamental_faces]. *)
Fixpoint faces_loop (pairs : list (nat * nat)) (self : tiling)
  : outcome unit * tiling :=
  match pairs with
  | [] => (Returns tt, self)
  | (i, j) :: pairs' =>
      match face_of_pair self i j with
      | Raises e => (Raises e, self)
      | Returns None => faces_loop pairs' self
      | Returns (Some f0) => faces_loop pairs' (append_face self f0)
      end
  end.

Definition get_fundamental_faces (self : tiling) : outcome unit * tiling :=
  faces_loop (combinations2 (seq 0 3)) self.

(** *** traverse *)

(** A queue entry [[state, word, steps, shape]]. *)
Definition record : Type := State * list Z * Z * list (vec F).

Definition rec_state (r : record) : State := r.1.1.1.
Definition rec_word (r : record) : list Z := r.1.1.2.
Definition rec_steps (r : record) : Z := r.1.2.
Definition rec_shape (r : record) : list (vec F) := r.2.

(** [[self.reflections[symbol](p) for p in shape]]: the operator is
    looked up once per vertex, so an empty shape never indexes. *)
Definition reflect_shape (self : tiling) (symbol : Z) (shape : list (vec F))
  : outcome (list (vec F)) :=
  for_each (fun p => let* R := py_index (reflections self) symbol in R p) shape.

(** The entry appended for one transition. *)
Definition successor (self : tiling) (r : record) (tr : Z * State)
  : outcome record :=
  let* shape' := reflect_shape self tr.1 (rec_shape r) in
  Returns (tr.2, rec_word r ++ [tr.1], (rec_steps r + 1)%Z, shape').

(** The [for symbol, target in state.all_transitions()] loop. *)
Definition successors (self : tiling) (r : record) : outcome (list record) :=
  for_each (successor self r) (all_transitions (rec_state r)).

(** Number of entries the loop still has to dequeue below an entry that
    is [h] steps away from the depth bound. *)
Fixpoint tree_size (h : nat) (s : State) : nat :=
  match h with
  | O => 1
  | S h' => S (list_sum (map (fun tr => tree_size h' tr.2) (all_transitions s)))
  end.

Definition entry_weight (depth : Z) (r : record) : nat :=
  tree_size (Z.to_nat (depth - rec_steps r)) (rec_state r).

Definition queue_weight (depth : Z) (queue : list record) : nat :=
  list_sum (map (entry_weight depth) queue).

(** What the generator produces: the records yielded, in order, and the
    exception that ended it, if one did. *)
Definition yields : Type := list record * option exn.

Definition yield (r : record) (rest : yields) : yields :=
  (r :: rest.1, rest.2).

(** Matching on a value while keeping the equation that names it. *)
Definition inspect {A : Type} (x : A) : {y : A | x = y} := exist _ x eq_refl.

(** The [while queue] loop.  Each round removes the entry it yields and
    adds its successors, which lowers [queue_weight]. *)
Equations? traverse_loop (self : tiling) (depth : Z) (queue : list record)
  : yields by wf (queue_weight depth queue) lt :=
traverse_loop self depth [] := ([], None);
traverse_loop self depth (r :: queue) with inspect (rec_steps r <? depth)%Z := {
  | exist _ false _ := yield r (traverse_loop self depth queue);
  | exist _ true Hlt with inspect (successors self r) := {
    | exist _ (Raises e) _ := ([r], Some e);
    | exist _ (Returns new) Hnew :=
        yield r (traverse_loop self depth (queue ++ new)) } }.
Proof.
  - set (h := Z.to_nat (depth - (rec_steps r + 1))).
    assert (Hw : queue_weight depth new =
                 list_sum (map (fun tr => tree_size h tr.2)
                             (all_transitions (rec_state r)))).
    { unfold successors in Hnew. clear Hlt traverse_loop.
      revert new Hnew. generalize (all_transitions (rec_state r)).
      induction l as [|tr l IH]; intros new Hnew; simpl in Hnew.
      - injection Hnew as <-. reflexivity.
      - destruct (successor self r tr) as [r'|] eqn:Hs; simpl in Hnew;
          [|discriminate].
        destruct (for_each (successor self r) l) as [rs|] eqn:Hrs;
          simpl in Hnew; [|discriminate].
        injection Hnew as <-. unfold queue_weight in *. simpl.
        rewrite (IH rs eq_refl). f_equal. unfold successor in Hs.
        destruct (reflect_shape self tr.1 (rec_shape r)); simpl in Hs;
          [|discriminate].
        injection Hs as <-. reflexivity. }
    unfold queue_weight in *. rewrite map_app, list_sum_app, Hw. simpl.
    unfold entry_weight at 2. apply Z.ltb_lt in Hlt.
    replace (Z.to_nat (depth - rec_steps r)) with (S h) by (subst h; lia).
    simpl. lia.
  - unfold queue_weight. simpl. unfold entry_weight at 2.
    destruct (Z.to_nat (depth - rec_steps r)); simpl; lia.
Qed.

(** [traverse(depth, domain)] *)
Definition traverse (self : tiling) (depth : Z) (domain : list (vec F)) : yields :=
  traverse_loop self depth [(start (dfa self), [], 0%Z, domain)].

(** *** draw

    The cairo surface and context are outside this file: [draw] is
    modelled by the calls it makes on them, in order.  The calls are
    recorded, not executed: an exception that cairo itself raises (a
    surface size or a scale factor it refuses, a file it cannot write) is
    not part of the model, which follows a render as far as the code of
    this file decides it. *)
Inductive cairo_op : Type :=
| ImageSurface (width height : Z)
| Scale (sx sy : F)
| Translate (tx ty : F)
| SetSourceRgb (r g b : F)
| Paint
| SetLineWidth (w : F)
| SetLineCapRound
| SetLineJoinRound
| MoveTo (x y : F)
| LineTo (x y : F)
| FillPreserve
| Stroke
| WriteToPng (output : string).

(** A computation that issues cairo calls and then returns or raises. *)
Definition drawing (A : Type) : Type := list cairo_op * outcome A.

Definition emit (ops : list cairo_op) : drawing unit := (ops, Returns tt).

Definition lift {A} (m : outcome A) : drawing A := ([], m).

Definition dbind {A B} (m : drawing A) (k : A -> drawing B) : drawing B :=
  match m.2 with
  | Returns a => (m.1 ++ (k a).1, (k a).2)
  | Raises e => (m.1, Raises e)
  end.

Notation "'let+' x := m 'in' k" := (dbind m (fun x => k))
  (at level 10, x name, m at level 100, k at level 200).

(** [a / b] on Python numbers, which raises on a zero divisor.  Both
    operands are scalars: an [int] operand is converted first, as Python
    does when the other operand is a [float]; for two [int]s Python
    rounds the exact quotient once, which gives the same value whenever
    both convert exactly (below [2^53]). *)
Definition py_truediv (a b : F) : outcome F :=
  if truthy b then Returns (a / b)%num else Raises ZeroDivisionError.

(** [ctx.set_source_rgb] applied to the three values of [hex_to_rgb(value)] *)
Definition set_source_rgb_hex (value : Z) : list cairo_op :=
  match hex_to_rgb value with
  | [r; g; b] => [SetSourceRgb r g b]
  | _ => []
  end.

(** The body of the inner loop of [draw] for one yielded [shape] of the
    face of index [i]. *)
Definition draw_shape (margin : F) (edge_color : Z)
    (face_colors : option (list Z)) (i : nat) (shape : list (vec F))
  : drawing unit :=
  let+ shape := lift (for_each project_to_plane shape) in
  let+ shape := lift (inset_corners shape margin) in
  let+ p := lift (getitem shape 0) in
  let+ _ := emit [MoveTo p.1 p.2] in
  let+ _ := emit (map (fun q => LineTo q.1 q.2) (drop 1 shape)) in
  let+ _ := emit [LineTo p.1 p.2] in
  let+ _ := match face_colors with
            | Some colors =>
                let+ c := lift (getitem colors i) in
                let+ _ := emit (set_source_rgb_hex c) in
                emit [FillPreserve]
            | None => emit []
            end in
  let+ _ := emit (set_source_rgb_hex edge_color) in
  emit [Stroke].

Fixpoint draw_shapes (margin : F) (edge_color : Z)
    (face_colors : option (list Z)) (i : nat) (rs : list record)
  : drawing unit :=
  match rs with
  | [] => emit []
  | r :: rs' =>
      let+ _ := draw_shape margin edge_color face_colors i (rec_shape r) in
      draw_shapes margin edge_color face_colors i rs'
  end.

(** [for _, _, _, shape in self.traverse(depth, face)]: the records the
    generator yields are drawn, then the exception that ended it, if
    any, is raised. *)
Definition draw_face (self : tiling) (depth : Z) (margin : F)
    (edge_color : Z) (face_colors : option (list Z)) (i : nat)
    (face : list (vec F)) : drawing unit :=
  let ys := traverse self depth face in
  let+ _ := draw_shapes margin edge_color face_colors i ys.1 in
  match ys.2 with
  | Some e => lift (Raises e)
  | None => emit []
  end.

(** [for i, face in enumerate(self.fundamental_faces)] from index [i]. *)
Fixpoint draw_faces (self : tiling) (depth : Z) (margin : F)
    (edge_color : Z) (face_colors : option (list Z)) (i : nat)
    (faces : list (list (vec F))) : drawing unit :=
  match faces with
  | [] => emit []
  | face :: faces' =>
      let+ _ := draw_face self depth margin edge_color face_colors i face in
      draw_faces self depth margin edge_color face_colors (S i) faces'
  end.

(** The body of [draw], all arguments given.  [face_colors = None] is the
    Python value [None]. *)
Definition draw_with (self : tiling) (output : string)
    (image_width image_height : Z) (extent : F) (depth : Z)
    (line_width margin : F) (edge_color : Z) (face_colors : option (list Z))
  : drawing unit * tiling :=
  let setup : drawing unit :=
    let+ _ := emit [ImageSurface image_width image_height] in
    let+ sx := lift (py_truediv (of_int image_height) extent) in
    let+ sy := lift (py_truediv (of_int image_height) extent) in
    let+ _ := emit [Scale sx sy] in
    let+ tx := lift (py_truediv extent (of_int 2)) in
    let+ ty := lift (py_truediv extent (of_int 2)) in
    let+ _ := emit [Translate tx ty] in
    emit [SetSourceRgb (of_int 0) (of_int 0) (of_int 0); Paint;
          SetLineWidth line_width; SetLineCapRound; SetLineJoinRound] in
  match setup.2 with
  | Raises e => (setup, self)
  | Returns _ =>
      let built := get_fundamental_faces self in
      let self' := built.2 in
      (let+ _ := setup in
       let+ _ := lift built.1 in
       let+ _ := draw_faces self' depth margin edge_color face_colors 0
                   (fundamental_faces self') in
       emit [WriteToPng output],
       self')
  end.

(** The keyword arguments of [draw]: [None] stands for an argument the
    caller leaves out. *)
Record draw_kwargs := {
  line_width : option F;
  margin : option F;
  edge_color : option Z;
  face_colors : option (option (list Z))
}.

Definition default_line_width : F := (of_int 2 / of_int 10)%num.
Definition default_margin : F := (of_int 3 / of_int 10)%num.
Definition default_edge_color : Z := 0x313E4A%Z.
Definition default_face_colors : option (list Z) :=
  Some [0x477984; 0xEEAA4D; 0xC03C44]%Z.

(** [self.draw(output, image_width, image_height, extent, depth, ...)] *)
Definition draw (self : tiling) (output : string)
    (image_width image_height : Z) (extent : F) (depth : Z)
    (kw : draw_kwargs) : drawing unit * tiling :=
  draw_with self output image_width image_height extent depth
    (default default_line_width (line_width kw))
    (default default_margin (margin kw))
    (default default_edge_color (edge_color kw))
    (default default_face_colors (face_colors kw)).
End Tiling.

Arguments automaton : clear implicits.
Arguments tiling : clear implicits.
Arguments record : clear implicits.
Arguments yields : clear implicits.
Arguments cairo_op : clear implicits.
Arguments drawing : clear implicits.
Arguments draw_kwargs : clear implicits.

(** *** __init__

    [helpers.make_symmetry_matrix], [automata.get_automaton] and
    [helpers.get_init_point] are defined in modules outside this file and
    are taken as parameters. *)

Section Init.
Context {F : Type} `{Scalar F} `{Trig F} {State : Type}.
Variable make_symmetry_matrix : list Z -> outcome (list (list Z)).
Variable get_automaton : list (list Z) -> outcome (automaton State).
Variable get_init_point : matrix F -> list F -> outcome (vec F).

Definition init (pqr : list Z) (init_dist : list F) : outcome (tiling F State) :=
  let active := map truthy init_dist in
  let* cox_mat := make_symmetry_matrix pqr in
  let* dfa := get_automaton cox_mat in
  let* mirrors := get_mirrors cox_mat in
  let* init_v := get_init_point mirrors init_dist in
  let reflections := get_reflections mirrors init_dist in
  Returns {| active := active;
             cox_mat := cox_mat;
             dfa := dfa;
             mirrors := mirrors;
             init_v := init_v;
             reflections := reflections;
             fundamental_faces := [] |}.
End Init.

(** ** Vocabulary of the statements *)

Section Vocabulary.
Context {F : Type} `{Scalar F}.

(** [-cos(pi / a)], the entry of [C] for the Coxeter entry [a]. *)
Definition cosine_of `{Trig F} (a : Z) : F := (- np_cos (np_pi / of_int a))%num.

(** [dot(v, w)] when the shapes agree. *)
Definition dot (v w : vec F) : F := dot_acc (of_int 0) v w.


(** [v - s * a], elementwise. *)
Definition axpy (s : F) (a v : vec F) : vec F :=
  zip_with (fun x n => x - s * n)%num v a.

(** The image of [v] in the mirror of normal [normal] at distance [dist]. *)
Definition mirror_image (v normal : vec F) (dist : F) : vec F :=
  axpy (of_int 2 * (dot v normal + dist))%num normal v.

(** Mirror [(a, alpha)], then mirror [(b, beta)]. *)
Definition rotation (a b : vec F) (alpha beta : F) (v : vec F) : vec F :=
  mirror_image (mirror_image v a alpha) b beta.
End Vocabulary.

Section TraversalVocabulary.
Context {F : Type} `{Scalar F} {State : Type}.

(** The action of a word on a shape: the reflections indexed by its
    symbols, applied to every vertex, first symbol first. *)
Fixpoint apply_word (self : tiling F State) (word : list Z)
    (shape : list (vec F)) : outcome (list (vec F)) :=
  match word with
  | [] => Returns shape
  | symbol :: word' =>
      let* shape' := reflect_shape self symbol shape in
      apply_word self word' shape'
  end.

(** [r] was appended while the entry [p] was being expanded. *)
Definition successor_of (all_transitions : State -> list (Z * State))
    (self : tiling F State) (p r : record F State) : Prop :=
  exists tr, In tr (all_transitions (rec_state p)) /\
             successor self p tr = Returns r.

(** Breadth-first order: the step count never decreases. *)
Definition step_le (a b : record F State) : Prop :=
  (rec_steps a <= rec_steps b)%Z.

(** The shape of the queue between two rounds: ordered by step count,
    and spanning at most two consecutive levels. *)
Definition level_queue (queue : list (record F State)) : Prop :=
  StronglySorted step_le queue /\
  forall a b, In a queue -> In b queue -> (rec_steps b <= rec_steps a + 1)%Z.

(** The traversal level by level.  [expand_level] goes through the
    records of one level in order: the records yielded, the successors
    appended behind them, and the exception that stopped the run, if one
    was raised. *)
Fixpoint expand_level (all_transitions : State -> list (Z * State))
    (self : tiling F State) (level : list (record F State))
  : list (record F State) * list (record F State) * option exn :=
  match level with
  | [] => ([], [], None)
  | r :: rest =>
      match successors all_transitions self r with
      | Raises e => ([r], [], Some e)
      | Returns new =>
          let '(done, next, e) := expand_level all_transitions self rest in
          (r :: done, new ++ next, e)
      end
  end.

(** [h] levels below the depth bound: a level is yielded in order, then
    the level of its successors, in the order they were appended. *)
Fixpoint bfs_levels (all_transitions : State -> list (Z * State))
    (self : tiling F State) (h : nat) (level : list (record F State))
  : yields F State :=
  match h with
  | O => (level, None)
  | S h' =>
      let '(done, next, e) := expand_level all_transitions self level in
      match e with
      | Some e => (done, Some e)
      | None =>
          let rest := bfs_levels all_transitions self h' next in
          (done ++ rest.1, rest.2)
      end
  end.
End TraversalVocabulary.

Section FaceVocabulary.
Context {F : Type} `{Scalar F} {State : Type}.

(** The faces that one run of the loop of [get_fundamental_faces] appends
    and the way the run ends. *)
Fixpoint built_faces (pairs : list (nat * nat)) (self : tiling F State)
  : outcome unit * list (list (vec F)) :=
  match pairs with
  | [] => (Returns tt, [])
  | (i, j) :: pairs' =>
      match face_of_pair self i j with
      | Raises e => (Raises e, [])
      | Returns None => built_faces pairs' self
      | Returns (Some f0) =>
          ((built_faces pairs' self).1, f0 :: (built_faces pairs' self).2)
      end
  end.

(** [self] with [faces] appended to [self.fundamental_faces]. *)
Definition extend_faces (self : tiling F State) (faces : list (list (vec F)))
  : tiling F State :=
  {| active := active self;
     cox_mat := cox_mat self;
     dfa := dfa self;
     mirrors := mirrors self;
     init_v := init_v self;
     reflections := reflections self;
     fundamental_faces := fundamental_faces self ++ faces |}.

(** Number of cairo calls in a trace that satisfy [p]. *)
Definition count_if {A} (p : A -> bool) (l : list A) : nat :=
  length (List.filter p l).

Definition is_fill (op : cairo_op F) : bool :=
  match op with FillPreserve => true | _ => false end.

Definition is_stroke (op : cairo_op F) : bool :=
  match op with Stroke => true | _ => false end.

(** Without a colour list a trace has no fill; with one it has a fill for
    every stroke. *)
Definition fill_balance (face_colors : option (list Z))
    (trace : list (cairo_op F)) : Prop :=
  count_if is_fill trace =
  match face_colors with
  | None => 0%nat
  | Some _ => count_if is_stroke trace
  end.

(** A call of [draw] that leaves every keyword argument out. *)
Definition no_kwargs : draw_kwargs F :=
  {| line_width := None; margin := None; edge_color := None;
     face_colors := None |}.
End FaceVocabulary.

Section OrbitVocabulary.
Context {A : Type}.

(** What the loop of the both-active branch appends: [n] times [P] then
    [Q], both advanced by [T] after each round. *)
Fixpoint interleave_orbit (T : A -> A) (n : nat) (P Q : A) : list A :=
  match n with
  | O => []
  | S n' => P :: Q :: interleave_orbit T n' (T P) (T Q)
  end.
End OrbitVocabulary.

(** The scalars that describe the orbit of a point [v] under the rotation
    [mirror j after mirror i]: [s] and [t] are the signed distances of the
    current point to the two mirrors, [x] and [y] the multiples of the
    two normals taken from [v] so far. *)
Definition coef_step (c : R) (q : R * R * R * R) : R * R * R * R :=
  let '(s, t, x, y) := q in
  let t' := (t + 2 * c * s)%R in
  (- s + 2 * c * t', - t', x + 2 * s, y + 2 * t')%R.

(** ** A sample instance

    The tiling (2, 4, 4) with distances (1, 1, 0): the first two mirrors
    are the lines x = -1 and y = -1, the third passes through the initial
    point.  The entries of the third mirror are rounded to binary64; the
    automaton is a small one with three states. *)

Definition sample_transitions (s : nat) : list (Z * nat) :=
  match s with
  | 0%nat => [(0%Z, 1%nat); (1%Z, 2%nat)]
  | 1%nat => [(1%Z, 2%nat)]
  | _ => []
  end.

Definition sample_mirrors : matrix float :=
  [[1; 0; 0]; [0; 1; 0];
   [-0x1.6a09e667f3bcdp-1; -0x1.6a09e667f3bcdp-1; 0]]%float.

Definition sample_tiling : tiling float nat :=
  {| active := [true; true; false];
     cox_mat := [[1; 2; 4]; [2; 1; 4]; [4; 4; 1]]%Z;
     dfa := {| start := 0%nat |};
     mirrors := sample_mirrors;
     init_v := [0; 0; 1]%float;
     reflections := get_reflections sample_mirrors [1; 1; 0]%float;
     fundamental_faces := [] |}.

(** The same mirrors with the distances (1.2, 1.0, 0.8) of the last call
    of [main] and the initial point (0.1, 0.2, 1), none of them a binary
    fraction. *)
Definition sample_tiling_rounded : tiling float nat :=
  {| active := [true; true; false];
     cox_mat := [[1; 2; 4]; [2; 1; 4]; [4; 4; 1]]%Z;
     dfa := {| start := 0%nat |};
     mirrors := sample_mirrors;
     init_v := [0x1.999999999999ap-4; 0x1.999999999999ap-3; 1]%float;
     reflections :=
       get_reflections sample_mirrors
         [0x1.3333333333333p+0; 1; 0x1.999999999999ap-1]%float;
     fundamental_faces := [] |}.

(** The mirrors of the tiling (2, 4, 4) in exact arithmetic. *)
Definition mirrors_244 : matrix R :=
  [[1; 0; 0]; [0; 1; 0]; [- (1 / sqrt 2); - (1 / sqrt 2); 0]]%R.

(** The sample instance in exact arithmetic. *)
Definition sample_tiling_exact : tiling R nat :=
  {| active := [true; true; false];
     cox_mat := [[1; 2; 4]; [2; 1; 4]; [4; 4; 1]]%Z;
     dfa := {| start := 0%nat |};
     mirrors := mirrors_244;
     init_v := [0; 0; 1]%R;
     reflections := get_reflections mirrors_244 [1; 1; 0]%R;
     fundamental_faces := [] |}.

(** ** Vocabulary of the further properties *)

(** [v - w] and the squared distance of two points, in exact arithmetic. *)
Definition vsub (v w : vec R) : vec R := zip_with Rminus v w.

Definition sqdist (v w : vec R) : R := dot (vsub v w) (vsub v w).

Section PathVocabulary.
Context {A State : Type}.

(** [P, T P, ..., T^(n-1) P]: what the loop of a one-active branch
    appends. *)
Fixpoint orbit (T : A -> A) (n : nat) (P : A) : list A :=
  match n with
  | O => []
  | S n' => P :: orbit T n' (T P)
  end.

(** Reading [word] from the state [s] along the transitions of the
    automaton leads to [s']. *)
Fixpoint reaches (all_transitions : State -> list (Z * State))
    (s : State) (word : list Z) (s' : State) : Prop :=
  match word with
  | [] => s = s'
  | symbol :: word' =>
      exists t, In (symbol, t) (all_transitions s) /\
                reaches all_transitions t word' s'
  end.

(** No state has two transitions with one symbol. *)
Definition deterministic (all_transitions : State -> list (Z * State)) : Prop :=
  forall s, List.NoDup (map fst (all_transitions s)).
End PathVocabulary.

Section TraceVocabulary.
Context {F : Type}.

(** The call that writes the image file. *)
Definition is_write (op : cairo_op F) : bool :=
  match op with WriteToPng _ => true | _ => false end.

(** A drawing that returns ends with [write_to_png(output)] and holds no
    other call that writes; a drawing that raises holds none. *)
Definition writes_last (output : string) (m : drawing F unit) : Prop :=
  match m.2 with
  | Returns _ =>
      exists body, m.1 = body ++ [WriteToPng output] /\
                   count_if is_write body = 0%nat
  | Raises _ => count_if is_write m.1 = 0%nat
  end.
End TraceVocabulary.

(** A colour component in binary64: the byte [b] over 255 lies between 0
    and 1. *)
Definition unit_component (b : Z) : bool :=
  let x : float := (of_int b / of_int 255)%num in
  PrimFloat.leb 0 x && PrimFloat.leb x 1.

Section InstanceVocabulary.
Context {F : Type} `{Scalar F} {State : Type}.

(** A face that can be drawn: it has a vertex and its vertices have
    dimension [d]. *)
Definition drawable (d : nat) (face : list (vec F)) : Prop :=
  face <> [] /\ Forall (fun p => length p = d) face.

(** An instance of dimension [d] as [__init__] builds it from three
    distances and a 3x3 Coxeter matrix: three flags, three mirrors of
    dimension [d], the reflections of these mirrors, an initial point of
    dimension [d], orders of at least 1 above the diagonal, and only
    faces that can be drawn. *)
Definition well_formed (d : nat) (self : tiling F State) : Prop :=
  length (active self) = 3%nat /\
  length (mirrors self) = 3%nat /\
  Forall (fun normal => length normal = d) (mirrors self) /\
  (exists init_dist, length init_dist = 3%nat /\
     reflections self = get_reflections (mirrors self) init_dist) /\
  length (init_v self) = d /\
  (forall i j, (i < j < 3)%nat ->
     exists n, cox_entry self i j = Returns n /\ (1 <= n)%Z) /\
  Forall (drawable d) (fundamental_faces self).

(** The queue between two rounds: distinct words, each as long as the
    step count of its record, at most two consecutive levels, and no word
    that extends another one by a symbol. *)
Definition distinct_queue (queue : list (record F State)) : Prop :=
  List.NoDup (map rec_word queue) /\
  Forall (fun r => Z.of_nat (length (rec_word r)) = rec_steps r) queue /\
  level_queue queue /\
  (forall a b s, In a queue -> In b queue ->
                 rec_word b <> rec_word a ++ [s]).

(** The automaton reads the symbols 0, 1 and 2, or their negative
    counterparts as Python indices. *)
Definition three_symbols (all_transitions : State -> list (Z * State)) : Prop :=
  forall s symbol t, In (symbol, t) (all_transitions s) -> (-3 <= symbol < 3)%Z.
End InstanceVocabulary.

(** * Properties *)

(** ** The mirror matrix *)

Section MirrorProperties.
Context {F : Type} `{Scalar F} `{Trig F}.

(** C1.  On a 3x3 Coxeter matrix [get_mirrors] returns the lower
    triangular matrix with rows [(1, 0, 0)], [(C10, sqrt(1 - C10^2), 0)]
    and [(C20, (C21 - C20*C10)/M11, sqrt(|C20^2 + M21^2 - 1|))], where
    [Cij = -cos(pi / cox_mat[i][j])]; the absolute value occurs in the last
    radicand only. *)
Theorem get_mirrors_lower_triangular
    (a00 a01 a02 a10 a11 a12 a20 a21 a22 : Z) :
  let c10 := cosine_of a10 in
  let c20 := cosine_of a20 in
  let c21 := cosine_of a21 in
  let m11 := fsqrt (of_int 1 - c10 * c10)%num in
  let m21 := ((c21 - c20 * c10) / m11)%num in
  let m22 := fsqrt (fabs (c20 * c20 + m21 * m21 - of_int 1)%num) in
  get_mirrors [[a00; a01; a02]; [a10; a11; a12]; [a20; a21; a22]] =
  Returns [[of_int 1; of_int 0; of_int 0];
           [c10; m11; of_int 0];
           [c20; m21; m22]].
Proof. reflexivity. Qed.
End MirrorProperties.

(** ** The reflections and the projection *)

Section ReflectionProperties.
Context {F : Type} `{Scalar F}.

Lemma reflect_returns (v normal : vec F) (dist : F) :
  length v = length normal ->
  reflect v normal dist = Returns (mirror_image v normal dist).
Proof.
  intros Hlen. unfold reflect, np_dot. rewrite Hlen, Nat.eqb_refl. reflexivity.
Qed.

Lemma length_mirror_image (v normal : vec F) (dist : F) :
  length v = length normal -> length (mirror_image v normal dist) = length v.
Proof.
  intros Hlen. unfold mirror_image, axpy.
  rewrite length_zip_with. lia.
Qed.

Lemma get_reflections_lookup (mirrors : matrix F) (init_dist : list F)
    (k : nat) (normal : vec F) (dist : F) :
  mirrors !! k = Some normal -> init_dist !! k = Some dist ->
  get_reflections mirrors init_dist !! k = Some (fun v => reflect v normal dist).
Proof.
  intros Hn Hd. unfold get_reflections, matrix, vec in *.
  rewrite list_lookup_fmap.
  assert (Hz : zip mirrors init_dist !! k = Some (normal, dist)).
  { rewrite lookup_zip_with, Hn. simpl. rewrite Hd. reflexivity. }
  rewrite Hz. reflexivity.
Qed.



End ReflectionProperties.

(** Dividing by a binary64 zero, [0.0] or [-0.0], gives an infinity or
    NaN, whatever is divided. *)
Lemma div_zero_unbounded (x z : float) :
  PrimFloat.eqb z 0 = true ->
  (x / z = infinity \/ x / z = neg_infinity \/ x / z = nan)%float.
Proof.
  intros Hz. rewrite FloatAxioms.eqb_spec in Hz.
  change (Prim2SF 0) with (S754_zero false) in Hz.
  assert (Hdiv := FloatAxioms.div_spec x z).
  destruct (Prim2SF z) as [sz|sz| |sz mz ez] eqn:Ez;
    try (destruct sz; discriminate Hz); try discriminate Hz.
  destruct (Prim2SF x) as [sx|sx| |sx mx ex] eqn:Ex; simpl in Hdiv.
  - right. right. apply Prim2SF_inj. rewrite Hdiv. reflexivity.
  - destruct (xorb sx sz); [right; left|left];
      apply Prim2SF_inj; rewrite Hdiv; reflexivity.
  - right. right. apply Prim2SF_inj. rewrite Hdiv. reflexivity.
  - destruct (xorb sx sz); [right; left|left];
      apply Prim2SF_inj; rewrite Hdiv; reflexivity.
Qed.

(** C7, amended.  On every 3-component point [project_to_plane] returns
    the first two components divided by the third, whatever the
    arithmetic; the division is numpy's, so in binary64 nothing is raised
    when the third component is zero, [0.0] or [-0.0], and each of the
    two quotients is then an infinity or NaN. *)
Theorem project_to_plane_divides :
  (forall (F : Type) (SF : Scalar F) (x y z : F),
     project_to_plane [x; y; z] = Returns [x / z; y / z]%num) /\
  (forall x y z : float,
     PrimFloat.eqb z 0 = true ->
     exists q1 q2 : float,
       project_to_plane [x; y; z] = Returns [q1; q2] /\
       (q1 = infinity \/ q1 = neg_infinity \/ q1 = nan) /\
       (q2 = infinity \/ q2 = neg_infinity \/ q2 = nan)).
Proof.
  split; [reflexivity|]. intros x y z Hz.
  exists (x / z)%float, (y / z)%float. split; [reflexivity|].
  split; now apply div_zero_unbounded.
Qed.

Lemma project_to_plane_divides_witness :
  PrimFloat.eqb (-0)%float 0 = true /\
  exists q1 q2 : float,
    project_to_plane [0; -2; -0]%float = Returns [q1; q2] /\
    (q1 = infinity \/ q1 = neg_infinity \/ q1 = nan) /\
    (q2 = infinity \/ q2 = neg_infinity \/ q2 = nan) /\
    q1 = nan /\ q2 = infinity.
Proof.
  split; [reflexivity|].
  destruct (proj2 project_to_plane_divides 0 (-2) (-0) eq_refl)%float
    as (q1 & q2 & Hret & H1 & H2).
  exists q1, q2. split; [exact Hret|]. split; [exact H1|].
  split; [exact H2|].
  vm_compute in Hret. injection Hret as <- <-. split; reflexivity.
Defined.



(** C7, as the claim states it, fails: a zero third component raises
    nothing, the quotients are infinite. *)
Lemma project_to_plane_zero_returns :
  project_to_plane [1; 2; 0]%float = Returns [infinity; infinity].
Proof. vm_compute. reflexivity. Qed.

(** ** The traversal *)

Section TraverseInduction.
Context {F : Type} `{Scalar F} {State : Type}.
Variable all_transitions : State -> list (Z * State).
Variable self : tiling F State.
Variable depth : Z.

Lemma traverse_loop_nil :
  traverse_loop all_transitions self depth [] = ([], None).
Proof. now simp traverse_loop. Qed.

Lemma traverse_loop_cons (r : record F State) (queue : list (record F State)) :
  traverse_loop all_transitions self depth (r :: queue) =
    if (rec_steps r <? depth)%Z then
      match successors all_transitions self r with
      | Returns new =>
          yield r (traverse_loop all_transitions self depth (queue ++ new))
      | Raises e => ([r], Some e)
      end
    else yield r (traverse_loop all_transitions self depth queue).
Proof.
  match goal with |- _ = ?rhs => remember rhs as out eqn:Hout end.
  simp traverse_loop.
  destruct (inspect (rec_steps r <? depth)%Z) as [[] Hb];
    rewrite Hb in Hout; simp traverse_loop.
  - destruct (inspect (successors all_transitions self r)) as [[new|e] Hs];
      rewrite Hs in Hout; simp traverse_loop; now subst out.
  - now subst out.
Qed.

(** Induction along the rounds of the loop. *)
Variable Q : list (record F State) -> yields F State -> Prop.
Hypothesis Qnil : Q [] ([], None).
Hypothesis Qleaf : forall r queue,
  (depth <= rec_steps r)%Z ->
  Q queue (traverse_loop all_transitions self depth queue) ->
  Q (r :: queue) (yield r (traverse_loop all_transitions self depth queue)).
Hypothesis Qraise : forall r queue e,
  (rec_steps r < depth)%Z ->
  successors all_transitions self r = Raises e ->
  Q (r :: queue) ([r], Some e).
Hypothesis Qnode : forall r queue new,
  (rec_steps r < depth)%Z ->
  successors all_transitions self r = Returns new ->
  Q (queue ++ new) (traverse_loop all_transitions self depth (queue ++ new)) ->
  Q (r :: queue)
    (yield r (traverse_loop all_transitions self depth (queue ++ new))).

Lemma traverse_loop_rounds (queue : list (record F State)) :
  Q queue (traverse_loop all_transitions self depth queue).
Proof.
  funelim (traverse_loop all_transitions self depth queue).
  - exact Qnil.
  - apply Qleaf; [now apply Z.ltb_ge|assumption].
  - eapply Qnode; [now apply Z.ltb_lt|eassumption|assumption].
  - eapply Qraise; [now apply Z.ltb_lt|eassumption].
Qed.
End TraverseInduction.

Section TraverseProperties.
Context {F : Type} `{Scalar F} {State : Type}.
Variable all_transitions : State -> list (Z * State).
Variable self : tiling F State.

Abbreviation loop := (traverse_loop all_transitions self).

Lemma for_each_Forall2 {A B} (f : A -> outcome B) (xs : list A) (ys : list B) :
  for_each f xs = Returns ys -> Forall2 (fun x y => f x = Returns y) xs ys.
Proof.
  revert ys. induction xs as [|x xs IH]; intros ys Hys; simpl in Hys.
  - injection Hys as <-. constructor.
  - destruct (f x) as [y|] eqn:Hy; simpl in Hys; [|discriminate].
    destruct (for_each f xs) as [ys'|]; simpl in Hys; [|discriminate].
    injection Hys as <-. constructor; auto.
Qed.

Lemma for_each_In {A B} (f : A -> outcome B) (xs : list A) (ys : list B) (y : B) :
  for_each f xs = Returns ys -> In y ys ->
  exists x, In x xs /\ f x = Returns y.
Proof.
  intros Hys. apply for_each_Forall2 in Hys.
  induction Hys as [|x y' xs ys Hy _ IH]; simpl; intros Hin; [contradiction|].
  destruct Hin as [-> | Hin]; [eauto|].
  destruct (IH Hin) as (x' & Hx' & Hfx). eauto.
Qed.

Lemma successors_In (r r' : record F State) (new : list (record F State)) :
  successors all_transitions self r = Returns new ->
  In r' new -> successor_of all_transitions self r r'.
Proof. intros Hnew Hin. exact (for_each_In _ _ _ _ Hnew Hin). Qed.

Lemma successor_of_inv (p r : record F State) :
  successor_of all_transitions self p r ->
  exists symbol,
    rec_word r = rec_word p ++ [symbol] /\
    rec_steps r = (rec_steps p + 1)%Z /\
    reflect_shape self symbol (rec_shape p) = Returns (rec_shape r).
Proof.
  intros (tr & _ & Hs). exists tr.1. unfold successor in Hs.
  destruct (reflect_shape self tr.1 (rec_shape p)) as [shape'|];
    simpl in Hs; [|discriminate].
  injection Hs as <-. auto.
Qed.

Lemma traverse_loop_head (depth : Z) (r : record F State)
    (queue : list (record F State)) :
  exists rest, (loop depth (r :: queue)).1 = r :: rest.
Proof.
  rewrite traverse_loop_cons.
  destruct (rec_steps r <? depth)%Z; [|simpl; eauto].
  destruct (successors all_transitions self r); simpl; eauto.
Qed.

Lemma traverse_loop_leaf (depth : Z) (r : record F State) :
  (depth <= rec_steps r)%Z -> loop depth [r] = ([r], None).
Proof.
  intros Hle. rewrite traverse_loop_cons.
  destruct (Z.ltb_spec (rec_steps r) depth); [lia|].
  now rewrite traverse_loop_nil.
Qed.

(** A property of queue entries that successors inherit holds of every
    record yielded. *)
Lemma traverse_loop_Forall (depth : Z) (P : record F State -> Prop) :
  (forall p r, P p -> (rec_steps p < depth)%Z ->
               successor_of all_transitions self p r -> P r) ->
  forall queue, Forall P queue -> Forall P (loop depth queue).1.
Proof.
  intros Hstep queue. apply traverse_loop_rounds; clear queue; simpl.
  - auto.
  - intros r queue _ IH Hq. inversion Hq; subst. constructor; auto.
  - intros r queue e _ _ Hq. inversion Hq; subst. constructor; auto.
  - intros r queue new Hlt Hnew IH Hq. inversion Hq; subst.
    constructor; [assumption|]. apply IH, Forall_app. split; [assumption|].
    apply List.Forall_forall. intros r' Hr'.
    eapply Hstep; eauto using successors_In.
Qed.

(** Every record yielded is a queue entry or a successor of a record
    yielded below the depth bound. *)
Lemma traverse_loop_parent (depth : Z) (queue : list (record F State)) :
  forall r, In r (loop depth queue).1 ->
    In r queue \/
    exists p, In p (loop depth queue).1 /\ (rec_steps p < depth)%Z /\
              successor_of all_transitions self p r.
Proof.
  apply traverse_loop_rounds; clear queue; simpl.
  - intros r [].
  - intros r0 queue _ IH r [-> | Hr]; [auto|].
    destruct (IH r Hr) as [Hq|(p & Hp & Hlt & Hs)]; [auto|].
    right. exists p. auto.
  - intros r0 queue e _ _ r [-> | []]. auto.
  - intros r0 queue new Hlt Hnew IH r [-> | Hr]; [auto|].
    destruct (IH r Hr) as [Hq|(p & Hp & Hlt' & Hs)].
    + apply in_app_or in Hq as [Hq|Hq]; [auto|].
      right. exists r0. eauto using successors_In.
    + right. exists p. auto.
Qed.
End TraverseProperties.

Section TraverseOrder.
Context {F : Type} `{Scalar F} {State : Type}.
Variable all_transitions : State -> list (Z * State).
Variable self : tiling F State.

Abbreviation loop := (traverse_loop all_transitions self).

Lemma StronglySorted_app {A} (R : A -> A -> Prop) (l1 l2 : list A) :
  StronglySorted R l1 -> StronglySorted R l2 ->
  (forall a b, In a l1 -> In b l2 -> R a b) ->
  StronglySorted R (l1 ++ l2).
Proof.
  intros H1 H2 H12. induction H1 as [|a l1 Hl1 IH Ha]; simpl; [assumption|].
  constructor.
  - apply IH. intros x y Hx Hy. apply H12; [now right|assumption].
  - apply Forall_app. split; [assumption|].
    apply List.Forall_forall. intros y Hy. apply H12; [now left|assumption].
Qed.

Lemma successors_steps (p : record F State) (new : list (record F State)) :
  successors all_transitions self p = Returns new ->
  Forall (fun r => rec_steps r = (rec_steps p + 1)%Z) new.
Proof.
  intros Hnew. apply List.Forall_forall. intros r Hr.
  destruct (successor_of_inv all_transitions self p r) as (s & _ & Hs & _);
    eauto using successors_In.
Qed.

Lemma same_level_sorted (c : Z) (l : list (record F State)) :
  Forall (fun r => rec_steps r = c) l -> StronglySorted step_le l.
Proof.
  induction 1 as [|r l Hr Hl IH]; constructor; [assumption|].
  eapply List.Forall_impl; [|exact Hl]. unfold step_le. simpl. intros; lia.
Qed.

Lemma level_queue_tail (r : record F State) (queue : list (record F State)) :
  level_queue (r :: queue) -> level_queue queue.
Proof.
  intros [Hs Hb]. split.
  - now inversion Hs.
  - intros a b Ha Hb'. apply Hb; now right.
Qed.

Lemma level_queue_head (r : record F State) (queue : list (record F State)) :
  level_queue (r :: queue) ->
  Forall (fun x => (rec_steps r <= rec_steps x <= rec_steps r + 1)%Z) queue.
Proof.
  intros [Hs Hb]. inversion Hs as [|? ? _ Hle]; subst.
  apply List.Forall_forall. intros x Hx. split.
  - rewrite List.Forall_forall in Hle. now apply Hle.
  - apply Hb; [now left|now right].
Qed.

Lemma level_queue_push (r : record F State) (queue new : list (record F State)) :
  level_queue (r :: queue) ->
  Forall (fun x => rec_steps x = (rec_steps r + 1)%Z) new ->
  level_queue (queue ++ new).
Proof.
  intros Hq Hnew. pose proof (level_queue_head _ _ Hq) as Hhead.
  rewrite List.Forall_forall in Hhead, Hnew. split.
  - apply StronglySorted_app.
    + now destruct (level_queue_tail _ _ Hq).
    + eapply same_level_sorted, List.Forall_forall, Hnew.
    + intros a b Ha Hb. unfold step_le.
      specialize (Hhead a Ha). specialize (Hnew b Hb). simpl in *. lia.
  - intros a b Ha Hb.
    apply in_app_or in Ha as [Ha|Ha]; apply in_app_or in Hb as [Hb|Hb];
      try specialize (Hhead _ Ha) as Ha'; try specialize (Hnew _ Ha) as Ha';
      try specialize (Hhead _ Hb) as Hb'; try specialize (Hnew _ Hb) as Hb';
      simpl in *; lia.
Qed.

Lemma traverse_loop_above (depth : Z) (m : Z) (queue : list (record F State)) :
  Forall (fun x => (m <= rec_steps x)%Z) queue ->
  Forall (fun x => (m <= rec_steps x)%Z) (loop depth queue).1.
Proof.
  apply traverse_loop_Forall. intros p r Hp _ Hs.
  destruct (successor_of_inv _ _ _ _ Hs) as (s & _ & Hr & _). lia.
Qed.

Lemma traverse_loop_sorted (depth : Z) (queue : list (record F State)) :
  level_queue queue -> StronglySorted step_le (loop depth queue).1.
Proof.
  apply traverse_loop_rounds; clear queue; simpl.
  - constructor.
  - intros r queue _ IH Hq. constructor.
    + apply IH. eapply level_queue_tail, Hq.
    + apply traverse_loop_above.
      eapply List.Forall_impl; [|exact (level_queue_head _ _ Hq)].
      simpl. intros; lia.
  - intros r queue e _ _ _. repeat constructor.
  - intros r queue new _ Hnew IH Hq.
    pose proof (successors_steps _ _ Hnew) as Hsteps. constructor.
    + apply IH. eapply level_queue_push; eassumption.
    + apply traverse_loop_above. apply Forall_app. split.
      * eapply List.Forall_impl; [|exact (level_queue_head _ _ Hq)].
        simpl. intros; lia.
      * eapply List.Forall_impl; [|exact Hsteps]. simpl. intros; lia.
Qed.

(** The loop works level by level. *)
Lemma traverse_loop_expand (depth : Z) (q acc : list (record F State)) :
  Forall (fun r => (rec_steps r < depth)%Z) q ->
  loop depth (q ++ acc) =
  let '(done, next, e) := expand_level all_transitions self q in
  match e with
  | Some e => (done, Some e)
  | None => (done ++ (loop depth (acc ++ next)).1,
             (loop depth (acc ++ next)).2)
  end.
Proof.
  intros Hq. revert acc. induction Hq as [|r q Hr _ IH]; intros acc.
  - simpl. rewrite app_nil_r. now destruct (loop depth acc).
  - simpl. rewrite traverse_loop_cons.
    destruct (Z.ltb_spec (rec_steps r) depth) as [_|]; [|lia].
    destruct (successors all_transitions self r) as [new|e]; [|reflexivity].
    rewrite <- app_assoc, IH.
    destruct (expand_level all_transitions self q) as [[done next] [e|]];
      [reflexivity|].
    now rewrite <- app_assoc.
Qed.

Lemma expand_level_steps (c : Z) (level : list (record F State)) :
  Forall (fun r => rec_steps r = c) level ->
  Forall (fun r => rec_steps r = (c + 1)%Z)
    (expand_level all_transitions self level).1.2.
Proof.
  induction 1 as [|r level Hr _ IH]; simpl; [constructor|].
  destruct (successors all_transitions self r) as [new|e] eqn:Hnew;
    [|constructor].
  destruct (expand_level all_transitions self level) as [[done next] e].
  simpl in *. apply Forall_app. split; [|assumption].
  rewrite <- Hr. now apply successors_steps.
Qed.

Lemma traverse_loop_bottom (depth : Z) (level : list (record F State)) :
  Forall (fun r => rec_steps r = depth) level ->
  loop depth level = (level, None).
Proof.
  induction 1 as [|r level Hr _ IH].
  - apply traverse_loop_nil.
  - rewrite traverse_loop_cons.
    destruct (Z.ltb_spec (rec_steps r) depth) as [|_]; [lia|].
    now rewrite IH.
Qed.

Lemma traverse_loop_levels (depth : Z) (h : nat) (level : list (record F State)) :
  Forall (fun r => rec_steps r = (depth - Z.of_nat h)%Z) level ->
  loop depth level = bfs_levels all_transitions self h level.
Proof.
  revert level. induction h as [|h IH]; intros level Hlevel.
  - apply traverse_loop_bottom.
    eapply List.Forall_impl; [|exact Hlevel]. simpl. intros; lia.
  - rewrite <- (app_nil_r level) at 1. rewrite traverse_loop_expand.
    + pose proof (expand_level_steps _ _ Hlevel) as Hnext. simpl.
      destruct (expand_level all_transitions self level)
        as [[done next] [e|]]; [reflexivity|].
      simpl in *. rewrite IH; [reflexivity|].
      eapply List.Forall_impl; [|exact Hnext]. simpl. intros; lia.
    + eapply List.Forall_impl; [|exact Hlevel]. simpl. intros; lia.
Qed.
End TraverseOrder.

Section TraverseClaims.
Context {F : Type} `{Scalar F} {State : Type}.
Variable all_transitions : State -> list (Z * State).
Variable self : tiling F State.

(** C3.  For a depth [>= 0], [traverse] yields a finite sequence that
    starts with [(start, (), 0, domain)]; every record yielded has a step
    count between 0 and [depth]; the step counts never decrease along the
    sequence; every record but the first was appended while a record
    yielded before the depth bound was expanded; the sequence is the one
    obtained level by level, each level in the order in which its records
    were appended (breadth-first, first in first out); and for depth 0 the
    seed record alone is yielded, its shape unchanged. *)
Theorem traverse_breadth_first (depth : Z) (domain : list (vec F)) :
  (0 <= depth)%Z ->
  let seed : record F State := (start (dfa self), [], 0%Z, domain) in
  let out := (traverse all_transitions self depth domain).1 in
  (exists rest, out = seed :: rest) /\
  Forall (fun r => (0 <= rec_steps r <= depth)%Z) out /\
  StronglySorted step_le out /\
  (forall r, In r out ->
     r = seed \/
     exists p, In p out /\ (rec_steps p < depth)%Z /\
               successor_of all_transitions self p r) /\
  traverse all_transitions self depth domain =
    bfs_levels all_transitions self (Z.to_nat depth) [seed] /\
  (depth = 0%Z ->
   traverse all_transitions self depth domain = ([seed], None)).
Proof.
  intros Hdepth seed out. subst out. unfold traverse. fold seed.
  repeat split.
  - apply traverse_loop_head.
  - apply traverse_loop_Forall.
    + intros p r Hp Hlt Hs.
      destruct (successor_of_inv _ _ _ _ Hs) as (s & _ & Hr & _). lia.
    + constructor; [unfold seed, rec_steps; simpl; lia|constructor].
  - apply traverse_loop_sorted. split.
    + repeat constructor.
    + intros a b [<-|[]] [<-|[]]. lia.
  - intros r Hr.
    destruct (traverse_loop_parent _ _ _ _ _ Hr) as [[<-|[]]|Hp]; auto.
  - apply traverse_loop_levels. constructor; [|constructor].
    unfold seed, rec_steps. simpl. lia.
  - intros ->. apply traverse_loop_leaf. unfold seed, rec_steps. simpl. lia.
Qed.

(** C10.  In every record [(state, word, steps, shape)] yielded by
    [traverse] the word has [steps] symbols and [shape] is the seed face
    acted on by the word: for each symbol in order, the reflection indexed
    by it applied to every vertex. *)
Theorem traverse_word_action (depth : Z) (domain : list (vec F))
    (r : record F State) :
  In r (traverse all_transitions self depth domain).1 ->
  Z.of_nat (length (rec_word r)) = rec_steps r /\
  apply_word self (rec_word r) domain = Returns (rec_shape r).
Proof.
  revert r. apply List.Forall_forall. unfold traverse.
  apply traverse_loop_Forall.
  - intros p r [Hlen Hact] _ Hs.
    destruct (successor_of_inv _ _ _ _ Hs) as (s & Hw & Hst & Hsh).
    rewrite Hw, Hst, length_app. simpl. split; [lia|].
    revert Hact. generalize (rec_word p) domain.
    induction l as [|a w IH]; intros shape0; simpl.
    + intros [= ->]. now rewrite Hsh.
    + destruct (reflect_shape self a shape0); simpl; [apply IH|discriminate].
  - repeat constructor.
Qed.
End TraverseClaims.

Lemma traverse_breadth_first_witness :
  (0 <= 1)%Z /\
  exists rest,
    (traverse sample_transitions sample_tiling 1 [[0; 0; 1]%float]).1 =
    (0%nat, [], 0%Z, [[0; 0; 1]%float]) :: rest.
Proof.
  split; [lia|].
  exact (proj1 (traverse_breadth_first sample_transitions sample_tiling 1
                  [[0; 0; 1]%float] ltac:(lia))).
Defined.

Lemma traverse_word_action_witness :
  In (2%nat, [1%Z], 1%Z, [[0; -2; 1]%float])
     (traverse sample_transitions sample_tiling 1 [[0; 0; 1]%float]).1 /\
  Z.of_nat (length [1%Z]) = 1%Z /\
  apply_word sample_tiling [1%Z] [[0; 0; 1]%float] =
  Returns [[0; -2; 1]%float].
Proof.
  assert (Hin : In (2%nat, [1%Z], 1%Z, [[0; -2; 1]%float])
                   (traverse sample_transitions sample_tiling 1
                      [[0; 0; 1]%float]).1).
  { vm_compute. right. right. left. reflexivity. }
  split; [exact Hin|].
  exact (traverse_word_action sample_transitions sample_tiling 1
           [[0; 0; 1]%float] _ Hin).
Defined.

(** ** The fundamental faces *)

Section FaceProperties.
Context {F : Type} `{Scalar F} {State : Type}.

Lemma extend_faces_nil (self : tiling F State) : extend_faces self [] = self.
Proof. destruct self. unfold extend_faces. simpl. now rewrite app_nil_r. Qed.

Lemma extend_faces_app (self : tiling F State) (fs gs : list (list (vec F))) :
  extend_faces (extend_faces self fs) gs = extend_faces self (fs ++ gs).
Proof. unfold extend_faces. simpl. now rewrite app_assoc. Qed.

(** The faces built do not depend on the faces stored. *)
Lemma both_active_loop_extend (self : tiling F State) fs i j n f0 P Q :
  both_active_loop (extend_faces self fs) i j n f0 P Q =
  both_active_loop self i j n f0 P Q.
Proof.
  revert f0 P Q. induction n as [|n IH]; intros f0 P Q; simpl; [reflexivity|].
  change (reflect_twice (extend_faces self fs)) with (reflect_twice self).
  destruct (reflect_twice self i j P); simpl; [|reflexivity].
  destruct (reflect_twice self i j Q); simpl; [apply IH|reflexivity].
Qed.

Lemma one_active_loop_extend (self : tiling F State) fs a b n f0 P :
  one_active_loop (extend_faces self fs) a b n f0 P =
  one_active_loop self a b n f0 P.
Proof.
  revert f0 P. induction n as [|n IH]; intros f0 P; simpl; [reflexivity|].
  change (reflect_twice (extend_faces self fs)) with (reflect_twice self).
  destruct (reflect_twice self a b P); simpl; [apply IH|reflexivity].
Qed.

Lemma face_of_pair_extend (self : tiling F State) fs i j :
  face_of_pair (extend_faces self fs) i j = face_of_pair self i j.
Proof.
  unfold face_of_pair, order_gt_2, cox_entry. simpl.
  repeat match goal with
         | |- _ => rewrite both_active_loop_extend
         | |- _ => rewrite one_active_loop_extend
         | |- bind ?m _ = bind ?m _ => destruct m; simpl
         | |- (if ?b then _ else _) = (if ?b then _ else _) => destruct b
         | |- _ => reflexivity
         end.
Qed.

Lemma built_faces_extend (pairs : list (nat * nat)) (self : tiling F State) fs :
  built_faces pairs (extend_faces self fs) = built_faces pairs self.
Proof.
  induction pairs as [|[i j] pairs IH]; simpl; [reflexivity|].
  now rewrite face_of_pair_extend, IH.
Qed.

Lemma faces_loop_built (pairs : list (nat * nat)) (self : tiling F State) :
  faces_loop pairs self =
  ((built_faces pairs self).1, extend_faces self (built_faces pairs self).2).
Proof.
  revert self. induction pairs as [|[i j] pairs IH]; intros self; simpl.
  - now rewrite extend_faces_nil.
  - destruct (face_of_pair self i j) as [[f0|]|e]; simpl.
    + change (append_face self f0) with (extend_faces self [f0]).
      now rewrite IH, built_faces_extend, extend_faces_app.
    + apply IH.
    + now rewrite extend_faces_nil.
Qed.

(** C9, amended.  [get_fundamental_faces] keeps no cache: every call
    appends the faces it builds to the stored list.  There is a list
    [new], the same for both calls, such that the first call stores
    [faces ++ new] and a second call stores [faces ++ new ++ new]; both
    calls end the same way. *)
Theorem get_fundamental_faces_appends (self : tiling F State) :
  exists new : list (list (vec F)),
    let first := get_fundamental_faces self in
    let second := get_fundamental_faces first.2 in
    fundamental_faces first.2 = fundamental_faces self ++ new /\
    fundamental_faces second.2 = fundamental_faces self ++ new ++ new /\
    second.1 = first.1.
Proof.
  unfold get_fundamental_faces. generalize (combinations2 (seq 0 3)).
  intros pairs. exists (built_faces pairs self).2. cbv zeta.
  rewrite !faces_loop_built. cbn [fst snd]. rewrite !built_faces_extend.
  cbn [fundamental_faces extend_faces]. rewrite <- app_assoc. auto.
Qed.
End FaceProperties.

(** C9, as the claim states it, fails: on the sample instance the first
    build stores three faces and the second build stores them again. *)
Lemma second_build_duplicates_faces :
  let first := (get_fundamental_faces sample_tiling).2 in
  let second := (get_fundamental_faces first).2 in
  length (fundamental_faces first) = 3%nat /\
  length (fundamental_faces second) = 6%nat /\
  fundamental_faces second <> fundamental_faces first.
Proof.
  repeat split; try (vm_compute; reflexivity).
  intros E. apply (f_equal length) in E. vm_compute in E. discriminate E.
Qed.

(** ** Drawing *)

Section DrawProperties.
Context {F : Type} `{Scalar F} {State : Type}.
Variable all_transitions : State -> list (Z * State).

Lemma count_if_app {A} (p : A -> bool) (l1 l2 : list A) :
  count_if p (l1 ++ l2) = (count_if p l1 + count_if p l2)%nat.
Proof. unfold count_if. now rewrite List.filter_app, length_app. Qed.

Lemma count_if_none {A} (p : A -> bool) (l : list A) :
  Forall (fun x => p x = false) l -> count_if p l = 0%nat.
Proof.
  unfold count_if. induction 1 as [|x l Hx _ IH]; simpl; [reflexivity|].
  now rewrite Hx.
Qed.

Lemma count_if_cons {A} (p : A -> bool) (x : A) (l : list A) :
  count_if p (x :: l) = ((if p x then 1 else 0) + count_if p l)%nat.
Proof. unfold count_if. simpl. now destruct (p x). Qed.

Lemma count_if_nil {A} (p : A -> bool) : count_if p [] = 0%nat.
Proof. reflexivity. Qed.

Lemma count_line_to (p : cairo_op F -> bool) (l : list (F * F)) :
  (forall x y, p (LineTo x y) = false) ->
  count_if p (map (fun q => LineTo q.1 q.2) l) = 0%nat.
Proof.
  intros Hp. apply count_if_none. apply List.Forall_forall.
  intros op Hop. apply in_map_iff in Hop as (q & <- & _). apply Hp.
Qed.

Ltac count_ops :=
  unfold fill_balance;
  repeat (rewrite count_if_cons || rewrite count_if_app
          || rewrite count_if_nil || (rewrite count_line_to by reflexivity));
  simpl.

Lemma draw_shape_balance margin edge_color face_colors i shape :
  fill_balance face_colors (draw_shape margin edge_color face_colors i shape).1.
Proof.
  unfold draw_shape, dbind, lift, emit. simpl.
  destruct (for_each project_to_plane shape) as [pts|]; simpl.
  2: { destruct face_colors; reflexivity. }
  destruct (inset_corners pts margin) as [pts'|]; simpl.
  2: { destruct face_colors; reflexivity. }
  destruct (getitem pts' 0) as [p|]; simpl.
  2: { destruct face_colors; reflexivity. }
  destruct face_colors as [colors|]; [destruct (getitem colors i)|]; simpl;
    count_ops; reflexivity.
Qed.

Lemma fill_balance_app face_colors (t1 t2 : list (cairo_op F)) :
  fill_balance face_colors t1 -> fill_balance face_colors t2 ->
  fill_balance face_colors (t1 ++ t2).
Proof.
  unfold fill_balance. rewrite !count_if_app. intros -> ->.
  now destruct face_colors.
Qed.

Lemma dbind_balance {A B} face_colors (m : drawing F A) (k : A -> drawing F B) :
  fill_balance face_colors m.1 ->
  (forall a, fill_balance face_colors (k a).1) ->
  fill_balance face_colors (dbind m k).1.
Proof.
  intros Hm Hk. unfold dbind. destruct m.2; simpl; [|assumption].
  now apply fill_balance_app.
Qed.

Lemma draw_shapes_balance margin edge_color face_colors i (rs : list (record F State)) :
  fill_balance face_colors (draw_shapes margin edge_color face_colors i rs).1.
Proof.
  induction rs as [|r rs IH]; simpl.
  - now destruct face_colors.
  - apply dbind_balance; [apply draw_shape_balance|auto].
Qed.

Lemma draw_face_balance self depth margin edge_color face_colors i face :
  fill_balance face_colors
    (draw_face all_transitions self depth margin edge_color face_colors i face).1.
Proof.
  unfold draw_face. apply dbind_balance; [apply draw_shapes_balance|].
  intros _. destruct (traverse all_transitions self depth face).2;
    now destruct face_colors.
Qed.

Lemma draw_faces_balance self depth margin edge_color face_colors i faces :
  fill_balance face_colors
    (draw_faces all_transitions self depth margin edge_color face_colors i faces).1.
Proof.
  revert i. induction faces as [|face faces IH]; intros i; simpl.
  - now destruct face_colors.
  - apply dbind_balance; [apply draw_face_balance|auto].
Qed.

Lemma draw_with_balance self output w h extent depth lw margin edge_color face_colors :
  fill_balance face_colors
    (draw_with all_transitions self output w h extent depth lw margin
       edge_color face_colors).1.1.
Proof.
  unfold draw_with.
  match goal with |- context [match ?s.2 with _ => _ end] => set (setup := s) end.
  assert (Hsetup : fill_balance face_colors setup.1).
  { subst setup. unfold dbind, lift, emit. simpl.
    destruct (py_truediv (of_int h) extent); simpl;
      [destruct (py_truediv extent (of_int 2)); simpl|];
      count_ops; now destruct face_colors. }
  destruct setup.2 eqn:E; simpl; [|assumption].
  apply dbind_balance; [assumption|]. intros _.
  apply dbind_balance; [now destruct face_colors|]. intros _.
  apply dbind_balance; [apply draw_faces_balance|]. intros _.
  count_ops. now destruct face_colors.
Qed.

(** C8, amended.  Faces are drawn without fill exactly when [face_colors]
    is [None], which the caller has to pass: with [face_colors=None] the
    trace of [draw] holds no [fill_preserve]; with the argument left out
    [draw] behaves as with the list [[0x477984, 0xEEAA4D, 0xC03C44]]; and
    with a list every stroke issued comes with a fill. *)
Theorem draw_fill_policy (self : tiling F State) (output : string)
    (image_width image_height : Z) (extent : F) (depth : Z)
    (lw mg : option F) (ec : option Z) :
  let kw fc := {| line_width := lw; margin := mg; edge_color := ec;
                  face_colors := fc |} in
  let run fc := draw all_transitions self output image_width image_height
                  extent depth (kw fc) in
  count_if is_fill (run (Some None)).1.1 = 0%nat /\
  run None = run (Some (Some [0x477984; 0xEEAA4D; 0xC03C44]%Z)) /\
  forall colors,
    count_if is_fill (run (Some (Some colors))).1.1 =
    count_if is_stroke (run (Some (Some colors))).1.1.
Proof.
  intros kw run. subst run kw. unfold draw. cbn [face_colors default].
  repeat split.
  - apply (draw_with_balance self output image_width image_height extent
             depth _ _ _ None).
  - intros colors.
    apply (draw_with_balance self output image_width image_height extent
             depth _ _ _ (Some colors)).
Qed.
End DrawProperties.

(** C8, as the claim states it, fails: a render of the sample instance
    that leaves [face_colors] out fills each of the three faces it
    strokes. *)
Lemma omitted_face_colors_fills :
  let run := draw sample_transitions sample_tiling "244-110.png" 1200 960
               30%float 0 no_kwargs in
  run.1.2 = Returns tt /\
  count_if is_stroke run.1.1 = 3%nat /\
  count_if is_fill run.1.1 = 3%nat.
Proof. vm_compute. auto. Qed.

(** The second render of one instance meets six stored faces and the
    three default colours. *)
Lemma second_render_raises :
  let first := draw sample_transitions sample_tiling "244-110.png" 1200 960
                 30%float 0 no_kwargs in
  let second := draw sample_transitions first.2 "244-110.png" 1200 960
                  30%float 0 no_kwargs in
  length (fundamental_faces first.2) = 3%nat /\
  length (fundamental_faces second.2) = 6%nat /\
  second.1.2 = Raises IndexError.
Proof. vm_compute. auto. Qed.

(** ** Exact arithmetic *)

Section RealVectors.
Open Scope R_scope.

Lemma dot_acc_shift (acc : R) (v w : vec R) :
  dot_acc acc v w = acc + dot_acc 0 v w.
Proof.
  revert acc w. induction v as [|x v IH]; intros acc [|y w]; simpl; try lra.
  rewrite (IH (acc + x * y)), (IH (0 + x * y)). lra.
Qed.

Lemma dot_nil_l (w : vec R) : dot [] w = 0.
Proof. reflexivity. Qed.

Lemma dot_cons (x y : R) (v w : vec R) :
  dot (x :: v) (y :: w) = x * y + dot v w.
Proof. unfold dot. simpl. rewrite dot_acc_shift. lra. Qed.

Lemma dot_comm (v w : vec R) : dot v w = dot w v.
Proof.
  revert w. induction v as [|x v IH]; intros [|y w]; try reflexivity.
  rewrite !dot_cons, IH. lra.
Qed.

Lemma axpy_cons (s x y : R) (a v : vec R) :
  axpy s (y :: a) (x :: v) = (x - s * y) :: axpy s a v.
Proof. reflexivity. Qed.

Lemma length_axpy (s : R) (a v : vec R) :
  length a = length v -> length (axpy s a v) = length v.
Proof.
  revert a. induction v as [|x v IH]; intros [|y a] Hlen; simpl in *;
    try discriminate; auto.
Qed.

Lemma dot_axpy (s : R) (a v w : vec R) :
  length a = length v -> length w = length v ->
  dot (axpy s a v) w = dot v w - s * dot a w.
Proof.
  revert a w. induction v as [|x v IH]; intros [|y a] [|z w] Ha Hw;
    simpl in Ha, Hw; try discriminate.
  - unfold dot. simpl. lra.
  - rewrite axpy_cons, !dot_cons, IH by lia. lra.
Qed.

Lemma axpy_zero (s : R) (a v : vec R) :
  length a = length v -> s = 0 -> axpy s a v = v.
Proof.
  intros Hlen ->. revert a Hlen.
  induction v as [|x v IH]; intros [|y a] Hlen; simpl in Hlen;
    try discriminate; [reflexivity|].
  rewrite axpy_cons, IH by lia. f_equal. lra.
Qed.

Lemma axpy_axpy (s t : R) (a v : vec R) :
  length a = length v -> axpy s a (axpy t a v) = axpy (t + s) a v.
Proof.
  revert a. induction v as [|x v IH]; intros [|y a] Hlen; simpl in Hlen;
    try discriminate; [reflexivity|].
  rewrite !axpy_cons, IH by lia. f_equal. lra.
Qed.

Lemma axpy_swap (s t : R) (a b v : vec R) :
  length a = length v -> length b = length v ->
  axpy s a (axpy t b v) = axpy t b (axpy s a v).
Proof.
  revert a b. induction v as [|x v IH]; intros [|y a] [|z b] Ha Hb;
    simpl in Ha, Hb; try discriminate; [reflexivity|].
  rewrite !axpy_cons, IH by lia. f_equal. lra.
Qed.

(** A reflection in a unit normal is an involution. *)
Lemma mirror_image_involutive (v normal : vec R) (dist : R) :
  length normal = length v -> dot normal normal = 1 ->
  mirror_image (mirror_image v normal dist) normal dist = v.
Proof.
  intros Hlen Hunit. unfold mirror_image. cbn [of_int fadd fmul real].
  rewrite dot_axpy, Hunit by auto. rewrite axpy_axpy by auto.
  apply axpy_zero; [assumption|]. lra.
Qed.
End RealVectors.
Section RealMirrors.
Open Scope R_scope.

Lemma sqrt2_sqr : sqrt 2 * sqrt 2 = 2.
Proof. apply sqrt_sqrt. lra. Qed.

Lemma sqrt2_neq_0 : sqrt 2 <> 0.
Proof. pose proof (sqrt_lt_R0 2). lra. Qed.

Lemma inv_sqrt2 : 1 / sqrt 2 = sqrt 2 / 2.
Proof.
  pose proof sqrt2_sqr. pose proof sqrt2_neq_0.
  apply Rmult_eq_reg_r with (sqrt 2); [|assumption].
  field_simplify; [|assumption]. nra.
Qed.

Lemma get_mirrors_244 :
  get_mirrors [[1; 2; 4]; [2; 1; 4]; [4; 4; 1]]%Z = Returns mirrors_244.
Proof.
  change (get_mirrors [[1; 2; 4]; [2; 1; 4]; [4; 4; 1]]%Z) with
    (Returns
       [[1; 0; 0];
        [- cos (PI / 2); sqrt (1 - - cos (PI / 2) * - cos (PI / 2)); 0];
        [- cos (PI / 4);
         (- cos (PI / 4) - - cos (PI / 4) * - cos (PI / 2))
         / sqrt (1 - - cos (PI / 2) * - cos (PI / 2));
         sqrt (Rabs (- cos (PI / 4) * - cos (PI / 4)
                     + (- cos (PI / 4) - - cos (PI / 4) * - cos (PI / 2))
                       / sqrt (1 - - cos (PI / 2) * - cos (PI / 2))
                       * ((- cos (PI / 4) - - cos (PI / 4) * - cos (PI / 2))
                          / sqrt (1 - - cos (PI / 2) * - cos (PI / 2)))
                     - 1))]]).
  rewrite cos_PI2, cos_PI4.
  replace (1 - - 0 * - 0) with 1 by lra. rewrite sqrt_1.
  unfold mirrors_244. rewrite inv_sqrt2.
  replace (_ / 1) with (- (sqrt 2 / 2)) by lra.
  replace (_ - 1) with 0 by (pose proof sqrt2_sqr; nra).
  rewrite Rabs_R0, sqrt_0. repeat f_equal; lra.
Qed.
End RealMirrors.

Section RealReflections.
Open Scope R_scope.

Lemma dot3 (x y z x' y' z' : R) :
  dot [x; y; z] [x'; y'; z'] = x * x' + y * y' + z * z'.
Proof. rewrite !dot_cons, dot_nil_l. lra. Qed.

(** With a true cosine the first radicand is never negative. *)
Lemma first_radicand_nonnegative (a10 : Z) :
  let c10 : R := cosine_of a10 in
  0 <= 1 - c10 * c10.
Proof.
  intros c10. subst c10. unfold cosine_of. cbn [fneg np_cos real real_trig].
  match goal with |- context [cos ?x] => pose proof (COS_bound x) end. nra.
Qed.

(** Rows 0 and 1 of the solved matrix always have length 1; row 2 has
    length 1 when the last radicand is not positive, which is the case of
    the Euclidean (and spherical) triangle groups. *)
Lemma solved_mirrors_unit (a00 a01 a02 a10 a11 a12 a20 a21 a22 : Z) :
  let c10 : R := cosine_of a10 in
  let c20 : R := cosine_of a20 in
  let c21 : R := cosine_of a21 in
  let m21 := (c21 - c20 * c10) / sqrt (1 - c10 * c10) in
  c20 * c20 + m21 * m21 - 1 <= 0 ->
  exists M : matrix R,
    get_mirrors [[a00; a01; a02]; [a10; a11; a12]; [a20; a21; a22]] = Returns M /\
    Forall (fun n => dot n n = 1) M.
Proof.
  intros c10 c20 c21 m21 Hrad.
  exists [[1; 0; 0]; [c10; sqrt (1 - c10 * c10); 0];
          [c20; m21; sqrt (Rabs (c20 * c20 + m21 * m21 - 1))]].
  split; [reflexivity|].
  repeat constructor; rewrite dot3.
  - lra.
  - rewrite sqrt_sqrt; [lra|]. apply first_radicand_nonnegative.
  - rewrite sqrt_sqrt by apply Rabs_pos. rewrite Rabs_left1 by assumption. lra.
Qed.

(** C5, amended.  In exact arithmetic the operator built from a mirror
    row of unit length and its distance is an involution: applied twice
    to a point of the dimension of the normal it returns the point. *)
Theorem reflections_involutive (mirrors : matrix R) (init_dist : list R)
    (k : nat) (normal : vec R) (dist : R) (v : vec R) :
  mirrors !! k = Some normal -> init_dist !! k = Some dist ->
  dot normal normal = 1 -> length v = length normal ->
  exists (Rk : vec R -> outcome (vec R)) (w : vec R),
    get_reflections mirrors init_dist !! k = Some Rk /\
    Rk v = Returns w /\ Rk w = Returns v.
Proof.
  intros Hn Hd Hunit Hlen.
  exists (fun v => reflect v normal dist), (mirror_image v normal dist).
  split; [now apply get_reflections_lookup|].
  split; [now apply reflect_returns|].
  rewrite reflect_returns.
  - now rewrite mirror_image_involutive.
  - unfold mirror_image. now rewrite length_axpy.
Qed.

Lemma reflections_involutive_witness :
  get_mirrors [[1; 2; 4]; [2; 1; 4]; [4; 4; 1]]%Z = Returns mirrors_244 /\
  mirrors_244 !! 2%nat = Some [- (1 / sqrt 2); - (1 / sqrt 2); 0] /\
  [1; 1; 0] !! 2%nat = Some 0 /\
  dot [- (1 / sqrt 2); - (1 / sqrt 2); 0] [- (1 / sqrt 2); - (1 / sqrt 2); 0] = 1 /\
  length [1; 0; 1] = length [- (1 / sqrt 2); - (1 / sqrt 2); 0] /\
  mirror_image [1; 0; 1] [- (1 / sqrt 2); - (1 / sqrt 2); 0] 0 = [0; -1; 1] /\
  exists (Rk : vec R -> outcome (vec R)) (w : vec R),
    get_reflections mirrors_244 [1; 1; 0] !! 2%nat = Some Rk /\
    Rk [1; 0; 1] = Returns w /\ Rk w = Returns [1; 0; 1].
Proof.
  assert (Hunit : dot [- (1 / sqrt 2); - (1 / sqrt 2); 0]
                      [- (1 / sqrt 2); - (1 / sqrt 2); 0] = 1).
  { rewrite dot3, inv_sqrt2. pose proof sqrt2_sqr. nra. }
  split; [exact get_mirrors_244|].
  split; [reflexivity|]. split; [reflexivity|].
  split; [exact Hunit|]. split; [reflexivity|]. split.
  - unfold mirror_image, axpy. rewrite dot3, inv_sqrt2.
    cbn [zip_with of_int fadd fsub fmul real]. pose proof sqrt2_sqr.
    repeat f_equal; nra.
  - exact (reflections_involutive mirrors_244 [1; 1; 0] 2
             [- (1 / sqrt 2); - (1 / sqrt 2); 0] 0 [1; 0; 1]
             eq_refl eq_refl Hunit eq_refl).
Defined.
End RealReflections.

(** C5, as the claim states it, fails in the arithmetic of the program.
    The first row of every solved matrix is [(1, 0, 0)], of length 1 in
    binary64 too.  With the distance 1.2 its operator sends the point
    [(0.1, 0.2, 1)] to [(-2.5, 0.2, 1)] and that point to
    [(0.10000000000000009, 0.2, 1)]: the sum [0.1 + 1.2] is rounded.  The
    products and the sum of the dot product are exact here, in any
    order. *)
Lemma reflection_twice_inexact :
  let v := [0x1.999999999999ap-4; 0x1.999999999999ap-3; 1]%float in
  let init_dist := [0x1.3333333333333p+0; 1; 0x1.999999999999ap-1]%float in
  sample_mirrors !! 0%nat = Some [1; 0; 0]%float /\
  dot [1; 0; 0]%float [1; 0; 0]%float = 1%float /\
  exists R0 : vec float -> outcome (vec float),
    get_reflections sample_mirrors init_dist !! 0%nat = Some R0 /\
    R0 v = Returns [-0x1.4p+1; 0x1.999999999999ap-3; 1]%float /\
    R0 [-0x1.4p+1; 0x1.999999999999ap-3; 1]%float =
      Returns [0x1.99999999999a0p-4; 0x1.999999999999ap-3; 1]%float /\
    [0x1.99999999999a0p-4; 0x1.999999999999ap-3; 1]%float <> v.
Proof.
  cbv zeta. split; [reflexivity|]. split; [vm_compute; reflexivity|].
  eexists. split; [reflexivity|].
  split; [vm_compute; reflexivity|]. split; [vm_compute; reflexivity|].
  intros E.
  apply (f_equal (fun l => match l with
                           | x :: _ => PrimFloat.eqb x 0x1.999999999999ap-4
                           | [] => true
                           end)) in E.
  vm_compute in E. discriminate E.
Qed.

(** ** The face of two active mirrors *)

Section BothActive.
Context {F : Type} `{Scalar F} {State : Type}.
Variable self : tiling F State.
Variables (i j : nat) (a b : vec F) (alpha beta : F).
Hypothesis Hi : reflections self !! i = Some (fun v => reflect v a alpha).
Hypothesis Hj : reflections self !! j = Some (fun v => reflect v b beta).
Hypothesis Hab : length a = length b.

Abbreviation rot := (rotation a b alpha beta).

Lemma length_rotation (v : vec F) :
  length v = length a -> length (rot v) = length a.
Proof.
  intros Hv. unfold rotation.
  rewrite !length_mirror_image; rewrite ?length_mirror_image; congruence.
Qed.

Lemma length_iter_rotation (k : nat) (v : vec F) :
  length v = length a -> length (Nat.iter k rot v) = length a.
Proof.
  intros Hv. induction k as [|k IH]; simpl; [assumption|].
  now apply length_rotation.
Qed.

Lemma reflect_twice_returns (v : vec F) :
  length v = length a -> reflect_twice self i j v = Returns (rot v).
Proof.
  intros Hv. unfold reflect_twice, getitem. rewrite Hi, Hj. simpl.
  rewrite reflect_returns by assumption. simpl.
  apply reflect_returns. rewrite length_mirror_image; congruence.
Qed.

Lemma both_active_loop_returns (n : nat) (f0 : list (vec F)) (P Q : vec F) :
  length P = length a -> length Q = length a ->
  both_active_loop self i j n f0 P Q =
  Returns (f0 ++ interleave_orbit rot n P Q).
Proof.
  revert f0 P Q. induction n as [|n IH]; intros f0 P Q HP HQ; simpl.
  - now rewrite app_nil_r.
  - rewrite !reflect_twice_returns by assumption. simpl.
    rewrite IH by now apply length_rotation.
    now rewrite <- !app_assoc.
Qed.

Lemma face_of_pair_both_active (n : Z) :
  active self !! i = Some true -> active self !! j = Some true ->
  cox_entry self i j = Returns n ->
  length (init_v self) = length a ->
  face_of_pair self i j =
  Returns (Some (interleave_orbit rot (Z.to_nat n) (init_v self)
                   (mirror_image (init_v self) b beta))).
Proof.
  intros Hai Haj Hn HP. unfold face_of_pair, and_then, getitem.
  rewrite Hai, Haj, Hj. simpl.
  rewrite reflect_returns by congruence. simpl. rewrite Hn. simpl.
  rewrite both_active_loop_returns; [reflexivity|assumption|].
  rewrite length_mirror_image; congruence.
Qed.
End BothActive.

Section Orbits.
Context {A : Type}.
Variable T : A -> A.

Lemma length_interleave_orbit (n : nat) (P Q : A) :
  length (interleave_orbit T n P Q) = (2 * n)%nat.
Proof.
  revert P Q. induction n as [|n IH]; intros P Q; simpl; [reflexivity|].
  rewrite IH. lia.
Qed.

Lemma last_interleave_orbit (n : nat) (P Q : A) :
  last (interleave_orbit T (S n) P Q) = Some (Nat.iter n T Q).
Proof.
  revert P Q. induction n as [|n IH]; intros P Q; [reflexivity|].
  change (interleave_orbit T (S (S n)) P Q)
    with (P :: Q :: interleave_orbit T (S n) (T P) (T Q)).
  rewrite Nat.iter_succ_r, <- (IH (T P) (T Q)). reflexivity.
Qed.

Lemma lookup_interleave_orbit (n k : nat) (P Q : A) :
  (k < n)%nat ->
  interleave_orbit T n P Q !! (2 * k)%nat = Some (Nat.iter k T P) /\
  interleave_orbit T n P Q !! (2 * k + 1)%nat = Some (Nat.iter k T Q).
Proof.
  revert k P Q. induction n as [|n IH]; intros k P Q Hk; [lia|].
  destruct k as [|k]; [split; reflexivity|].
  replace (2 * S k)%nat with (S (S (2 * k))) by lia.
  rewrite !Nat.iter_succ_r. simpl. apply IH. lia.
Qed.
End Orbits.

(** ** The dihedral relation in exact arithmetic *)

Section Coefficients.
Open Scope R_scope.

(** The coefficients in closed form, in terms of the multiples of the
    angle between the mirrors. *)
Lemma coefficients_closed_form (theta s0 t0 : R) (k : nat) :
  let c := cos theta in
  let sg := sin theta in
  let ck := cos (INR k * theta) in
  let sk := sin (INR k * theta) in
  let '(s, t, x, y) := Nat.iter k (coef_step c) (s0, t0, 0, 0) in
  sg * s = (2 * sk * ck * c + (ck * ck - sk * sk) * sg) * s0
           + 2 * sk * ck * t0 /\
  sg * t = - (2 * sk * ck) * s0
           - (2 * sk * ck * c - (ck * ck - sk * sk) * sg) * t0 /\
  sg * sg * x = 2 * (sk * sk * s0 + sk * (sk * c - ck * sg) * t0) /\
  sg * sg * y = 2 * (sk * (sk * c + ck * sg) * s0 + sk * sk * t0).
Proof.
  induction k as [|k IH].
  - simpl. rewrite Rmult_0_l, cos_0, sin_0. repeat split; ring.
  - cbv zeta in *.
    replace (INR (S k) * theta) with (INR k * theta + theta)
      by (rewrite S_INR; ring).
    rewrite cos_plus, sin_plus. simpl Nat.iter.
    destruct (Nat.iter k (coef_step (cos theta)) (s0, t0, 0, 0))
      as [[[s t] x] y].
    destruct IH as (Hs & Ht & Hx & Hy).
    pose proof (sin2_cos2 theta) as H1.
    pose proof (sin2_cos2 (INR k * theta)) as H2.
    unfold Rsqr in H1, H2.
    generalize dependent (cos (INR k * theta)).
    generalize dependent (sin (INR k * theta)).
    generalize dependent (cos theta). generalize dependent (sin theta).
    intros sg c H1 sk ck Hs Ht Hx Hy H2. unfold coef_step.
    repeat split; nsatz.
Qed.

End Coefficients.

Section Dihedral.
Open Scope R_scope.
Variables (a b : vec R) (alpha beta theta : R).
Hypothesis Hab : length a = length b.
Hypothesis Haa : dot a a = 1.
Hypothesis Hbb : dot b b = 1.
Hypothesis Hangle : dot a b = - cos theta.

Abbreviation T := (rotation a b alpha beta).

Lemma rotation_axpy (v : vec R) :
  length v = length a ->
  let s := dot v a + alpha in
  let t := dot v b + beta in
  T v = axpy (2 * (t + 2 * cos theta * s)) b (axpy (2 * s) a v).
Proof.
  intros Hv s t. unfold rotation, mirror_image.
  cbn [of_int fadd fmul real].
  rewrite dot_axpy, Hangle by congruence.
  f_equal. subst s t. lra.
Qed.

Lemma orbit_coefficients (P : vec R) (k : nat) :
  length P = length a ->
  let '(s, t, x, y) :=
    Nat.iter k (coef_step (cos theta))
      (dot P a + alpha, dot P b + beta, 0, 0) in
  Nat.iter k T P = axpy y b (axpy x a P) /\
  s = dot (Nat.iter k T P) a + alpha /\
  t = dot (Nat.iter k T P) b + beta.
Proof.
  intros HP. induction k as [|k IH].
  - simpl. repeat rewrite axpy_zero; auto; congruence.
  - simpl Nat.iter.
    destruct (Nat.iter k (coef_step (cos theta))
                (dot P a + alpha, dot P b + beta, 0, 0)) as [[[s t] x] y].
    destruct IH as (Hv & Hs & Ht).
    assert (Hlen : length (Nat.iter k T P) = length a).
    { rewrite Hv. repeat rewrite length_axpy; congruence. }
    unfold coef_step. rewrite rotation_axpy by assumption.
    rewrite <- Hs, <- Ht. repeat split.
    + rewrite Hv.
      rewrite (axpy_swap (2 * s) y a b) by (repeat rewrite length_axpy; congruence).
      rewrite !axpy_axpy by (repeat rewrite length_axpy; congruence).
      reflexivity.
    + rewrite !dot_axpy by (repeat rewrite length_axpy; congruence).
      rewrite (dot_comm b a), Haa, Hangle. lra.
    + rewrite !dot_axpy by (repeat rewrite length_axpy; congruence).
      rewrite Hbb, Hangle. lra.
Qed.

(** Mirrors at the angle [pi / n] generate a rotation of order [n]. *)
Lemma rotation_order (n : nat) (P : vec R) :
  (2 <= n)%nat -> theta = PI / INR n -> length P = length a ->
  Nat.iter n T P = P.
Proof.
  intros Hn Htheta HP.
  pose proof (orbit_coefficients P n HP) as Horbit.
  pose proof (coefficients_closed_form theta (dot P a + alpha)
                (dot P b + beta) n) as Hclosed.
  cbv zeta in Hclosed.
  destruct (Nat.iter n (coef_step (cos theta))
              (dot P a + alpha, dot P b + beta, 0, 0)) as [[[s t] x] y].
  destruct Horbit as (Hv & _ & _). destruct Hclosed as (_ & _ & Hx & Hy).
  assert (Hn0 : 0 < INR n) by (apply lt_0_INR; lia).
  assert (Hn2 : 2 <= INR n) by (change 2 with (INR 2); apply le_INR; lia).
  assert (Hpi : INR n * theta = PI) by (rewrite Htheta; field; lra).
  rewrite Hpi, sin_PI in Hx, Hy.
  assert (Hsg : 0 < sin theta).
  { pose proof PI_RGT_0. apply sin_gt_0; rewrite Htheta.
    - apply Rdiv_lt_0_compat; lra.
    - apply Rmult_lt_reg_r with (INR n); [assumption|].
      field_simplify; [|lra]. nra. }
  assert (Hx0 : x = 0).
  { apply Rmult_eq_reg_l with (sin theta * sin theta); [rewrite Hx; ring|nra]. }
  assert (Hy0 : y = 0).
  { apply Rmult_eq_reg_l with (sin theta * sin theta); [rewrite Hy; ring|nra]. }
  rewrite Hv. repeat rewrite axpy_zero; auto; congruence.
Qed.
End Dihedral.

Section BothActiveExact.
Open Scope R_scope.
Context {State : Type}.

(** C2, amended.  For two active mirrors [i] and [j] whose reflections
    are those of two normals of the dimension of [init_v], whatever the
    arithmetic, the face built for the pair is the list of [2 * n]
    vertices, [n = cox_mat[i][j]], produced from [P = init_v] and
    [Q = reflect_j(P)] by appending [P] and [Q] and advancing both by
    [reflect_j after reflect_i], [n] times.  In exact arithmetic, when the
    normals have unit length and meet at the angle [pi / n], [n >= 2],
    the polygon closes through mirror [i]: [reflect_i] sends the last
    vertex to the first one, and [reflect_i] followed by [reflect_j] sends
    the last vertex to the second one, [Q], and the last vertex but one to
    the first. *)
Theorem both_active_face_closes :
  (forall (F : Type) (SF : Scalar F) (State : Type) (self : tiling F State)
          (i j : nat) (a b : vec F) (alpha beta : F) (n : Z),
     active self !! i = Some true -> active self !! j = Some true ->
     cox_entry self i j = Returns n ->
     reflections self !! i = Some (fun v => reflect v a alpha) ->
     reflections self !! j = Some (fun v => reflect v b beta) ->
     length a = length (init_v self) -> length b = length (init_v self) ->
     exists f0 : list (vec F),
       face_of_pair self i j = Returns (Some f0) /\
       f0 = interleave_orbit (rotation a b alpha beta) (Z.to_nat n)
              (init_v self) (mirror_image (init_v self) b beta) /\
       length f0 = (2 * Z.to_nat n)%nat) /\
  (forall (State : Type) (self : tiling R State) (i j : nat)
          (a b : vec R) (alpha beta : R) (n : Z),
     active self !! i = Some true -> active self !! j = Some true ->
     cox_entry self i j = Returns n -> (2 <= n)%Z ->
     reflections self !! i = Some (fun v => reflect v a alpha) ->
     reflections self !! j = Some (fun v => reflect v b beta) ->
     length a = length (init_v self) -> length b = length (init_v self) ->
     dot a a = 1 -> dot b b = 1 -> dot a b = - cos (PI / IZR n) ->
     let P := init_v self in
     let Q := mirror_image P b beta in
     exists (f0 : list (vec R)) (lastv : vec R),
       face_of_pair self i j = Returns (Some f0) /\
       f0 = interleave_orbit (rotation a b alpha beta) (Z.to_nat n) P Q /\
       length f0 = (2 * Z.to_nat n)%nat /\
       last f0 = Some lastv /\
       reflect lastv a alpha = Returns P /\
       reflect_twice self i j lastv = Returns Q /\
       exists before_last : vec R,
         f0 !! (2 * Z.to_nat n - 2)%nat = Some before_last /\
         reflect_twice self i j before_last = Returns P).
Proof.
  split.
  { intros F SF State0 self i j a b alpha beta n Hai Haj Hn Hi Hj Ha Hb.
    eexists. split; [|split; [reflexivity|apply length_interleave_orbit]].
    apply (face_of_pair_both_active self i j a b alpha beta); auto;
      congruence. }
  intros State0 self i j a b alpha beta n.
  intros Hai Haj Hn Hn2 Hi Hj Ha Hb Haa Hbb Hangle P Q.
  assert (Hab : length a = length b) by congruence.
  assert (HP : length P = length a) by (subst P; congruence).
  destruct (Z.to_nat n) as [|m] eqn:Hm; [lia|].
  assert (Horder : forall v, length v = length a ->
                             Nat.iter (S m) (rotation a b alpha beta) v = v).
  { intros v Hv.
    apply (rotation_order a b alpha beta (PI / IZR n)); auto; [lia|].
    rewrite INR_IZR_INZ, <- Hm, Z2Nat.id by lia. reflexivity. }
  assert (Hlast : Nat.iter m (rotation a b alpha beta) Q = mirror_image P a alpha).
  { assert (HQ : Q = rotation a b alpha beta (mirror_image P a alpha)).
    { unfold rotation. now rewrite mirror_image_involutive. }
    rewrite HQ, <- Nat.iter_succ_r.
    apply Horder. rewrite length_mirror_image; congruence. }
  exists (interleave_orbit (rotation a b alpha beta) (S m) P Q),
         (mirror_image P a alpha).
  split; [|split; [reflexivity|split; [|split; [|split; [|split]]]]].
  - rewrite <- Hm.
    apply (face_of_pair_both_active self i j a b alpha beta); auto.
  - apply length_interleave_orbit.
  - now rewrite last_interleave_orbit, Hlast.
  - rewrite reflect_returns by (rewrite length_mirror_image; congruence).
    now rewrite mirror_image_involutive.
  - rewrite (reflect_twice_returns self i j a b alpha beta) by
      (auto; rewrite length_mirror_image; congruence).
    unfold rotation. now rewrite mirror_image_involutive.
  - exists (Nat.iter m (rotation a b alpha beta) P). split.
    + replace (2 * S m - 2)%nat with (2 * m)%nat by lia.
      apply lookup_interleave_orbit. lia.
    + rewrite (reflect_twice_returns self i j a b alpha beta); auto.
      * f_equal. now apply Horder.
      * now apply length_iter_rotation.
Qed.
End BothActiveExact.

Section SampleFace.
Open Scope R_scope.

Lemma mirror_image3 (x y z a1 a2 a3 d : R) :
  mirror_image [x; y; z] [a1; a2; a3] d =
  [x - 2 * (x * a1 + y * a2 + z * a3 + d) * a1;
   y - 2 * (x * a1 + y * a2 + z * a3 + d) * a2;
   z - 2 * (x * a1 + y * a2 + z * a3 + d) * a3].
Proof. unfold mirror_image, axpy. rewrite dot3. reflexivity. Qed.

Lemma sample_reflections :
  reflections sample_tiling_exact !! 0%nat = Some (fun v => reflect v [1; 0; 0] 1) /\
  reflections sample_tiling_exact !! 1%nat = Some (fun v => reflect v [0; 1; 0] 1).
Proof. split; reflexivity. Qed.

Lemma sample_face_01 :
  face_of_pair sample_tiling_exact 0 1 =
  Returns (Some [[0; 0; 1]; [0; -2; 1]; [-2; -2; 1]; [-2; 0; 1]]).
Proof.
  destruct sample_reflections as [H0 H1].
  rewrite (face_of_pair_both_active sample_tiling_exact 0 1
             [1; 0; 0] [0; 1; 0] 1 1 H0 H1 eq_refl 2) by reflexivity.
  change (Z.to_nat 2) with 2%nat.
  cbn [interleave_orbit init_v sample_tiling_exact].
  unfold rotation. rewrite !mirror_image3.
  repeat f_equal; lra.
Qed.

(** C2, as the claim states it, fails: on the face of the mirrors 0 and 1
    of the sample instance, [reflect_0] followed by [reflect_1] sends the
    last vertex [(-2, 0, 1)] to the second vertex [(0, -2, 1)], not to the
    first one, [(0, 0, 1)]. *)
Lemma closure_reaches_second_vertex :
  face_of_pair sample_tiling_exact 0 1 =
    Returns (Some [[0; 0; 1]; [0; -2; 1]; [-2; -2; 1]; [-2; 0; 1]]) /\
  reflect_twice sample_tiling_exact 0 1 [-2; 0; 1] = Returns [0; -2; 1] /\
  [0; -2; 1] <> [0; 0; 1].
Proof.
  destruct sample_reflections as [H0 H1].
  split; [exact sample_face_01|]. split.
  - rewrite (reflect_twice_returns sample_tiling_exact 0 1
               [1; 0; 0] [0; 1; 0] 1 1 H0 H1 eq_refl) by reflexivity.
    unfold rotation. rewrite !mirror_image3. repeat f_equal; lra.
  - intros [= E]. lra.
Qed.

(** In binary64 the closure is approximate.  On the face of the mirrors
    0 and 1 of an instance with the distances (1.2, 1.0, 0.8) and the
    initial point (0.1, 0.2, 1), whose normals are (1, 0, 0) and
    (0, 1, 0) so that every dot product is exact, [reflect_0] sends the
    last vertex to [(0.10000000000000009, 0.19999999999999973, 1)]. *)
Lemma closure_inexact_in_binary64 :
  exists (f0 : list (vec float)) (lastv back : vec float),
    face_of_pair sample_tiling_rounded 0 1 = Returns (Some f0) /\
    length f0 = 4%nat /\
    last f0 = Some lastv /\
    reflect lastv [1; 0; 0]%float 0x1.3333333333333p+0%float = Returns back /\
    back <> init_v sample_tiling_rounded.
Proof.
  do 3 eexists. split; [vm_compute; reflexivity|].
  split; [reflexivity|]. split; [reflexivity|].
  split; [vm_compute; reflexivity|].
  intros E.
  apply (f_equal (fun l => match l with
                           | x :: _ => PrimFloat.eqb x 0x1.999999999999ap-4
                           | [] => true
                           end)) in E.
  vm_compute in E. discriminate E.
Qed.

Lemma both_active_face_closes_witness :
  active sample_tiling_exact !! 0%nat = Some true /\
  active sample_tiling_exact !! 1%nat = Some true /\
  cox_entry sample_tiling_exact 0 1 = Returns 2%Z /\
  (2 <= 2)%Z /\
  length [1; 0; 0] = length (init_v sample_tiling_exact) /\
  length [0; 1; 0] = length (init_v sample_tiling_exact) /\
  dot [1; 0; 0] [1; 0; 0] = 1 /\
  dot [0; 1; 0] [0; 1; 0] = 1 /\
  dot [1; 0; 0] [0; 1; 0] = - cos (PI / 2) /\
  (exists (f0 : list (vec R)) (lastv : vec R),
     face_of_pair sample_tiling_exact 0 1 = Returns (Some f0) /\
     length f0 = 4%nat /\
     last f0 = Some lastv /\
     reflect lastv [1; 0; 0] 1 = Returns [0; 0; 1]) /\
  (exists f0 : list (vec float),
     face_of_pair sample_tiling 0 1 = Returns (Some f0) /\
     length f0 = 4%nat).
Proof.
  destruct sample_reflections as [H0 H1].
  assert (Ha : dot [1; 0; 0] [1; 0; 0] = 1) by (rewrite dot3; lra).
  assert (Hb : dot [0; 1; 0] [0; 1; 0] = 1) by (rewrite dot3; lra).
  assert (Hc : dot [1; 0; 0] [0; 1; 0] = - cos (PI / 2))
    by (rewrite cos_PI2, dot3; lra).
  repeat (split; [first [reflexivity | lia | assumption]|]).
  split.
  - destruct (proj2 both_active_face_closes nat sample_tiling_exact
                0%nat 1%nat [1; 0; 0] [0; 1; 0] 1 1 2%Z
                eq_refl eq_refl eq_refl ltac:(lia) H0 H1 eq_refl eq_refl
                Ha Hb Hc)
      as (f0 & lastv & Hface & _ & Hlen & Hlast & Hclose & _).
    exists f0, lastv. auto.
  - destruct (proj1 both_active_face_closes float float64 nat sample_tiling
                0%nat 1%nat [1; 0; 0]%float [0; 1; 0]%float 1%float 1%float
                2%Z
                eq_refl eq_refl eq_refl eq_refl eq_refl eq_refl eq_refl)
      as (f0 & Hface & _ & Hlen).
    exists f0. auto.
Defined.
End SampleFace.

(** * Further properties of the code *)

(** ** Reflections in exact arithmetic *)

Section ReflectionGeometry.
Open Scope R_scope.

Lemma length_vsub (v w : vec R) :
  length w = length v -> length (vsub v w) = length v.
Proof. intros Hw. unfold vsub. rewrite length_zip_with. lia. Qed.

Lemma dot_vsub (v w n : vec R) :
  length w = length v -> length n = length v ->
  dot (vsub v w) n = dot v n - dot w n.
Proof.
  revert w n. induction v as [|x v IH]; intros [|y w] [|z n] Hw Hn;
    simpl in Hw, Hn; try discriminate.
  - unfold dot. simpl. lra.
  - unfold vsub. cbn [zip_with]. fold (vsub v w).
    rewrite !dot_cons, IH by lia. lra.
Qed.

Lemma vsub_axpy (s t : R) (n v w : vec R) :
  length w = length v -> length n = length v ->
  vsub (axpy s n v) (axpy t n w) = axpy (s - t) n (vsub v w).
Proof.
  revert w n. induction v as [|x v IH]; intros [|y w] [|z n] Hw Hn;
    simpl in Hw, Hn; try discriminate; [reflexivity|].
  unfold vsub, axpy in *. cbn [zip_with]. rewrite IH by lia.
  f_equal. cbn [fsub fmul real]. lra.
Qed.

(** X1.  A reflection leaves the points of its mirror where they are,
    and, when the normal has unit length, sends a point to the opposite
    signed distance from the mirror. *)
Theorem reflection_fixes_mirror (v normal : vec R) (dist : R) :
  length v = length normal ->
  exists w : vec R,
    reflect v normal dist = Returns w /\
    (dot v normal + dist = 0 -> w = v) /\
    (dot normal normal = 1 ->
     dot w normal + dist = - (dot v normal + dist)).
Proof.
  intros Hlen. exists (mirror_image v normal dist).
  split; [now apply reflect_returns|]. unfold mirror_image.
  cbn [of_int fadd fmul real]. split.
  - intros Hon. apply axpy_zero; [congruence|]. rewrite Hon. lra.
  - intros Hunit. rewrite dot_axpy, Hunit by congruence. lra.
Qed.

Lemma reflection_fixes_mirror_witness :
  length [0; 0; 1] = length [0; 1; 0] /\
  exists w : vec R,
    reflect [0; 0; 1] [0; 1; 0] 1 = Returns w /\
    (dot [0; 0; 1] [0; 1; 0] + 1 = 0 -> w = [0; 0; 1]) /\
    (dot [0; 1; 0] [0; 1; 0] = 1 ->
     dot w [0; 1; 0] + 1 = - (dot [0; 0; 1] [0; 1; 0] + 1)).
Proof.
  split; [reflexivity|].
  exact (reflection_fixes_mirror [0; 0; 1] [0; 1; 0] 1 eq_refl).
Defined.

Lemma mirror_image_sqdist (v w normal : vec R) (dist : R) :
  length v = length normal -> length w = length normal ->
  dot normal normal = 1 ->
  sqdist (mirror_image v normal dist) (mirror_image w normal dist) =
  sqdist v w.
Proof.
  intros Hv Hw Hunit.
  unfold sqdist, mirror_image. cbn [of_int fadd fmul real].
  rewrite vsub_axpy by congruence.
  assert (Hu : length (vsub v w) = length normal)
    by (rewrite length_vsub; congruence).
  set (u := vsub v w) in *.
  rewrite dot_axpy by (rewrite ?length_axpy; congruence).
  rewrite (dot_comm u (axpy _ normal u)), (dot_comm normal (axpy _ normal u)).
  rewrite !dot_axpy by congruence.
  rewrite Hunit, (dot_comm normal u).
  replace (dot v normal) with (dot u normal + dot w normal)
    by (subst u; rewrite dot_vsub by congruence; lra).
  lra.
Qed.

(** X2.  A reflection in a unit normal keeps the distance between any two
    points. *)
Theorem reflection_isometry (v w normal : vec R) (dist : R) :
  length v = length normal -> length w = length normal ->
  dot normal normal = 1 ->
  exists v' w' : vec R,
    reflect v normal dist = Returns v' /\
    reflect w normal dist = Returns w' /\
    sqdist v' w' = sqdist v w.
Proof.
  intros Hv Hw Hunit.
  exists (mirror_image v normal dist), (mirror_image w normal dist).
  split; [now apply reflect_returns|]. split; [now apply reflect_returns|].
  now apply mirror_image_sqdist.
Qed.

Lemma reflection_isometry_witness :
  length [0; 0; 1] = length [0; 1; 0] /\
  length [3; 4; 1] = length [0; 1; 0] /\
  dot [0; 1; 0] [0; 1; 0] = 1 /\
  exists v' w' : vec R,
    reflect [0; 0; 1] [0; 1; 0] 1 = Returns v' /\
    reflect [3; 4; 1] [0; 1; 0] 1 = Returns w' /\
    sqdist v' w' = sqdist [0; 0; 1] [3; 4; 1].
Proof.
  assert (Hunit : dot [0; 1; 0] [0; 1; 0] = 1) by (rewrite dot3; lra).
  repeat (split; [first [reflexivity | exact Hunit]|]).
  exact (reflection_isometry [0; 0; 1] [3; 4; 1] [0; 1; 0] 1
           eq_refl eq_refl Hunit).
Defined.
End ReflectionGeometry.

(** ** The Gram relations of the mirror matrix *)

Section GramRelations.
Open Scope R_scope.

(** X3.  In exact arithmetic the rows of the matrix solved for a 3x3
    Coxeter matrix have the inner products they are solved for: each row
    has unit length and [dot(M[i], M[j]) = -cos(pi / cox_mat[i][j])] for
    [i > j], provided [M[1][1]] is not zero and the last radicand is not
    positive (the group is not hyperbolic). *)
Theorem solved_mirrors_gram (a00 a01 a02 a10 a11 a12 a20 a21 a22 : Z) :
  let c10 : R := cosine_of a10 in
  let c20 : R := cosine_of a20 in
  let c21 : R := cosine_of a21 in
  let m11 := sqrt (1 - c10 * c10) in
  let m21 := (c21 - c20 * c10) / m11 in
  m11 <> 0 ->
  c20 * c20 + m21 * m21 - 1 <= 0 ->
  exists r0 r1 r2 : vec R,
    get_mirrors [[a00; a01; a02]; [a10; a11; a12]; [a20; a21; a22]]
      = Returns [r0; r1; r2] /\
    dot r0 r0 = 1 /\ dot r1 r1 = 1 /\ dot r2 r2 = 1 /\
    dot r1 r0 = c10 /\ dot r2 r0 = c20 /\ dot r2 r1 = c21.
Proof.
  intros c10 c20 c21 m11 m21 Hm11 Hrad.
  exists [1; 0; 0], [c10; m11; 0],
         [c20; m21; sqrt (Rabs (c20 * c20 + m21 * m21 - 1))].
  split; [reflexivity|].
  assert (Hsq : m11 * m11 = 1 - c10 * c10)
    by (apply sqrt_sqrt, first_radicand_nonnegative).
  rewrite !dot3. repeat split; try lra.
  - rewrite sqrt_sqrt by apply Rabs_pos.
    rewrite Rabs_left1 by assumption. lra.
  - subst m21. field_simplify; [lra|assumption].
Qed.

Lemma solved_mirrors_gram_witness :
  sqrt (1 - cosine_of 2 * cosine_of 2) <> 0 /\
  cosine_of 4 * cosine_of 4
  + (cosine_of 4 - cosine_of 4 * cosine_of 2)
    / sqrt (1 - cosine_of 2 * cosine_of 2)
    * ((cosine_of 4 - cosine_of 4 * cosine_of 2)
       / sqrt (1 - cosine_of 2 * cosine_of 2)) - 1 <= 0 /\
  exists r0 r1 r2 : vec R,
    get_mirrors [[1; 2; 4]; [2; 1; 4]; [4; 4; 1]]%Z = Returns [r0; r1; r2] /\
    dot r2 r1 = cosine_of 4.
Proof.
  assert (H2 : cosine_of (F := R) 2 = 0).
  { unfold cosine_of. cbn [fneg np_cos np_pi fdiv of_int real real_trig].
    rewrite cos_PI2. lra. }
  assert (H4 : cosine_of (F := R) 4 = - (sqrt 2 / 2)).
  { unfold cosine_of. cbn [fneg np_cos np_pi fdiv of_int real real_trig].
    rewrite cos_PI4, inv_sqrt2. reflexivity. }
  assert (Hm : sqrt (1 - cosine_of 2 * cosine_of 2) = 1).
  { rewrite H2. replace (1 - 0 * 0) with 1 by lra. apply sqrt_1. }
  assert (Hne : sqrt (1 - cosine_of 2 * cosine_of 2) <> 0)
    by (rewrite Hm; lra).
  assert (Hrad : cosine_of 4 * cosine_of 4
                 + (cosine_of 4 - cosine_of 4 * cosine_of 2)
                   / sqrt (1 - cosine_of 2 * cosine_of 2)
                   * ((cosine_of 4 - cosine_of 4 * cosine_of 2)
                      / sqrt (1 - cosine_of 2 * cosine_of 2)) - 1 <= 0).
  { rewrite Hm, H2, H4. pose proof sqrt2_sqr. nra. }
  split; [exact Hne|]. split; [exact Hrad|].
  destruct (solved_mirrors_gram 1 2 4 2 1 4 4 4 1 Hne Hrad)
    as (r0 & r1 & r2 & Hret & _ & _ & _ & _ & _ & H21).
  exists r0, r1, r2. auto.
Defined.
End GramRelations.

(** ** hex_to_rgb *)

Section HexToRgb.
Open Scope R_scope.

Lemma land_255 (x : Z) : Z.land x 255 = (x mod 256)%Z.
Proof. change 255%Z with (Z.ones 8). now rewrite Z.land_ones by lia. Qed.

(** X4.  In exact arithmetic [hex_to_rgb] returns three numbers between 0
    and 1, for every integer, and they are the three low bytes of the
    value: scaled back by 255 and recombined with the weights 65536, 256
    and 1 they give the value modulo [2^24]. *)
Theorem hex_to_rgb_bytes (value : Z) :
  exists r g b : R,
    hex_to_rgb value = [r; g; b] /\
    0 <= r <= 1 /\ 0 <= g <= 1 /\ 0 <= b <= 1 /\
    255 * (65536 * r + 256 * g + b) = IZR (value mod 2 ^ 24).
Proof.
  unfold hex_to_rgb. cbn [map of_int fdiv real].
  rewrite !land_255, !Z.shiftr_div_pow2 by lia.
  set (r := ((value / 2 ^ (8 * 2)) mod 256)%Z).
  set (g := ((value / 2 ^ (8 * 1)) mod 256)%Z).
  set (b := ((value / 2 ^ (8 * 0)) mod 256)%Z).
  assert (Hr : (0 <= r < 256)%Z) by (apply Z.mod_pos_bound; lia).
  assert (Hg : (0 <= g < 256)%Z) by (apply Z.mod_pos_bound; lia).
  assert (Hb : (0 <= b < 256)%Z) by (apply Z.mod_pos_bound; lia).
  assert (Hsum : (value mod 2 ^ 24 = 65536 * r + 256 * g + b)%Z).
  { subst r g b. change (2 ^ 24)%Z with (256 * (256 * 256))%Z.
    change (2 ^ (8 * 2))%Z with (256 * 256)%Z.
    change (2 ^ (8 * 1))%Z with 256%Z. change (2 ^ (8 * 0))%Z with 1%Z.
    rewrite Z.div_1_r, <- Z.div_div by lia.
    rewrite !Z.rem_mul_r by lia.
    rewrite (Z.div_div value 256 256) by lia. lia. }
  exists (IZR r / 255), (IZR g / 255), (IZR b / 255).
  assert (Hbyte : forall x, (0 <= x < 256)%Z -> 0 <= IZR x / 255 <= 1).
  { intros x [Hx0 Hx1]. apply IZR_le in Hx0.
    assert (Hx2 : (x <= 255)%Z) by lia. apply IZR_le in Hx2.
    split.
    - apply Rmult_le_reg_r with 255; [lra|]. field_simplify. lra.
    - apply Rmult_le_reg_r with 255; [lra|]. field_simplify. lra. }
  split; [reflexivity|]. repeat (split; [now apply Hbyte|]).
  rewrite Hsum, !plus_IZR, !mult_IZR. field.
Qed.
End HexToRgb.

(** ** inset_corners and project_to_plane *)

Section InsetGeometry.
Open Scope R_scope.

(** X5.  In exact arithmetic [get_point] moves a vertex that differs from
    the centroid [q] by exactly [margin] along the line through the
    vertex and the centroid. *)
Theorem get_point_moves_by_margin
    (margin p0 p1 q0 q1 : R) (ps qs : vec R) :
  p0 <> q0 \/ p1 <> q1 ->
  exists x y : R,
    get_point margin (p0 :: p1 :: ps) (q0 :: q1 :: qs) = Returns (x, y) /\
    (x - p0) * (x - p0) + (y - p1) * (y - p1) = margin * margin /\
    (x - q0) * (p1 - q1) = (y - q1) * (p0 - q0).
Proof.
  intros Hne.
  set (vx := p0 - q0). set (vy := p1 - q1).
  set (r := sqrt (vx * vx + vy * vy)).
  assert (Hpos : 0 < vx * vx + vy * vy).
  { pose proof (Rle_0_sqr vx) as Hx. pose proof (Rle_0_sqr vy) as Hy.
    destruct Hne as [Hne|Hne].
    - pose proof (Rsqr_pos_lt vx) as Hlt. unfold Rsqr in *.
      assert (vx <> 0) by (subst vx; lra). specialize (Hlt H). lra.
    - pose proof (Rsqr_pos_lt vy) as Hlt. unfold Rsqr in *.
      assert (vy <> 0) by (subst vy; lra). specialize (Hlt H). lra. }
  assert (Hr : 0 < r) by (apply sqrt_lt_R0; exact Hpos).
  assert (Hrr : r * r = vx * vx + vy * vy) by (apply sqrt_sqrt; lra).
  exists (q0 + (1 - margin / r) * vx), (q1 + (1 - margin / r) * vy).
  split; [reflexivity|].
  assert (Hk : margin / r * r = margin) by (field; lra).
  set (k := margin / r) in *. split.
  - replace (q0 + (1 - k) * vx - p0) with (- k * vx) by (subst vx; ring).
    replace (q1 + (1 - k) * vy - p1) with (- k * vy) by (subst vy; ring).
    replace (- k * vx * (- k * vx) + - k * vy * (- k * vy))
      with (k * k * (vx * vx + vy * vy)) by ring.
    rewrite <- Hrr. replace (k * k * (r * r)) with (k * r * (k * r)) by ring.
    now rewrite Hk.
  - subst vx vy. ring.
Qed.

Lemma get_point_moves_by_margin_witness :
  (3 <> 0 \/ 4 <> 0) /\
  exists x y : R,
    get_point 1 [3; 4] [0; 0] = Returns (x, y) /\
    (x - 3) * (x - 3) + (y - 4) * (y - 4) = 1 * 1 /\
    (x - 0) * (4 - 0) = (y - 0) * (3 - 0).
Proof.
  assert (H : 3 <> 0 \/ 4 <> 0) by (left; lra).
  split; [exact H|].
  exact (get_point_moves_by_margin 1 3 4 0 0 [] [] H).
Defined.
End InsetGeometry.

Section InsetShape.
Context {F : Type} `{Scalar F}.

Lemma for_each_returns {A B} (f : A -> outcome B) (xs : list A) :
  Forall (fun x => exists y, f x = Returns y) xs ->
  exists ys, for_each f xs = Returns ys.
Proof.
  induction 1 as [|x xs [y Hy] _ [ys Hys]]; simpl; [eauto|].
  rewrite Hy, Hys. simpl. eauto.
Qed.

Lemma for_each_length {A B} (f : A -> outcome B) (xs : list A) (ys : list B) :
  for_each f xs = Returns ys -> length ys = length xs.
Proof.
  revert ys. induction xs as [|x xs IH]; intros ys Hys; simpl in Hys.
  - now injection Hys as <-.
  - destruct (f x); simpl in Hys; [|discriminate].
    destruct (for_each f xs) as [ys'|]; simpl in Hys; [|discriminate].
    injection Hys as <-. simpl. now rewrite (IH ys').
Qed.

(** The shapes [add_rows] accepts and the shape it returns. *)
Lemma add_rows_equal (acc row : vec F) :
  length acc = length row ->
  add_rows acc row = Returns (zip_with fadd acc row).
Proof. intros Hlen. unfold add_rows. now rewrite Hlen, Nat.eqb_refl. Qed.

Lemma add_rows_returns (acc row : vec F) :
  length row = length acc \/ length row = 1%nat \/ length acc = 1%nat ->
  exists s, add_rows acc row = Returns s.
Proof.
  intros Hlen. unfold add_rows.
  destruct (Nat.eqb_spec (length acc) (length row)) as [Heq|Hne]; [eauto|].
  destruct row as [|y [|y' row]]; destruct acc as [|x [|x' acc]];
    simpl in *; eauto; lia.
Qed.

Lemma add_rows_length (acc row s : vec F) :
  add_rows acc row = Returns s ->
  (length s = length acc /\ (length row = length acc \/ length row = 1%nat)) \/
  (length s = length row /\ length acc = 1%nat).
Proof.
  unfold add_rows.
  destruct (Nat.eqb_spec (length acc) (length row)) as [Heq|Hne].
  - intros [= <-]. left. rewrite length_zip_with. lia.
  - destruct row as [|y [|y' row]]; destruct acc as [|x [|x' acc]];
      simpl in *; try discriminate; try lia; intros [= <-]; simpl;
      rewrite ?length_map; simpl; auto.
Qed.

Lemma add_rows_raises (acc row : vec F) (e : exn) :
  add_rows acc row = Raises e ->
  e = ValueError /\ length acc <> length row /\
  length acc <> 1%nat /\ length row <> 1%nat.
Proof.
  unfold add_rows.
  destruct (Nat.eqb_spec (length acc) (length row)) as [Heq|Hne];
    [discriminate|].
  destruct row as [|y [|y' row]]; destruct acc as [|x [|x' acc]];
    simpl in *; try discriminate; intros [= <-]; repeat split; lia.
Qed.

Lemma sum_rows_equal (acc : vec F) (rows : list (vec F)) :
  Forall (fun row => length row = length acc) rows ->
  exists s, sum_rows acc rows = Returns s /\ length s = length acc.
Proof.
  revert acc. induction rows as [|row rows IH]; intros acc Hrows; simpl.
  - eauto.
  - inversion Hrows as [|? ? Hrow Hrows']; subst.
    rewrite add_rows_equal by congruence. simpl.
    destruct (IH (zip_with fadd acc row)) as (s & Hs & Hlen).
    + rewrite length_zip_with, Hrow, Nat.min_id.
      eapply List.Forall_impl; [|exact Hrows']. simpl. intros; congruence.
    + exists s. split; [assumption|].
      rewrite Hlen, length_zip_with. lia.
Qed.

(** What is added is broadcast to the length of the sum. *)
Lemma sum_rows_inv (acc s : vec F) (rows : list (vec F)) :
  sum_rows acc rows = Returns s ->
  Forall (fun p => length p = length s \/ length p = 1%nat) (acc :: rows).
Proof.
  revert acc. induction rows as [|row rows IH]; intros acc Hs; simpl in Hs.
  - injection Hs as <-. repeat constructor.
  - destruct (add_rows acc row) as [acc'|] eqn:Hadd; simpl in Hs;
      [|discriminate].
    specialize (IH acc' Hs). inversion IH as [|? ? Hacc' Hrows]; subst.
    apply add_rows_length in Hadd.
    constructor; [|constructor; [|assumption]];
      destruct Hadd as [[Hlen Hrow]|[Hlen Hone]]; destruct Hacc' as [Hl|Hl];
      try destruct Hrow; lia.
Qed.

Lemma sum_rows_compatible (m : nat) (acc : vec F) (rows : list (vec F)) :
  Forall (fun p => length p = m \/ length p = 1%nat) (acc :: rows) ->
  exists s, sum_rows acc rows = Returns s.
Proof.
  revert acc. induction rows as [|row rows IH]; intros acc Hall; simpl.
  - eauto.
  - inversion Hall as [|? ? Hacc Hrows]; subst.
    inversion Hrows as [|? ? Hrow Hrows']; subst.
    destruct (add_rows_returns acc row) as [acc' Hadd]; [lia|].
    rewrite Hadd. simpl. apply IH. constructor; [|assumption].
    apply add_rows_length in Hadd. lia.
Qed.

(** [np.sum] raises only when two of the arrays cannot be broadcast. *)
Lemma sum_rows_raises (acc : vec F) (rows : list (vec F)) (e : exn) :
  sum_rows acc rows = Raises e ->
  e = ValueError /\
  exists p q, In p (acc :: rows) /\ In q (acc :: rows) /\
              length p <> length q /\
              length p <> 1%nat /\ length q <> 1%nat.
Proof.
  revert acc. induction rows as [|row rows IH]; intros acc Hs; simpl in Hs;
    [discriminate|].
  destruct (add_rows acc row) as [acc'|e'] eqn:Hadd; simpl in Hs.
  - destruct (IH acc' Hs) as (-> & p & q & Hp & Hq & Hne & Hp1 & Hq1).
    split; [reflexivity|]. apply add_rows_length in Hadd.
    assert (Hsame : forall x : vec F, In x (acc' :: rows) -> length x <> 1%nat ->
              exists y, In y (acc :: row :: rows) /\ length y = length x).
    { intros x [<-|Hx] Hx1.
      - destruct Hadd as [[Hlen _]|[Hlen _]];
          [exists acc|exists row]; simpl; auto.
      - exists x. simpl. auto. }
    destruct (Hsame p Hp Hp1) as (p' & Hp' & Hlp).
    destruct (Hsame q Hq Hq1) as (q' & Hq' & Hlq).
    exists p', q'. repeat split; try assumption; congruence.
  - injection Hs as <-.
    destruct (add_rows_raises _ _ _ Hadd) as (-> & Hne & Hacc & Hrow).
    split; [reflexivity|]. exists acc, row. simpl. auto.
Qed.

Lemma get_point_returns (margin : F) (p q : vec F) :
  (exists xy, get_point margin p q = Returns xy) <->
  (2 <= length p)%nat /\ (2 <= length q)%nat.
Proof.
  unfold get_point, getitem.
  destruct p as [|p0 [|p1 p]]; destruct q as [|q0 [|q1 q]]; simpl;
    (split; [intros [xy Hxy]; try discriminate; lia
            |intros [Hp Hq]; try lia; eauto]).
Qed.

Lemma get_point_raises (margin : F) (p q : vec F) (e : exn) :
  get_point margin p q = Raises e -> e = IndexError.
Proof.
  unfold get_point, getitem.
  destruct p as [|p0 [|p1 p]]; destruct q as [|q0 [|q1 q]]; simpl;
    intros [= <-]; reflexivity.
Qed.

Lemma for_each_raises {A B} (f : A -> outcome B) (xs : list A) (e : exn) :
  for_each f xs = Raises e -> exists x, In x xs /\ f x = Raises e.
Proof.
  induction xs as [|x xs IH]; simpl; [discriminate|].
  destruct (f x) as [y|e'] eqn:Hy; simpl.
  - destruct (for_each f xs) as [ys|e'']; simpl; [discriminate|].
    intros [= <-]. destruct IH as (x' & Hx' & Hfx); eauto.
  - intros [= <-]. eauto.
Qed.

Lemma for_each_fails {A B} (f : A -> outcome B) (xs : list A) (x : A) (e : exn) :
  In x xs -> f x = Raises e ->
  (forall x' e', f x' = Raises e' -> e' = e) ->
  for_each f xs = Raises e.
Proof.
  intros Hin Hx Hkind. induction xs as [|x' xs IH]; simpl; [contradiction|].
  destruct (f x') as [y|e'] eqn:Hy; simpl.
  - destruct Hin as [->|Hin]; [congruence|]. now rewrite IH.
  - f_equal. eauto.
Qed.

Lemma inset_corners_total (points : list (vec F)) (margin : F) (m : nat) :
  (2 <= m)%nat -> Forall (fun p => length p = m) points ->
  exists out, inset_corners points margin = Returns out /\
              length out = length points.
Proof.
  intros Hm Hall. destruct points as [|p ps]; [simpl; eauto|].
  cbn [inset_corners]. inversion Hall as [|? ? Hp Hps]; subst.
  destruct (sum_rows_equal p ps) as (s & Hs & Hlen).
  { eapply List.Forall_impl; [|exact Hps]. simpl. intros; congruence. }
  rewrite Hs. simpl.
  destruct (for_each_returns
              (fun p0 => get_point margin p0
                 (map (fun x => (x / of_int (Z.of_nat (length (p :: ps))))%num) s))
              (p :: ps)) as [out Hout].
  { eapply List.Forall_impl; [|exact Hall]. intros p0 Hp0.
    apply get_point_returns. rewrite length_map. simpl in Hp0. lia. }
  exists out. split; [exact Hout|].
  exact (for_each_length _ _ _ Hout).
Qed.

(** X6.  The outcomes of [inset_corners].  It returns, one vertex per
    point, exactly when all the points have one length and that length is
    at least 2.  It raises ValueError exactly when two points differ in
    length and neither has one component, so that [np.sum] cannot
    broadcast them; it raises IndexError exactly when the lengths can be
    broadcast but some point has fewer than two components.  No point at
    all gives no vertex. *)
Theorem inset_corners_returns (points : list (vec F)) (margin : F) :
  ((exists out, inset_corners points margin = Returns out /\
                length out = length points) <->
   (exists m, (2 <= m)%nat /\ Forall (fun p => length p = m) points)) /\
  (inset_corners points margin = Raises ValueError <->
   (exists p q, In p points /\ In q points /\ length p <> length q /\
                length p <> 1%nat /\ length q <> 1%nat)) /\
  (inset_corners points margin = Raises IndexError <->
   (exists m, Forall (fun p => length p = m \/ length p = 1%nat) points) /\
   (exists p, In p points /\ (length p < 2)%nat)) /\
  inset_corners points margin <> Raises ZeroDivisionError.
Proof.
  destruct points as [|p0 ps].
  { simpl. repeat split; try discriminate.
    - intros _. exists 2%nat. split; [lia|constructor].
    - eauto.
    - intros (p & q & [] & _).
    - intros (_ & p & [] & _). }
  set (points := p0 :: ps).
  assert (Hshort : forall s p,
            sum_rows p0 ps = Returns s -> In p points ->
            (length p < 2)%nat ->
            inset_corners points margin = Raises IndexError).
  { intros s p Hs Hin Hlt. subst points. cbn [inset_corners].
    rewrite Hs. cbn [bind].
    apply (for_each_fails _ (p0 :: ps) p); [assumption| |].
    - destruct (get_point margin p _) as [xy|e] eqn:Hxy.
      + destruct (proj1 (get_point_returns margin p _) (ex_intro _ xy Hxy)).
        lia.
      + now rewrite (get_point_raises _ _ _ _ Hxy).
    - intros x' e'. apply get_point_raises. }
  assert (Hlong : forall s,
            sum_rows p0 ps = Returns s ->
            Forall (fun p => (2 <= length p)%nat) points ->
            exists m, (2 <= m)%nat /\ Forall (fun p => length p = m) points).
  { intros s Hs Hall. pose proof (sum_rows_inv _ _ _ Hs) as Hinv.
    exists (length s). fold points in Hinv.
    rewrite List.Forall_forall in Hall, Hinv. split.
    - destruct (Hinv p0 (or_introl eq_refl)) as [<-|H1].
      + apply Hall. now left.
      + specialize (Hall p0 (or_introl eq_refl)). lia.
    - apply List.Forall_forall. intros p Hp.
      destruct (Hinv p Hp) as [Hl|Hl]; [assumption|].
      specialize (Hall p Hp). lia. }
  assert (Hdec : forall l : list (vec F),
            Forall (fun p => (2 <= length p)%nat) l \/
            exists p, In p l /\ (length p < 2)%nat).
  { induction l as [|p l [IH|(q & Hq & Hlt)]].
    - left. constructor.
    - destruct (le_lt_dec 2 (length p)); [left; now constructor|].
      right. exists p. split; [now left|assumption].
    - right. exists q. split; [now right|assumption]. }
  destruct (sum_rows p0 ps) as [s|e] eqn:Hs.
  - (* the sum returns *)
    pose proof (sum_rows_inv _ _ _ Hs) as Hinv. fold points in Hinv.
    destruct (Hdec points) as [Hall|(p & Hp & Hlt)].
    + destruct (Hlong s eq_refl Hall) as (m & Hm & Hsame).
      destruct (inset_corners_total points margin m Hm Hsame)
        as (out & Hout & Hlen).
      rewrite Hout. repeat split; try discriminate; eauto.
      * intros (p & q & Hp & Hq & Hne & _).
        rewrite List.Forall_forall in Hsame.
        rewrite (Hsame p Hp), (Hsame q Hq) in Hne. congruence.
      * intros (_ & p & Hp & Hlt).
        rewrite List.Forall_forall in Hall. specialize (Hall p Hp). lia.
    + rewrite (Hshort s p eq_refl Hp Hlt).
      repeat split; try discriminate; eauto.
      * intros (out & Hout & _). discriminate.
      * intros (m & Hm & Hsame).
        rewrite List.Forall_forall in Hsame. specialize (Hsame p Hp). lia.
      * intros (p' & q' & Hp' & Hq' & Hne & Hp1 & Hq1).
        rewrite List.Forall_forall in Hinv.
        destruct (Hinv p' Hp'); destruct (Hinv q' Hq'); congruence.
  - (* the sum raises *)
    destruct (sum_rows_raises _ _ _ Hs)
      as (-> & p & q & Hp & Hq & Hne & Hp1 & Hq1).
    fold points in Hp, Hq.
    assert (Hraise : inset_corners points margin = Raises ValueError).
    { subst points. cbn [inset_corners]. now rewrite Hs. }
    rewrite Hraise. repeat split; try discriminate; eauto 10.
    + intros (out & Hout & _). discriminate.
    + intros (m & Hm & Hsame).
      rewrite List.Forall_forall in Hsame.
      rewrite (Hsame p Hp), (Hsame q Hq) in Hne. congruence.
    + intros ((m & Hcompat) & _).
      rewrite List.Forall_forall in Hcompat.
      destruct (Hcompat p Hp); destruct (Hcompat q Hq); congruence.
Qed.

Lemma py_index_last {A} (xs : list A) :
  py_index xs (-1) =
  match last xs with Some x => Returns x | None => Raises IndexError end.
Proof.
  unfold py_index, getitem. rewrite last_lookup.
  destruct xs as [|x xs]; [reflexivity|].
  change (0 <=? -1)%Z with false. cbn [andb].
  destruct (Z.leb_spec (- Z.of_nat (length (x :: xs))) (-1)) as [_|Hlt];
    [|simpl in Hlt; lia].
  change (-1 <? 0)%Z with true. cbn [andb].
  replace (Z.to_nat (Z.of_nat (length (x :: xs)) + -1))
    with (pred (length (x :: xs))) by (simpl; lia).
  reflexivity.
Qed.

(** X7.  [project_to_plane] raises IndexError on an empty vector and on
    nothing else; on any other vector it returns the first two components
    (the only one, for a vector of one component) divided by the last
    component. *)
Theorem project_to_plane_cases (v : vec F) :
  match v with
  | [] => project_to_plane v = Raises IndexError
  | _ :: _ =>
      exists (w : F) (out : vec F),
        last v = Some w /\
        project_to_plane v = Returns out /\
        out = map (fun x => x / w)%num (take 2 v) /\
        length out = Nat.min 2 (length v)
  end.
Proof.
  unfold project_to_plane. rewrite py_index_last.
  destruct v as [|x v]; [reflexivity|].
  destruct (last (x :: v)) as [w|] eqn:Hlast.
  - exists w. eexists. split; [reflexivity|]. split; [reflexivity|].
    split; [reflexivity|]. now rewrite length_map, length_take.
  - apply last_None in Hlast. discriminate Hlast.
Qed.
End InsetShape.

(** ** The shapes get_mirrors accepts *)

Section MirrorShapes.
Context {F : Type} `{Scalar F} `{Trig F}.

Lemma rectangular_rows {A} (row : list A) (rows : list (list A)) :
  rectangular (row :: rows) = true ->
  Forall (fun r => length r = length row) rows.
Proof.
  simpl. intros Hall. apply List.Forall_forall. intros r Hr.
  rewrite forallb_forall in Hall. now apply Nat.eqb_eq, Hall.
Qed.

End MirrorShapes.

(** ** The records traverse yields *)

Section TraversePaths.
Context {F : Type} `{Scalar F} {State : Type}.
Variable all_transitions : State -> list (Z * State).
Variable self : tiling F State.

Abbreviation loop := (traverse_loop all_transitions self).

Lemma reaches_snoc (s t t' : State) (word : list Z) (symbol : Z) :
  reaches all_transitions s word t ->
  In (symbol, t') (all_transitions t) ->
  reaches all_transitions s (word ++ [symbol]) t'.
Proof.
  revert s. induction word as [|a word IH]; intros s; simpl.
  - intros <- Hin. eauto.
  - intros (u & Hu & Hrest) Hin. exists u. split; [assumption|]. now apply IH.
Qed.

Lemma reaches_snoc_inv (s t' : State) (word : list Z) (symbol : Z) :
  reaches all_transitions s (word ++ [symbol]) t' ->
  exists t, reaches all_transitions s word t /\
            In (symbol, t') (all_transitions t).
Proof.
  revert s. induction word as [|a word IH]; intros s; simpl.
  - intros (u & Hu & <-). eauto.
  - intros (u & Hu & Hrest). destruct (IH _ Hrest) as (t & Ht & Hin). eauto.
Qed.

Lemma successor_of_state (p r : record F State) :
  successor_of all_transitions self p r ->
  exists symbol,
    In (symbol, rec_state r) (all_transitions (rec_state p)) /\
    rec_word r = rec_word p ++ [symbol].
Proof.
  intros ([symbol t] & Hin & Hs). unfold successor in Hs.
  destruct (reflect_shape self _ (rec_shape p)) as [shape'|];
    simpl in Hs; [|discriminate].
  injection Hs as <-. exists symbol. auto.
Qed.

Lemma for_each_image {A B} (f : A -> outcome B) (xs : list A) (ys : list B)
    (x : A) :
  for_each f xs = Returns ys -> In x xs ->
  exists y, In y ys /\ f x = Returns y.
Proof.
  intros Hys. apply for_each_Forall2 in Hys.
  induction Hys as [|x' y xs ys Hy _ IH]; simpl; intros Hin; [contradiction|].
  destruct Hin as [-> | Hin]; [eauto|].
  destruct (IH Hin) as (y' & Hy' & Hfx). eauto.
Qed.

(** Without an exception every queue entry is yielded. *)
Lemma traverse_loop_queue (depth : Z) (queue : list (record F State)) :
  (loop depth queue).2 = None ->
  forall r, In r queue -> In r (loop depth queue).1.
Proof.
  apply traverse_loop_rounds; clear queue; simpl.
  - intros _ r [].
  - intros r0 queue _ IH Hnone r [-> | Hr]; auto.
  - intros r0 queue e _ _ Hnone. discriminate.
  - intros r0 queue new _ _ IH Hnone r [-> | Hr]; [auto|].
    right. apply IH; [assumption|]. apply in_or_app. auto.
Qed.

(** Without an exception every transition of a record yielded below the
    depth bound has its successor yielded. *)
Lemma traverse_loop_children (depth : Z) (queue : list (record F State)) :
  (loop depth queue).2 = None ->
  forall p tr, In p (loop depth queue).1 -> (rec_steps p < depth)%Z ->
    In tr (all_transitions (rec_state p)) ->
    exists r, In r (loop depth queue).1 /\ successor self p tr = Returns r.
Proof.
  apply traverse_loop_rounds; clear queue; simpl.
  - intros _ p tr [].
  - intros r0 queue Hle IH Hnone p tr [<- | Hp] Hlt Htr; [lia|].
    destruct (IH Hnone p tr Hp Hlt Htr) as (r & Hr & Hs). eauto.
  - intros r0 queue e _ _ Hnone. discriminate.
  - intros r0 queue new _ Hnew IH Hnone p tr [<- | Hp] Hlt Htr.
    + destruct (for_each_image _ _ _ _ Hnew Htr) as (r & Hr & Hs).
      exists r. split; [|exact Hs]. right.
      apply traverse_loop_queue; [assumption|]. apply in_or_app. auto.
    + destruct (IH Hnone p tr Hp Hlt Htr) as (r & Hr & Hs). eauto.
Qed.

(** X9.  The state of every record yielded is the state the automaton
    reaches from its start state by reading the word of the record. *)
Theorem traverse_words_are_paths (depth : Z) (domain : list (vec F))
    (r : record F State) :
  In r (traverse all_transitions self depth domain).1 ->
  reaches all_transitions (start (dfa self)) (rec_word r) (rec_state r).
Proof.
  revert r. apply List.Forall_forall. unfold traverse.
  apply traverse_loop_Forall.
  - intros p r Hp _ Hs.
    destruct (successor_of_state _ _ Hs) as (symbol & Hin & ->).
    eapply reaches_snoc; eassumption.
  - repeat constructor.
Qed.

(** X10.  A traversal that ends without an exception misses no word: for
    every word of at most [depth] symbols that the automaton can read from
    its start state, a record with that word, the state reached and the
    length of the word as step count is yielded. *)
Theorem traverse_reaches_every_path (depth : Z) (domain : list (vec F))
    (word : list Z) (s : State) :
  (traverse all_transitions self depth domain).2 = None ->
  reaches all_transitions (start (dfa self)) word s ->
  (Z.of_nat (length word) <= depth)%Z ->
  exists shape,
    In (s, word, Z.of_nat (length word), shape)
       (traverse all_transitions self depth domain).1.
Proof.
  intros Hnone. revert s.
  induction word as [|symbol word IH] using rev_ind; intros s Hpath Hlen.
  - simpl in Hpath. subst s. exists domain. unfold traverse.
    destruct (traverse_loop_head all_transitions self depth
                (start (dfa self), [], 0%Z, domain) []) as [rest Hrest].
    match goal with
    | |- In _ ?out =>
        replace out with ((start (dfa self), [], 0%Z, domain) :: rest)
    end.
    now left.
  - rewrite length_app in Hlen. simpl in Hlen.
    destruct (reaches_snoc_inv _ _ _ _ Hpath) as (t & Ht & Hin).
    destruct (IH t Ht ltac:(lia)) as (shape & Hp).
    destruct (traverse_loop_children depth _ Hnone _ (symbol, s) Hp)
      as (r & Hr & Hs).
    { unfold rec_steps. simpl. lia. }
    { exact Hin. }
    unfold successor in Hs. simpl in Hs.
    destruct (reflect_shape self symbol shape) as [shape'|]; simpl in Hs;
      [|discriminate].
    injection Hs as <-. exists shape'.
    replace (Z.of_nat (length (word ++ [symbol])))
      with (Z.of_nat (length word) + 1)%Z by (rewrite length_app; simpl; lia).
    exact Hr.
Qed.
End TraversePaths.

(** ** How many records traverse yields, and when it raises nothing *)

Section TraverseTotals.
Context {F : Type} `{Scalar F} {State : Type}.
Variable all_transitions : State -> list (Z * State).
Variable self : tiling F State.

Abbreviation loop := (traverse_loop all_transitions self).

Lemma successors_weight (depth : Z) (r : record F State)
    (new : list (record F State)) :
  successors all_transitions self r = Returns new ->
  queue_weight all_transitions depth new =
  list_sum (map (fun tr => tree_size all_transitions
                             (Z.to_nat (depth - (rec_steps r + 1))) tr.2)
              (all_transitions (rec_state r))).
Proof.
  unfold successors. revert new. generalize (all_transitions (rec_state r)).
  induction l as [|tr l IH]; intros new Hnew; simpl in Hnew.
  - injection Hnew as <-. reflexivity.
  - destruct (successor self r tr) as [r'|] eqn:Hs; simpl in Hnew;
      [|discriminate].
    destruct (for_each (successor self r) l) as [rs|] eqn:Hrs;
      simpl in Hnew; [|discriminate].
    injection Hnew as <-. unfold queue_weight in *. simpl.
    rewrite (IH rs eq_refl). f_equal. unfold successor in Hs.
    destruct (reflect_shape self tr.1 (rec_shape r)); simpl in Hs;
      [|discriminate].
    injection Hs as <-. reflexivity.
Qed.

Lemma traverse_loop_count (depth : Z) (queue : list (record F State)) :
  (loop depth queue).2 = None ->
  length (loop depth queue).1 = queue_weight all_transitions depth queue.
Proof.
  apply traverse_loop_rounds; clear queue; simpl.
  - reflexivity.
  - intros r queue Hle IH Hnone. rewrite IH by assumption.
    unfold queue_weight. simpl. unfold entry_weight at 2.
    replace (Z.to_nat (depth - rec_steps r)) with 0%nat by lia. reflexivity.
  - intros r queue e _ _ Hnone. discriminate.
  - intros r queue new Hlt Hnew IH Hnone. rewrite IH by assumption.
    pose proof (successors_weight depth _ _ Hnew) as Hw.
    unfold queue_weight in *. rewrite map_app, list_sum_app, Hw. simpl.
    unfold entry_weight at 2.
    replace (Z.to_nat (depth - rec_steps r))
      with (S (Z.to_nat (depth - (rec_steps r + 1)))) by lia.
    simpl. lia.
Qed.

(** A property that the successors of a record inherit, and that lets
    every expansion return, keeps the loop from raising. *)
Lemma traverse_loop_safe (depth : Z) (P : record F State -> Prop) :
  (forall r, P r -> exists new,
       successors all_transitions self r = Returns new /\ Forall P new) ->
  forall queue, Forall P queue ->
    (loop depth queue).2 = None /\ Forall P (loop depth queue).1.
Proof.
  intros Hstep queue. apply traverse_loop_rounds; clear queue; simpl.
  - auto.
  - intros r queue _ IH Hq. inversion Hq; subst.
    destruct IH as [Hnone Hall]; auto.
  - intros r queue e _ Hraise Hq. inversion Hq as [|? ? Hr _]; subst.
    destruct (Hstep r Hr) as (new & Hnew & _). congruence.
  - intros r queue new _ Hnew IH Hq. inversion Hq as [|? ? Hr Hqueue]; subst.
    destruct (Hstep r Hr) as (new' & Hnew' & Hall).
    assert (new' = new) by congruence. subst new'.
    destruct IH as [Hnone Hout]; [apply Forall_app; auto|]. auto.
Qed.

Lemma successors_safe (P : list (vec F) -> Prop) (r : record F State) :
  (forall tr, In tr (all_transitions (rec_state r)) ->
     exists shape', reflect_shape self tr.1 (rec_shape r) = Returns shape' /\
                    P shape') ->
  exists new, successors all_transitions self r = Returns new /\
              Forall (fun r' => P (rec_shape r')) new.
Proof.
  unfold successors. generalize (all_transitions (rec_state r)).
  induction l as [|tr l IH]; intros Hall; simpl.
  - eauto.
  - destruct (Hall tr (or_introl eq_refl)) as (shape' & Hshape & HP).
    destruct IH as (new & Hnew & Hnew'); [intros; apply Hall; now right|].
    unfold successor at 1. rewrite Hshape. simpl. rewrite Hnew. simpl.
    eexists. split; [reflexivity|]. constructor; assumption.
Qed.

Lemma py_index_in_range {A} (xs : list A) (i : Z) :
  (- Z.of_nat (length xs) <= i < Z.of_nat (length xs))%Z ->
  exists x, py_index xs i = Returns x /\ In x xs.
Proof.
  intros Hi. unfold py_index, getitem.
  destruct (Z.leb_spec 0 i) as [Hpos|Hneg].
  - destruct (Z.ltb_spec i (Z.of_nat (length xs))) as [_|]; [|lia]. simpl.
    destruct (lookup_lt_is_Some_2 xs (Z.to_nat i) ltac:(lia)) as [x Hx].
    rewrite Hx. exists x. split; [reflexivity|].
    apply list_elem_of_In. eapply list_elem_of_lookup_2, Hx.
  - simpl. destruct (Z.leb_spec (- Z.of_nat (length xs)) i) as [_|]; [|lia].
    destruct (Z.ltb_spec i 0) as [_|]; [|lia]. simpl.
    destruct (lookup_lt_is_Some_2 xs (Z.to_nat (Z.of_nat (length xs) + i))
                ltac:(lia)) as [x Hx].
    rewrite Hx. exists x. split; [reflexivity|].
    apply list_elem_of_In. eapply list_elem_of_lookup_2, Hx.
Qed.

Lemma get_reflections_In (mirrors : matrix F) (init_dist : list F)
    (R : vec F -> outcome (vec F)) :
  In R (get_reflections mirrors init_dist) ->
  exists normal dist, In normal mirrors /\ R = (fun v => reflect v normal dist).
Proof.
  unfold get_reflections. intros HR.
  apply in_map_iff in HR as ([normal dist] & <- & Hin).
  exists normal, dist. split; [|reflexivity].
  apply list_elem_of_In. apply list_elem_of_In in Hin.
  eapply elem_of_zip_l, Hin.
Qed.

Lemma reflect_shape_safe (d : nat) (mirrors : matrix F) (init_dist : list F)
    (symbol : Z) (shape : list (vec F)) :
  reflections self = get_reflections mirrors init_dist ->
  Forall (fun normal => length normal = d) mirrors ->
  (- Z.of_nat (length (reflections self)) <= symbol
   < Z.of_nat (length (reflections self)))%Z ->
  Forall (fun p => length p = d) shape ->
  exists shape', reflect_shape self symbol shape = Returns shape' /\
                 Forall (fun p => length p = d) shape'.
Proof.
  intros Hrefl Hmirrors Hsymbol Hshape.
  destruct (py_index_in_range _ _ Hsymbol) as (R & HR & Hin).
  rewrite Hrefl in Hin.
  destruct (get_reflections_In _ _ _ Hin) as (normal & dist & Hnormal & ->).
  rewrite List.Forall_forall in Hmirrors. specialize (Hmirrors _ Hnormal).
  unfold reflect_shape. rewrite HR.
  induction Hshape as [|p shape Hp _ (shape' & Hshape' & Hall)]; simpl.
  - eauto.
  - rewrite reflect_returns by congruence. simpl. simpl in Hshape'.
    rewrite Hshape'. simpl. eexists. split; [reflexivity|].
    constructor; [|assumption]. rewrite length_mirror_image; congruence.
Qed.

(** X11.  A traversal that ends without an exception yields as many
    records as the automaton has paths of at most [depth] transitions from
    its start state, [tree_size]; a depth below 1 gives one record. *)
Theorem traverse_count (depth : Z) (domain : list (vec F)) :
  (traverse all_transitions self depth domain).2 = None ->
  length (traverse all_transitions self depth domain).1 =
    tree_size all_transitions (Z.to_nat depth) (start (dfa self)) /\
  ((depth < 1)%Z ->
   length (traverse all_transitions self depth domain).1 = 1%nat).
Proof.
  intros Hnone. unfold traverse in *.
  rewrite traverse_loop_count by assumption.
  unfold queue_weight, entry_weight, rec_steps, rec_state. simpl.
  rewrite Z.sub_0_r, Nat.add_0_r. split; [reflexivity|].
  intros Hdepth. now replace (Z.to_nat depth) with 0%nat by lia.
Qed.

(** X12.  When the reflections are those of [get_reflections] for mirrors
    of one dimension [d], every symbol of the automaton indexes one of them
    and the vertices of the domain have dimension [d], [traverse] raises
    nothing, yields [tree_size] records, and every vertex it yields has
    dimension [d]. *)
Theorem traverse_returns (depth : Z) (domain : list (vec F)) (d : nat)
    (mirrors : matrix F) (init_dist : list F) :
  reflections self = get_reflections mirrors init_dist ->
  Forall (fun normal => length normal = d) mirrors ->
  (forall s symbol t, In (symbol, t) (all_transitions s) ->
     (- Z.of_nat (length (reflections self)) <= symbol
      < Z.of_nat (length (reflections self)))%Z) ->
  Forall (fun p => length p = d) domain ->
  exists out : list (record F State),
    traverse all_transitions self depth domain = (out, None) /\
    length out = tree_size all_transitions (Z.to_nat depth) (start (dfa self)) /\
    Forall (fun r => Forall (fun p => length p = d) (rec_shape r)) out.
Proof.
  intros Hrefl Hmirrors Hsymbols Hdomain.
  destruct (traverse_loop_safe depth
              (fun r => Forall (fun p => length p = d) (rec_shape r)))
    with (queue := [(start (dfa self), @nil Z, 0%Z, domain)])
    as [Hnone Hall].
  - intros r Hr.
    apply (successors_safe (fun shape => Forall (fun p => length p = d) shape)).
    intros [symbol t] Hin. simpl.
    eapply reflect_shape_safe; eauto.
  - repeat constructor. exact Hdomain.
  - exists (traverse all_transitions self depth domain).1.
    unfold traverse in *. split; [|split].
    + rewrite <- Hnone. now destruct (loop depth _).
    + rewrite traverse_loop_count by assumption.
      unfold queue_weight, entry_weight, rec_steps, rec_state. simpl.
      now rewrite Z.sub_0_r, Nat.add_0_r.
    + exact Hall.
Qed.

(** X13.  The reflection of a queue entry is looked up once per vertex:
    with an empty domain [traverse] raises nothing, whatever the symbols
    and the reflections are, and every shape it yields is empty. *)
Theorem traverse_empty_domain (depth : Z) :
  exists out : list (record F State),
    traverse all_transitions self depth [] = (out, None) /\
    length out = tree_size all_transitions (Z.to_nat depth) (start (dfa self)) /\
    Forall (fun r => rec_shape r = []) out.
Proof.
  destruct (traverse_loop_safe depth (fun r => rec_shape r = []))
    with (queue := [(start (dfa self), @nil Z, 0%Z, @nil (vec F))])
    as [Hnone Hall].
  - intros r Hr.
    apply (successors_safe (fun shape => shape = [])).
    intros tr _. rewrite Hr. simpl. eauto.
  - repeat constructor.
  - exists (traverse all_transitions self depth []).1.
    unfold traverse in *. split; [|split].
    + rewrite <- Hnone. now destruct (loop depth _).
    + rewrite traverse_loop_count by assumption.
      unfold queue_weight, entry_weight, rec_steps, rec_state. simpl.
      now rewrite Z.sub_0_r, Nat.add_0_r.
    + exact Hall.
Qed.
End TraverseTotals.

Lemma traverse_words_are_paths_witness :
  In (2%nat, [1%Z], 1%Z, [[0; -2; 1]%float])
     (traverse sample_transitions sample_tiling 1 [[0; 0; 1]%float]).1 /\
  reaches sample_transitions 0%nat [1%Z] 2%nat.
Proof.
  assert (Hin : In (2%nat, [1%Z], 1%Z, [[0; -2; 1]%float])
                   (traverse sample_transitions sample_tiling 1
                      [[0; 0; 1]%float]).1).
  { vm_compute. right. right. left. reflexivity. }
  split; [exact Hin|].
  exact (traverse_words_are_paths sample_transitions sample_tiling 1
           [[0; 0; 1]%float] _ Hin).
Defined.

Lemma traverse_reaches_every_path_witness :
  (traverse sample_transitions sample_tiling 2 [[0; 0; 1]%float]).2 = None /\
  reaches sample_transitions (start (dfa sample_tiling)) [0%Z; 1%Z] 2%nat /\
  (Z.of_nat (length [0%Z; 1%Z]) <= 2)%Z /\
  exists shape,
    In (2%nat, [0%Z; 1%Z], 2%Z, shape)
       (traverse sample_transitions sample_tiling 2 [[0; 0; 1]%float]).1.
Proof.
  assert (Hnone : (traverse sample_transitions sample_tiling 2
                     [[0; 0; 1]%float]).2 = None)
    by (vm_compute; reflexivity).
  assert (Hpath : reaches sample_transitions (start (dfa sample_tiling))
                    [0%Z; 1%Z] 2%nat).
  { simpl. exists 1%nat. split; [now left|].
    exists 2%nat. split; [now left|reflexivity]. }
  assert (Hlen : (Z.of_nat (length [0%Z; 1%Z]) <= 2)%Z) by (simpl; lia).
  split; [exact Hnone|]. split; [exact Hpath|]. split; [exact Hlen|].
  exact (traverse_reaches_every_path sample_transitions sample_tiling 2
           [[0; 0; 1]%float] [0%Z; 1%Z] 2%nat Hnone Hpath Hlen).
Defined.

Lemma traverse_count_witness :
  (traverse sample_transitions sample_tiling 2 [[0; 0; 1]%float]).2 = None /\
  length (traverse sample_transitions sample_tiling 2 [[0; 0; 1]%float]).1 =
    4%nat.
Proof.
  assert (Hnone : (traverse sample_transitions sample_tiling 2
                     [[0; 0; 1]%float]).2 = None)
    by (vm_compute; reflexivity).
  split; [exact Hnone|].
  exact (proj1 (traverse_count sample_transitions sample_tiling 2
                  [[0; 0; 1]%float] Hnone)).
Defined.

Lemma traverse_returns_witness :
  reflections sample_tiling = get_reflections sample_mirrors [1; 1; 0]%float /\
  Forall (fun normal => length normal = 3%nat) sample_mirrors /\
  Forall (fun p => length p = 3%nat) [[0; 0; 1]%float] /\
  exists out : list (record float nat),
    traverse sample_transitions sample_tiling 30 [[0; 0; 1]%float] =
      (out, None) /\
    length out = tree_size sample_transitions 30 0%nat.
Proof.
  assert (Hmirrors : Forall (fun normal => length normal = 3%nat) sample_mirrors)
    by (repeat constructor).
  assert (Hdomain : Forall (fun p => length p = 3%nat) [[0; 0; 1]%float])
    by (repeat constructor).
  assert (Hsymbols : forall s symbol t,
            In (symbol, t) (sample_transitions s) ->
            (- Z.of_nat (length (reflections sample_tiling)) <= symbol
             < Z.of_nat (length (reflections sample_tiling)))%Z).
  { intros [|[|s]] symbol t Hin; simpl in Hin;
      repeat match goal with
             | Hor : _ \/ _ |- _ => destruct Hor
             | Heq : (_, _) = (_, _) |- _ => injection Heq as <- <-
             | Hf : False |- _ => destruct Hf
             end; simpl; lia. }
  split; [reflexivity|]. split; [exact Hmirrors|]. split; [exact Hdomain|].
  destruct (traverse_returns sample_transitions sample_tiling 30
              [[0; 0; 1]%float] 3 sample_mirrors [1; 1; 0]%float
              eq_refl Hmirrors Hsymbols Hdomain) as (out & Hout & Hlen & _).
  exists out. split; [exact Hout|exact Hlen].
Defined.

(** ** The faces get_fundamental_faces builds *)

Section FaceShapes.
Context {F : Type} `{Scalar F} {State : Type}.
Variable self : tiling F State.

Lemma both_active_loop_length (i j n : nat) (f0 f : list (vec F)) (P Q : vec F) :
  both_active_loop self i j n f0 P Q = Returns f ->
  length f = (length f0 + 2 * n)%nat.
Proof.
  revert f0 P Q. induction n as [|n IH]; intros f0 P Q; simpl.
  - intros [= <-]. lia.
  - destruct (reflect_twice self i j P) as [P'|]; simpl; [|discriminate].
    destruct (reflect_twice self i j Q) as [Q'|]; simpl; [|discriminate].
    intros Hf. apply IH in Hf. rewrite Hf, !length_app. simpl. lia.
Qed.

Lemma one_active_loop_length (a b n : nat) (f0 f : list (vec F)) (P : vec F) :
  one_active_loop self a b n f0 P = Returns f ->
  length f = (length f0 + n)%nat.
Proof.
  revert f0 P. induction n as [|n IH]; intros f0 P; simpl.
  - intros [= <-]. lia.
  - destruct (reflect_twice self a b P) as [P'|]; simpl; [|discriminate].
    intros Hf. apply IH in Hf. rewrite Hf, !length_app. simpl. lia.
Qed.

(** X14.  The size of a face.  When a face is appended for the pair
    [(i, j)], both activity flags and the Coxeter entry [n] of the pair
    were read; the face has [2 * n] vertices when both mirrors are active
    and [n] vertices, with [n > 2], when one of them is.  A Coxeter entry
    below 1 with two active mirrors gives a face without vertices. *)
Theorem face_of_pair_size (i j : nat) (f0 : list (vec F)) :
  face_of_pair self i j = Returns (Some f0) ->
  exists (ai aj : bool) (n : Z),
    active self !! i = Some ai /\ active self !! j = Some aj /\
    cox_entry self i j = Returns n /\
    if ai && aj then length f0 = (2 * Z.to_nat n)%nat
    else (ai || aj) = true /\ (2 < n)%Z /\ length f0 = Z.to_nat n.
Proof.
  unfold face_of_pair, and_then, order_gt_2, getitem.
  destruct (active self !! i) as [ai|]; simpl; [|discriminate].
  destruct (active self !! j) as [aj|]; simpl;
    [|destruct ai; simpl; discriminate].
  destruct (cox_entry self i j) as [n|e]; simpl.
  - intros Hface. exists ai, aj, n. repeat (split; [reflexivity|]).
    destruct ai, aj; simpl in *.
    + destruct (reflections self !! j) as [Rj|]; simpl in Hface; [|discriminate].
      destruct (Rj (init_v self)) as [Q|]; simpl in Hface; [|discriminate].
      destruct (both_active_loop self i j (Z.to_nat n) [] (init_v self) Q)
        as [f|] eqn:Hf; simpl in Hface; [|discriminate].
      injection Hface as <-. now apply both_active_loop_length in Hf.
    + destruct (Z.ltb_spec 2 n); simpl in Hface; [|discriminate].
      destruct (one_active_loop self i j (Z.to_nat n) [] (init_v self))
        as [f|] eqn:Hf; simpl in Hface; [|discriminate].
      injection Hface as <-. apply one_active_loop_length in Hf. auto.
    + destruct (Z.ltb_spec 2 n); simpl in Hface; [|discriminate].
      destruct (one_active_loop self j i (Z.to_nat n) [] (init_v self))
        as [f|] eqn:Hf; simpl in Hface; [|discriminate].
      injection Hface as <-. apply one_active_loop_length in Hf. auto.
    + discriminate.
  - destruct ai, aj; simpl; try discriminate.
    destruct (reflections self !! j) as [Rj|]; simpl; [|discriminate].
    destruct (Rj (init_v self)); simpl; discriminate.
Qed.

(** X15.  The pairs that are skipped.  The body of the loop reaches
    [continue] exactly when both flags can be read and either no mirror of
    the pair is active, or one is and the Coxeter entry of the pair is at
    most 2.  Without an active mirror the Coxeter matrix is not read. *)
Theorem face_of_pair_skips (i j : nat) :
  face_of_pair self i j = Returns None <->
  exists ai aj : bool,
    active self !! i = Some ai /\ active self !! j = Some aj /\
    ai && aj = false /\
    (ai || aj = false \/
     exists n, cox_entry self i j = Returns n /\ (n <= 2)%Z).
Proof.
  unfold face_of_pair, and_then, order_gt_2, getitem.
  destruct (active self !! i) as [ai|]; simpl.
  2: { split; [discriminate|]. intros (ai & aj & Hi & _). discriminate. }
  destruct (active self !! j) as [aj|]; simpl.
  2: { split; [destruct ai; simpl; discriminate|].
       intros (ai' & aj & _ & Hj & _). discriminate. }
  destruct ai, aj; simpl.
  - split.
    + destruct (reflections self !! j) as [Rj|]; simpl; [|discriminate].
      destruct (Rj (init_v self)) as [Q|]; simpl; [|discriminate].
      destruct (cox_entry self i j) as [n|]; simpl; [|discriminate].
      destruct (both_active_loop self i j (Z.to_nat n) [] (init_v self) Q);
        simpl; discriminate.
    + intros (ai & aj & [= <-] & [= <-] & Hboth & _). discriminate.
  - destruct (cox_entry self i j) as [n|e]; simpl.
    + destruct (Z.ltb_spec 2 n); simpl.
      * split.
        -- destruct (one_active_loop self i j (Z.to_nat n) [] (init_v self));
             simpl; discriminate.
        -- intros (ai & aj & [= <-] & [= <-] & _ & [Hnone|(n' & [= <-] & Hn)]);
             [discriminate|lia].
      * split; [|reflexivity]. intros _. exists true, false.
        repeat (split; [reflexivity|]). right. eauto.
    + split; [discriminate|].
      intros (ai & aj & [= <-] & [= <-] & _ & [Hnone|(n' & Hn & _)]);
        discriminate.
  - destruct (cox_entry self i j) as [n|e]; simpl.
    + destruct (Z.ltb_spec 2 n); simpl.
      * split.
        -- destruct (one_active_loop self j i (Z.to_nat n) [] (init_v self));
             simpl; discriminate.
        -- intros (ai & aj & [= <-] & [= <-] & _ & [Hnone|(n' & [= <-] & Hn)]);
             [discriminate|lia].
      * split; [|reflexivity]. intros _. exists false, true.
        repeat (split; [reflexivity|]). right. eauto.
    + split; [discriminate|].
      intros (ai & aj & [= <-] & [= <-] & _ & [Hnone|(n' & Hn & _)]);
        discriminate.
  - split; [|reflexivity]. intros _. exists false, false.
    repeat (split; [reflexivity|]). now left.
Qed.
End FaceShapes.

Lemma face_of_pair_size_witness :
  exists f0 : list (vec float),
    face_of_pair sample_tiling 0 2 = Returns (Some f0) /\
    length f0 = 4%nat.
Proof.
  destruct (face_of_pair sample_tiling 0 2) as [[f0|]|e] eqn:E;
    [|vm_compute in E; discriminate E..].
  exists f0. split; [reflexivity|].
  destruct (face_of_pair_size sample_tiling 0 2 f0 E)
    as (ai & aj & n & Hi & Hj & Hn & Hlen).
  vm_compute in Hi, Hj, Hn.
  injection Hi as <-. injection Hj as <-. injection Hn as <-.
  simpl in Hlen. apply Hlen.
Defined.

(** ** The face of one active mirror *)

Section OneActive.
Context {F : Type} `{Scalar F} {State : Type}.
Variable self : tiling F State.

Lemma length_orbit {A} (T : A -> A) (n : nat) (P : A) :
  length (orbit T n P) = n.
Proof.
  revert P. induction n as [|n IH]; intros P; simpl; [reflexivity|].
  now rewrite IH.
Qed.

Lemma last_orbit {A} (T : A -> A) (n : nat) (P : A) :
  last (orbit T (S n) P) = Some (Nat.iter n T P).
Proof.
  revert P. induction n as [|n IH]; intros P; [reflexivity|].
  change (orbit T (S (S n)) P) with (P :: orbit T (S n) (T P)).
  rewrite Nat.iter_succ_r, <- (IH (T P)). reflexivity.
Qed.

Lemma one_active_loop_returns (i j : nat) (a b : vec F) (alpha beta : F)
    (n : nat) (f0 : list (vec F)) (P : vec F) :
  reflections self !! i = Some (fun v => reflect v a alpha) ->
  reflections self !! j = Some (fun v => reflect v b beta) ->
  length a = length b -> length P = length a ->
  one_active_loop self i j n f0 P =
  Returns (f0 ++ orbit (rotation a b alpha beta) n P).
Proof.
  intros Hi Hj Hab. revert f0 P.
  induction n as [|n IH]; intros f0 P HP; simpl.
  - now rewrite app_nil_r.
  - rewrite (reflect_twice_returns self i j a b alpha beta Hi Hj Hab)
      by assumption.
    simpl. rewrite IH by (now apply length_rotation).
    now rewrite <- app_assoc.
Qed.
End OneActive.

Section OneActiveExact.
Open Scope R_scope.
Context {State : Type}.

(** X16.  In exact arithmetic, for a pair [(i, j)] with one active mirror,
    unit normals at the angle [pi / n] and [n = cox_mat[i][j] > 2], the
    face built is the orbit of [init_v] under the rotation that applies
    the active mirror first: [n] vertices, and the rotation sends the last
    vertex back to the first one. *)
Theorem one_active_face_closes (self : tiling R State) (i j : nat)
    (ai aj : bool) (a b : vec R) (alpha beta : R) (n : Z) :
  active self !! i = Some ai -> active self !! j = Some aj -> ai <> aj ->
  cox_entry self i j = Returns n -> (2 < n)%Z ->
  reflections self !! i = Some (fun v => reflect v a alpha) ->
  reflections self !! j = Some (fun v => reflect v b beta) ->
  length a = length (init_v self) -> length b = length (init_v self) ->
  dot a a = 1 -> dot b b = 1 -> dot a b = - cos (PI / IZR n) ->
  let T := if ai then rotation a b alpha beta else rotation b a beta alpha in
  exists (f0 : list (vec R)) (lastv : vec R),
    face_of_pair self i j = Returns (Some f0) /\
    f0 = orbit T (Z.to_nat n) (init_v self) /\
    length f0 = Z.to_nat n /\
    last f0 = Some lastv /\
    (if ai then reflect_twice self i j lastv
     else reflect_twice self j i lastv) = Returns (init_v self).
Proof.
  intros Hai Haj Hne Hn Hn2 Hi Hj Ha Hb Haa Hbb Hangle T.
  assert (Hab : length a = length b) by congruence.
  assert (Hba : length b = length a) by congruence.
  assert (Hangle' : dot b a = - cos (PI / IZR n))
    by (now rewrite dot_comm).
  assert (Hgt : (2 <? n)%Z = true) by (now apply Z.ltb_lt).
  destruct (Z.to_nat n) as [|m] eqn:Hm; [lia|].
  assert (Htheta : PI / IZR n = PI / INR (S m)).
  { rewrite INR_IZR_INZ, <- Hm, Z2Nat.id by lia. reflexivity. }
  exists (orbit T (S m) (init_v self)), (Nat.iter m T (init_v self)).
  split; [|split; [reflexivity|split; [apply length_orbit|split;
                    [apply last_orbit|]]]].
  - unfold face_of_pair, and_then, order_gt_2, getitem.
    rewrite Hai, Haj.
    destruct ai, aj; try congruence; simpl; rewrite Hn; simpl;
      rewrite Hgt; simpl; rewrite ?Hn; simpl; rewrite Hm; subst T.
    + now rewrite (one_active_loop_returns self i j a b alpha beta (S m) []
                     (init_v self) Hi Hj Hab (eq_sym Ha)).
    + now rewrite (one_active_loop_returns self j i b a beta alpha (S m) []
                     (init_v self) Hj Hi Hba (eq_sym Hb)).
  - destruct ai, aj; try congruence; subst T.
    + rewrite (reflect_twice_returns self i j a b alpha beta Hi Hj Hab)
        by (apply length_iter_rotation; congruence).
      f_equal. change (Nat.iter (S m) (rotation a b alpha beta) (init_v self)
                       = init_v self).
      apply (rotation_order a b alpha beta (PI / IZR n));
        first [assumption | lia | congruence].
    + rewrite (reflect_twice_returns self j i b a beta alpha Hj Hi Hba)
        by (apply length_iter_rotation; congruence).
      f_equal. change (Nat.iter (S m) (rotation b a beta alpha) (init_v self)
                       = init_v self).
      apply (rotation_order b a beta alpha (PI / IZR n));
        first [assumption | lia | congruence].
Qed.
End OneActiveExact.

Section SampleOneActive.
Open Scope R_scope.

Lemma one_active_face_closes_witness :
  active sample_tiling_exact !! 0%nat = Some true /\
  active sample_tiling_exact !! 2%nat = Some false /\
  true <> false /\
  cox_entry sample_tiling_exact 0 2 = Returns 4%Z /\
  (2 < 4)%Z /\
  dot [1; 0; 0] [1; 0; 0] = 1 /\
  dot [- (1 / sqrt 2); - (1 / sqrt 2); 0] [- (1 / sqrt 2); - (1 / sqrt 2); 0] = 1 /\
  dot [1; 0; 0] [- (1 / sqrt 2); - (1 / sqrt 2); 0] = - cos (PI / 4) /\
  exists (f0 : list (vec R)) (lastv : vec R),
    face_of_pair sample_tiling_exact 0 2 = Returns (Some f0) /\
    length f0 = 4%nat /\
    last f0 = Some lastv /\
    reflect_twice sample_tiling_exact 0 2 lastv = Returns [0; 0; 1].
Proof.
  assert (Hne : true <> false) by discriminate.
  assert (Ha : dot [1; 0; 0] [1; 0; 0] = 1) by (rewrite dot3; lra).
  assert (Hb : dot [- (1 / sqrt 2); - (1 / sqrt 2); 0]
                   [- (1 / sqrt 2); - (1 / sqrt 2); 0] = 1).
  { rewrite dot3, inv_sqrt2. pose proof sqrt2_sqr. nra. }
  assert (Hc : dot [1; 0; 0] [- (1 / sqrt 2); - (1 / sqrt 2); 0]
               = - cos (PI / 4)).
  { rewrite cos_PI4, dot3. lra. }
  repeat (split; [first [reflexivity | lia | assumption]|]).
  destruct (one_active_face_closes sample_tiling_exact 0 2 true false
              [1; 0; 0] [- (1 / sqrt 2); - (1 / sqrt 2); 0] 1 0 4
              eq_refl eq_refl Hne eq_refl ltac:(lia) eq_refl eq_refl
              eq_refl eq_refl Ha Hb Hc)
    as (f0 & lastv & Hface & _ & Hlen & Hlast & Hclose).
  exists f0, lastv. auto.
Defined.
End SampleOneActive.

(** ** What draw does to the surface and to the instance *)

Section DrawTrace.
Context {F : Type} `{Scalar F} {State : Type}.
Variable all_transitions : State -> list (Z * State).

Ltac count_calls :=
  repeat (rewrite count_if_cons || rewrite count_if_app
          || rewrite count_if_nil || (rewrite count_line_to by reflexivity));
  simpl.

Lemma dbind_returns {A B} (m : drawing F A) (k : A -> drawing F B) (b : B) :
  (dbind m k).2 = Returns b ->
  exists a, m.2 = Returns a /\ (k a).2 = Returns b /\
            (dbind m k).1 = m.1 ++ (k a).1.
Proof.
  unfold dbind. destruct m.2 as [a|e]; simpl; [|discriminate].
  intros Hk. exists a. auto.
Qed.

Lemma dbind_count {A B} (p : cairo_op F -> bool)
    (m : drawing F A) (k : A -> drawing F B) :
  count_if p m.1 = 0%nat -> (forall a, count_if p (k a).1 = 0%nat) ->
  count_if p (dbind m k).1 = 0%nat.
Proof.
  intros Hm Hk. unfold dbind. destruct m.2; simpl; [|assumption].
  now rewrite count_if_app, Hm, Hk.
Qed.

(** Nothing below [draw] itself writes the file. *)
Lemma draw_shape_quiet margin edge_color face_colors i shape :
  count_if is_write (draw_shape margin edge_color face_colors i shape).1 = 0%nat.
Proof.
  unfold draw_shape, dbind, lift, emit. simpl.
  destruct (for_each project_to_plane shape) as [pts|]; simpl; [|reflexivity].
  destruct (inset_corners pts margin) as [pts'|]; simpl; [|reflexivity].
  destruct (getitem pts' 0) as [p|]; simpl; [|reflexivity].
  destruct face_colors as [colors|]; [destruct (getitem colors i)|]; simpl;
    count_calls; reflexivity.
Qed.

Lemma draw_shapes_quiet margin edge_color face_colors i
    (rs : list (record F State)) :
  count_if is_write (draw_shapes margin edge_color face_colors i rs).1 = 0%nat.
Proof.
  induction rs as [|r rs IH]; simpl; [reflexivity|].
  apply dbind_count; [apply draw_shape_quiet|auto].
Qed.

Lemma draw_face_quiet self depth margin edge_color face_colors i face :
  count_if is_write
    (draw_face all_transitions self depth margin edge_color face_colors i face).1
  = 0%nat.
Proof.
  unfold draw_face. apply dbind_count; [apply draw_shapes_quiet|].
  intros _. now destruct (traverse all_transitions self depth face).2.
Qed.

Lemma draw_faces_quiet self depth margin edge_color face_colors i faces :
  count_if is_write
    (draw_faces all_transitions self depth margin edge_color face_colors i faces).1
  = 0%nat.
Proof.
  revert i. induction faces as [|face faces IH]; intros i; simpl; [reflexivity|].
  apply dbind_count; [apply draw_face_quiet|auto].
Qed.

(** Every polygon drawn to the end is stroked once. *)
Lemma draw_shape_strokes margin edge_color face_colors i shape :
  (draw_shape margin edge_color face_colors i shape).2 = Returns tt ->
  count_if is_stroke (draw_shape margin edge_color face_colors i shape).1
  = 1%nat.
Proof.
  unfold draw_shape, dbind, lift, emit. simpl.
  destruct (for_each project_to_plane shape) as [pts|]; simpl; [|discriminate].
  destruct (inset_corners pts margin) as [pts'|]; simpl; [|discriminate].
  destruct (getitem pts' 0) as [p|]; simpl; [|discriminate].
  destruct face_colors as [colors|]; [destruct (getitem colors i)|]; simpl;
    try discriminate; intros _; count_calls; reflexivity.
Qed.

Lemma draw_shapes_strokes margin edge_color face_colors i
    (rs : list (record F State)) :
  (draw_shapes margin edge_color face_colors i rs).2 = Returns tt ->
  count_if is_stroke (draw_shapes margin edge_color face_colors i rs).1
  = length rs.
Proof.
  induction rs as [|r rs IH]; simpl; [reflexivity|].
  intros Hret. destruct (dbind_returns _ _ _ Hret) as ([] & Hr & Hrs & ->).
  rewrite count_if_app, draw_shape_strokes, IH by assumption. reflexivity.
Qed.

Lemma draw_face_strokes self depth margin edge_color face_colors i face :
  (draw_face all_transitions self depth margin edge_color face_colors i face).2
  = Returns tt ->
  count_if is_stroke
    (draw_face all_transitions self depth margin edge_color face_colors i face).1
  = tree_size all_transitions (Z.to_nat depth) (start (dfa self)).
Proof.
  unfold draw_face. intros Hret.
  destruct (dbind_returns _ _ _ Hret) as ([] & Hshapes & Hend & ->).
  destruct (traverse all_transitions self depth face).2 as [e|] eqn:Hnone;
    [discriminate|].
  rewrite count_if_app, draw_shapes_strokes by assumption. simpl.
  rewrite count_if_nil, Nat.add_0_r. unfold traverse in *.
  rewrite traverse_loop_count by assumption.
  unfold queue_weight, entry_weight, rec_steps, rec_state. simpl.
  now rewrite Z.sub_0_r, Nat.add_0_r.
Qed.

Lemma draw_faces_strokes self depth margin edge_color face_colors i faces :
  (draw_faces all_transitions self depth margin edge_color face_colors i faces).2
  = Returns tt ->
  count_if is_stroke
    (draw_faces all_transitions self depth margin edge_color face_colors i faces).1
  = (length faces
     * tree_size all_transitions (Z.to_nat depth) (start (dfa self)))%nat.
Proof.
  revert i. induction faces as [|face faces IH]; intros i; simpl; [reflexivity|].
  intros Hret. destruct (dbind_returns _ _ _ Hret) as ([] & Hface & Hrest & ->).
  rewrite count_if_app, draw_face_strokes, IH by assumption. reflexivity.
Qed.

Lemma dbind_writes_last {A} (output : string) (m : drawing F A)
    (k : A -> drawing F unit) :
  count_if is_write m.1 = 0%nat ->
  (forall a, writes_last output (k a)) ->
  writes_last output (dbind m k).
Proof.
  intros Hm Hk. unfold writes_last, dbind.
  destruct m.2 as [a|e]; cbn [fst snd]; [|assumption].
  specialize (Hk a). unfold writes_last in Hk.
  destruct (k a).2 as [[]|e].
  - destruct Hk as (body & -> & Hbody). exists (m.1 ++ body).
    split; [now rewrite app_assoc|]. now rewrite count_if_app, Hm, Hbody.
  - now rewrite count_if_app, Hm, Hk.
Qed.

Lemma built_faces_length (pairs : list (nat * nat)) (self : tiling F State) :
  (length (built_faces pairs self).2 <= length pairs)%nat.
Proof.
  induction pairs as [|[i j] pairs IH]; simpl; [lia|].
  destruct (face_of_pair self i j) as [[f0|]|e]; simpl; lia.
Qed.

(** X17.  A render with [extent] zero creates the surface and raises
    ZeroDivisionError while the arguments of [ctx.scale] are evaluated:
    nothing is drawn, no face is built and no file is written. *)
Theorem draw_zero_extent (self : tiling F State) (output : string)
    (image_width image_height : Z) (extent : F) (depth : Z)
    (kw : draw_kwargs F) :
  truthy extent = false ->
  draw all_transitions self output image_width image_height extent depth kw =
    (([ImageSurface image_width image_height], Raises ZeroDivisionError), self).
Proof.
  intros Hzero. unfold draw, draw_with, dbind, lift, emit, py_truediv.
  rewrite Hzero. reflexivity.
Qed.

(** X18.  The file is written last and only by a render that raises
    nothing: when [draw] returns, [write_to_png(output)] is its last call
    on the surface and the only one; when [draw] raises, the file is not
    written. *)
Theorem draw_writes_last (self : tiling F State) (output : string)
    (image_width image_height : Z) (extent : F) (depth : Z)
    (kw : draw_kwargs F) :
  writes_last output
    (draw all_transitions self output image_width image_height extent
       depth kw).1.
Proof.
  unfold draw.
  generalize (default default_line_width (line_width kw))
             (default default_margin (margin kw))
             (default default_edge_color (edge_color kw))
             (default default_face_colors (face_colors kw)).
  intros lw mg ec fc. unfold draw_with.
  match goal with
  | |- context [dbind (emit [ImageSurface image_width image_height]) ?k] =>
      set (setup := dbind (emit [ImageSurface image_width image_height]) k)
  end.
  assert (Hsetup : count_if is_write setup.1 = 0%nat).
  { subst setup. unfold dbind, lift, emit. simpl.
    destruct (py_truediv (of_int image_height) extent); simpl;
      [destruct (py_truediv extent (of_int 2)); simpl|];
      count_calls; reflexivity. }
  destruct setup.2 as [[]|e] eqn:E; cbn [fst snd].
  - apply dbind_writes_last; [exact Hsetup|]. intros _.
    apply dbind_writes_last; [reflexivity|]. intros _.
    apply dbind_writes_last; [apply draw_faces_quiet|]. intros _.
    exists []. split; reflexivity.
  - unfold writes_last. rewrite E. exact Hsetup.
Qed.

(** X19.  A render that raises nothing strokes one polygon for every
    record of the traversal of every stored face: the number of [stroke]
    calls is the number of faces stored after the build times the number
    of paths of at most [depth] transitions of the automaton. *)
Theorem draw_strokes_every_record (self : tiling F State) (output : string)
    (image_width image_height : Z) (extent : F) (depth : Z)
    (kw : draw_kwargs F) :
  let run := draw all_transitions self output image_width image_height
               extent depth kw in
  run.1.2 = Returns tt ->
  count_if is_stroke run.1.1 =
  (length (fundamental_faces run.2)
   * tree_size all_transitions (Z.to_nat depth) (start (dfa self)))%nat.
Proof.
  cbv zeta. unfold draw.
  generalize (default default_line_width (line_width kw))
             (default default_margin (margin kw))
             (default default_edge_color (edge_color kw))
             (default default_face_colors (face_colors kw)).
  intros lw mg ec fc. unfold draw_with.
  match goal with
  | |- context [dbind (emit [ImageSurface image_width image_height]) ?k] =>
      set (setup := dbind (emit [ImageSurface image_width image_height]) k)
  end.
  assert (Hsetup : count_if is_stroke setup.1 = 0%nat).
  { subst setup. unfold dbind, lift, emit. simpl.
    destruct (py_truediv (of_int image_height) extent); simpl;
      [destruct (py_truediv extent (of_int 2)); simpl|];
      count_calls; reflexivity. }
  destruct setup.2 as [[]|e] eqn:E; cbn [fst snd].
  2: { rewrite E. discriminate. }
  set (built := get_fundamental_faces self).
  assert (Hdfa : dfa built.2 = dfa self).
  { subst built. unfold get_fundamental_faces. now rewrite faces_loop_built. }
  intros Hret.
  destruct (dbind_returns _ _ _ Hret) as ([] & _ & Hret1 & ->).
  destruct (dbind_returns _ _ _ Hret1) as ([] & _ & Hret2 & ->).
  destruct (dbind_returns _ _ _ Hret2) as ([] & Hfaces & _ & ->).
  rewrite !count_if_app, Hsetup, draw_faces_strokes by assumption.
  cbn [lift emit fst snd]. rewrite Hdfa. count_calls. lia.
Qed.

(** X20.  [draw] changes the instance only through the list of faces, to
    which one call appends at most three: the flags, the Coxeter matrix,
    the automaton, the mirrors, the initial point and the reflections are
    those of the instance before the call. *)
Theorem draw_keeps_instance (self : tiling F State) (output : string)
    (image_width image_height : Z) (extent : F) (depth : Z)
    (kw : draw_kwargs F) :
  exists new : list (list (vec F)),
    (draw all_transitions self output image_width image_height extent
       depth kw).2 = extend_faces self new /\
    (length new <= 3)%nat.
Proof.
  unfold draw.
  generalize (default default_line_width (line_width kw))
             (default default_margin (margin kw))
             (default default_edge_color (edge_color kw))
             (default default_face_colors (face_colors kw)).
  intros lw mg ec fc. unfold draw_with.
  match goal with
  | |- context [dbind (emit [ImageSurface image_width image_height]) ?k] =>
      set (setup := dbind (emit [ImageSurface image_width image_height]) k)
  end.
  destruct setup.2 as [[]|e]; cbn [fst snd].
  - unfold get_fundamental_faces. rewrite faces_loop_built. cbn [snd].
    eexists. split; [reflexivity|].
    apply (built_faces_length (combinations2 (seq 0 3)) self).
  - exists []. split; [now rewrite extend_faces_nil|simpl; lia].
Qed.
End DrawTrace.

Lemma draw_zero_extent_witness :
  truthy 0%float = false /\
  draw sample_transitions sample_tiling "244-110.png" 1200 960 0%float 30
    no_kwargs =
  (([ImageSurface 1200 960], Raises ZeroDivisionError), sample_tiling).
Proof.
  split; [reflexivity|].
  exact (draw_zero_extent sample_transitions sample_tiling "244-110.png"
           1200 960 0%float 30 no_kwargs eq_refl).
Defined.

Lemma draw_strokes_every_record_witness :
  (draw sample_transitions sample_tiling "244-110.png" 1200 960 30%float 1
     no_kwargs).1.2 = Returns tt /\
  count_if is_stroke
    (draw sample_transitions sample_tiling "244-110.png" 1200 960 30%float 1
       no_kwargs).1.1 = (3 * 3)%nat.
Proof.
  assert (Hret : (draw sample_transitions sample_tiling "244-110.png" 1200 960
                    30%float 1 no_kwargs).1.2 = Returns tt)
    by (vm_compute; reflexivity).
  split; [exact Hret|].
  rewrite (draw_strokes_every_record sample_transitions sample_tiling
             "244-110.png" 1200 960 30%float 1 no_kwargs Hret).
  vm_compute. reflexivity.
Defined.

(** ** Well-formed instances *)

Section WellFormedFaces.
Context {F : Type} `{Scalar F} {State : Type}.

Lemma Forall_orbit {A} (P : A -> Prop) (T : A -> A) (n : nat) (x : A) :
  (forall y, P y -> P (T y)) -> P x -> Forall P (orbit T n x).
Proof.
  intros HT. revert x. induction n as [|n IH]; intros x Hx; simpl;
    constructor; auto.
Qed.

Lemma Forall_interleave_orbit {A} (P : A -> Prop) (T : A -> A) (n : nat)
    (x y : A) :
  (forall z, P z -> P (T z)) -> P x -> P y ->
  Forall P (interleave_orbit T n x y).
Proof.
  intros HT. revert x y. induction n as [|n IH]; intros x y Hx Hy; simpl;
    repeat constructor; auto.
Qed.

(** The face of a pair in closed form, when the reflections of the pair
    are those of two mirrors of the dimension of the initial point. *)
Lemma face_of_pair_closed_form (self : tiling F State) (i j : nat)
    (ai aj : bool) (a b : vec F) (alpha beta : F) (n : Z) :
  active self !! i = Some ai -> active self !! j = Some aj ->
  cox_entry self i j = Returns n ->
  reflections self !! i = Some (fun v => reflect v a alpha) ->
  reflections self !! j = Some (fun v => reflect v b beta) ->
  length a = length (init_v self) -> length b = length (init_v self) ->
  face_of_pair self i j =
  Returns
    (if ai && aj then
       Some (interleave_orbit (rotation a b alpha beta) (Z.to_nat n)
               (init_v self) (mirror_image (init_v self) b beta))
     else if (ai || aj) && (2 <? n)%Z then
       Some (orbit (if ai then rotation a b alpha beta
                    else rotation b a beta alpha)
               (Z.to_nat n) (init_v self))
     else None).
Proof.
  intros Hai Haj Hn Hi Hj Ha Hb.
  assert (Hab : length a = length b) by congruence.
  assert (Hba : length b = length a) by congruence.
  destruct ai, aj; cbn [andb orb].
  - apply (face_of_pair_both_active self i j a b alpha beta); auto.
  - unfold face_of_pair, and_then, order_gt_2, getitem.
    rewrite Hai, Haj. simpl. rewrite Hn. simpl.
    destruct (2 <? n)%Z; simpl; [|reflexivity]. rewrite ?Hn. simpl.
    now rewrite (one_active_loop_returns self i j a b alpha beta _ []
                   (init_v self) Hi Hj Hab (eq_sym Ha)).
  - unfold face_of_pair, and_then, order_gt_2, getitem.
    rewrite Hai, Haj. simpl. rewrite Hn. simpl.
    destruct (2 <? n)%Z; simpl; [|reflexivity]. rewrite ?Hn. simpl.
    now rewrite (one_active_loop_returns self j i b a beta alpha _ []
                   (init_v self) Hj Hi Hba (eq_sym Hb)).
  - unfold face_of_pair, and_then, order_gt_2, getitem.
    rewrite Hai, Haj. reflexivity.
Qed.

Lemma well_formed_reflection (d : nat) (self : tiling F State) (i : nat) :
  well_formed d self -> (i < 3)%nat ->
  exists (a : vec F) (alpha : F),
    reflections self !! i = Some (fun v => reflect v a alpha) /\
    length a = d.
Proof.
  intros (_ & Hlen & Hdim & (init_dist & Hdist & Hrefl) & _) Hi.
  destruct (lookup_lt_is_Some_2 (mirrors self) i ltac:(lia)) as [a Ha].
  destruct (lookup_lt_is_Some_2 init_dist i ltac:(lia)) as [alpha Halpha].
  exists a, alpha. split.
  - rewrite Hrefl. now apply get_reflections_lookup.
  - rewrite List.Forall_forall in Hdim. apply Hdim.
    apply list_elem_of_In. eapply list_elem_of_lookup_2, Ha.
Qed.

Lemma face_of_pair_drawable (d : nat) (self : tiling F State) (i j : nat) :
  well_formed d self -> (i < j < 3)%nat ->
  exists o, face_of_pair self i j = Returns o /\
            forall f0, o = Some f0 -> drawable d f0.
Proof.
  intros Hwf Hij.
  destruct (well_formed_reflection d self i Hwf ltac:(lia))
    as (a & alpha & Hi & Ha).
  destruct (well_formed_reflection d self j Hwf ltac:(lia))
    as (b & beta & Hj & Hb).
  destruct Hwf as (Hact & _ & _ & _ & HP & Hcox & _).
  destruct (lookup_lt_is_Some_2 (active self) i ltac:(lia)) as [ai Hai].
  destruct (lookup_lt_is_Some_2 (active self) j ltac:(lia)) as [aj Haj].
  destruct (Hcox i j Hij) as (n & Hn & Hn1).
  rewrite (face_of_pair_closed_form self i j ai aj a b alpha beta n)
    by congruence.
  eexists. split; [reflexivity|]. intros f0 Hf0.
  assert (Hrot : forall v : vec F,
             length v = d -> length (rotation a b alpha beta v) = d).
  { intros v Hv. unfold rotation.
    rewrite !length_mirror_image; rewrite ?length_mirror_image; congruence. }
  assert (Hrot' : forall v : vec F,
             length v = d -> length (rotation b a beta alpha v) = d).
  { intros v Hv. unfold rotation.
    rewrite !length_mirror_image; rewrite ?length_mirror_image; congruence. }
  destruct (Z.to_nat n) as [|m] eqn:Hm; [lia|].
  destruct (ai && aj).
  - injection Hf0 as <-. split; [discriminate|].
    apply (Forall_interleave_orbit (fun p : vec F => length p = d)
             (rotation a b alpha beta) (S m) (init_v self)
             (mirror_image (init_v self) b beta)); auto.
    rewrite length_mirror_image; congruence.
  - destruct ((ai || aj) && (2 <? n)%Z); [|discriminate].
    injection Hf0 as <-. split; [discriminate|].
    apply (Forall_orbit (fun p : vec F => length p = d)
             (if ai then rotation a b alpha beta else rotation b a beta alpha)
             (S m) (init_v self)); [|assumption].
    now destruct ai.
Qed.

Lemma built_faces_drawable (d : nat) (self : tiling F State)
    (pairs : list (nat * nat)) :
  well_formed d self ->
  Forall (fun ij => (ij.1 < ij.2 < 3)%nat) pairs ->
  (built_faces pairs self).1 = Returns tt /\
  Forall (drawable d) (built_faces pairs self).2.
Proof.
  intros Hwf. induction 1 as [|[i j] pairs Hij _ [IH1 IH2]]; simpl; [auto|].
  destruct (face_of_pair_drawable d self i j Hwf Hij) as (o & -> & Ho).
  destruct o as [f0|]; simpl; auto.
Qed.

Lemma well_formed_extend (d : nat) (self : tiling F State)
    (new : list (list (vec F))) :
  well_formed d self -> Forall (drawable d) new ->
  well_formed d (extend_faces self new).
Proof.
  intros (Hact & Hlen & Hdim & Hrefl & HP & Hcox & Hfaces) Hnew.
  unfold well_formed. cbn [extend_faces active mirrors reflections init_v
                             fundamental_faces].
  repeat (split; [assumption|]). apply Forall_app. auto.
Qed.

(** X21.  On a well-formed instance [get_fundamental_faces] raises
    nothing; it appends at most three faces, each with at least one vertex
    and with vertices of the dimension of the mirrors, and leaves the
    instance well-formed. *)
Theorem get_fundamental_faces_returns (d : nat) (self : tiling F State) :
  well_formed d self ->
  exists new : list (list (vec F)),
    get_fundamental_faces self = (Returns tt, extend_faces self new) /\
    (length new <= 3)%nat /\
    Forall (drawable d) new /\
    well_formed d (extend_faces self new).
Proof.
  intros Hwf. unfold get_fundamental_faces. rewrite faces_loop_built.
  destruct (built_faces_drawable d self (combinations2 (seq 0 3)) Hwf)
    as [Hret Hnew].
  { simpl. repeat constructor; simpl; lia. }
  exists (built_faces (combinations2 (seq 0 3)) self).2.
  split; [now rewrite Hret|].
  split; [apply (built_faces_length (combinations2 (seq 0 3)))|].
  split; [assumption|]. now apply well_formed_extend.
Qed.
End WellFormedFaces.

Section WellFormedDraw.
Context {F : Type} `{Scalar F} {State : Type}.
Variable all_transitions : State -> list (Z * State).

Lemma project_to_plane_total (v : vec F) :
  (1 <= length v)%nat ->
  exists out, project_to_plane v = Returns out /\
              length out = Nat.min 2 (length v).
Proof.
  intros Hv. unfold project_to_plane. rewrite py_index_last.
  destruct (last v) as [w|] eqn:Hlast.
  - simpl. eexists. split; [reflexivity|].
    now rewrite length_map, length_take.
  - apply last_None in Hlast. subst v. simpl in Hv. lia.
Qed.

Lemma for_each_project (d : nat) (shape : list (vec F)) :
  (2 <= d)%nat -> Forall (fun p => length p = d) shape ->
  exists pts, for_each project_to_plane shape = Returns pts /\
              length pts = length shape /\
              Forall (fun p => length p = 2%nat) pts.
Proof.
  intros Hd. induction 1 as [|p shape Hp _ (pts & Hpts & Hlen & Hall)]; simpl.
  - eauto.
  - destruct (project_to_plane_total p ltac:(lia)) as (out & Hout & Hlen').
    rewrite Hout, Hpts. simpl. eexists. split; [reflexivity|].
    split; [simpl; lia|]. constructor; [lia|assumption].
Qed.

Lemma reflect_shape_length (self : tiling F State) (symbol : Z)
    (shape shape' : list (vec F)) :
  reflect_shape self symbol shape = Returns shape' ->
  length shape' = length shape.
Proof. apply for_each_length. Qed.

Lemma draw_shape_returns (d : nat) (margin : F) (edge_color : Z)
    (fc : option (list Z)) (i : nat) (shape : list (vec F)) :
  (2 <= d)%nat -> drawable d shape ->
  match fc with Some colors => (i < length colors)%nat | None => True end ->
  (draw_shape margin edge_color fc i shape).2 = Returns tt.
Proof.
  intros Hd [Hne Hdim] Hcolors.
  destruct (for_each_project d shape Hd Hdim) as (pts & Hpts & Hlen & Hall).
  destruct (inset_corners_total pts margin 2 ltac:(lia) Hall)
    as (out & Hout & Hlen').
  destruct out as [|p out].
  { destruct shape; [congruence|]. simpl in *. lia. }
  unfold draw_shape, dbind, lift, emit. simpl.
  rewrite Hpts. simpl. rewrite Hout. simpl.
  destruct fc as [colors|]; simpl; [|reflexivity].
  unfold getitem.
  destruct (lookup_lt_is_Some_2 colors i Hcolors) as [c ->]. reflexivity.
Qed.

Lemma draw_shapes_returns (d : nat) (margin : F) (edge_color : Z)
    (fc : option (list Z)) (i : nat) (rs : list (record F State)) :
  (2 <= d)%nat -> Forall (fun r => drawable d (rec_shape r)) rs ->
  match fc with Some colors => (i < length colors)%nat | None => True end ->
  (draw_shapes margin edge_color fc i rs).2 = Returns tt.
Proof.
  intros Hd Hrs Hcolors. induction Hrs as [|r rs Hr _ IH]; simpl; [reflexivity|].
  unfold dbind. now rewrite (draw_shape_returns d) by assumption.
Qed.

Lemma length_get_reflections (mirrors : matrix F) (init_dist : list F) :
  length (get_reflections mirrors init_dist) =
  Nat.min (length mirrors) (length init_dist).
Proof.
  unfold get_reflections, matrix, vec. now rewrite length_map, length_zip_with.
Qed.

Lemma well_formed_traverse (d : nat) (self : tiling F State) (depth : Z)
    (face : list (vec F)) :
  well_formed d self -> three_symbols all_transitions -> drawable d face ->
  (traverse all_transitions self depth face).2 = None /\
  Forall (fun r => drawable d (rec_shape r))
    (traverse all_transitions self depth face).1.
Proof.
  intros Hwf Hsym Hface. unfold traverse.
  apply (traverse_loop_safe all_transitions self depth
           (fun r => drawable d (rec_shape r))).
  - intros r [Hne Hdim].
    apply (successors_safe all_transitions self (drawable d)).
    intros [symbol t] Hin. simpl.
    destruct Hwf as (_ & Hlen & Hmirrors & (init_dist & Hdist & Hrefl) & _).
    destruct (reflect_shape_safe self d (mirrors self) init_dist symbol
                (rec_shape r) Hrefl Hmirrors)
      as (shape' & Hshape & Hdim'); [|assumption|].
    { rewrite Hrefl, length_get_reflections, Hlen, Hdist.
      specialize (Hsym _ _ _ Hin). simpl. lia. }
    exists shape'. split; [assumption|]. split; [|assumption].
    apply reflect_shape_length in Hshape.
    destruct shape'; [|discriminate].
    destruct (rec_shape r); [congruence|discriminate].
  - repeat constructor; apply Hface.
Qed.

Lemma draw_face_returns (d : nat) (self : tiling F State) (depth : Z)
    (margin : F) (edge_color : Z) (fc : option (list Z)) (i : nat)
    (face : list (vec F)) :
  (2 <= d)%nat -> well_formed d self -> three_symbols all_transitions ->
  drawable d face ->
  match fc with Some colors => (i < length colors)%nat | None => True end ->
  (draw_face all_transitions self depth margin edge_color fc i face).2
  = Returns tt.
Proof.
  intros Hd Hwf Hsym Hface Hcolors.
  destruct (well_formed_traverse d self depth face Hwf Hsym Hface)
    as [Hnone Hall].
  unfold draw_face, dbind.
  rewrite (draw_shapes_returns d) by assumption.
  now rewrite Hnone.
Qed.

Lemma draw_faces_returns (d : nat) (self : tiling F State) (depth : Z)
    (margin : F) (edge_color : Z) (fc : option (list Z)) (i : nat)
    (faces : list (list (vec F))) :
  (2 <= d)%nat -> well_formed d self -> three_symbols all_transitions ->
  Forall (drawable d) faces ->
  match fc with
  | Some colors => (i + length faces <= length colors)%nat
  | None => True
  end ->
  (draw_faces all_transitions self depth margin edge_color fc i faces).2
  = Returns tt.
Proof.
  intros Hd Hwf Hsym Hfaces. revert i.
  induction Hfaces as [|face faces Hface _ IH]; intros i Hcolors; simpl;
    [reflexivity|].
  unfold dbind. rewrite (draw_face_returns d); try assumption.
  - apply IH. destruct fc; [simpl in Hcolors; lia|exact I].
  - destruct fc; [simpl in Hcolors; lia|exact I].
Qed.

(** X22.  In a render of a well-formed instance of dimension at least 2
    nothing but a cairo call can raise: the divisions by [extent], the
    build of the faces, the traversals, the projections, the insets and
    the colour lookups all return, and the instance is left well-formed,
    provided [extent] is not zero, the automaton reads the symbols of the
    three reflections and, when faces are filled, the colour list has a
    colour for every face stored after the build. *)
Theorem draw_returns (d : nat) (self : tiling F State) (output : string)
    (image_width image_height : Z) (extent : F) (depth : Z)
    (kw : draw_kwargs F) :
  well_formed d self -> (2 <= d)%nat ->
  three_symbols all_transitions ->
  truthy extent = true -> truthy (of_int 2) = true ->
  match default default_face_colors (face_colors kw) with
  | Some colors =>
      (length (fundamental_faces (get_fundamental_faces self).2)
       <= length colors)%nat
  | None => True
  end ->
  let run := draw all_transitions self output image_width image_height
               extent depth kw in
  run.1.2 = Returns tt /\ well_formed d run.2.
Proof.
  intros Hwf Hd Hsym Hextent Htwo Hcolors. cbv zeta. unfold draw.
  generalize dependent (default default_face_colors (face_colors kw)).
  generalize (default default_line_width (line_width kw))
             (default default_margin (margin kw))
             (default default_edge_color (edge_color kw)).
  intros lw mg ec fc Hcolors.
  unfold draw_with, py_truediv. rewrite Hextent, Htwo.
  unfold get_fundamental_faces in *. rewrite faces_loop_built in *.
  destruct (built_faces_drawable d self (combinations2 (seq 0 3)) Hwf)
    as [Hret Hnew].
  { simpl. repeat constructor; simpl; lia. }
  pose proof (well_formed_extend d self _ Hwf Hnew) as Hwf'.
  set (self' := extend_faces self (built_faces (combinations2 (seq 0 3)) self).2)
    in *.
  cbn [fst snd] in *. rewrite Hret.
  unfold dbind, lift, emit. cbn [fst snd].
  rewrite (draw_faces_returns d); try assumption.
  - auto.
  - apply Hwf'.
Qed.
End WellFormedDraw.

Lemma sample_well_formed : well_formed 3 sample_tiling.
Proof.
  unfold well_formed. split; [reflexivity|]. split; [reflexivity|].
  split; [repeat constructor|].
  split; [exists [1; 1; 0]%float; split; reflexivity|].
  split; [reflexivity|]. split; [|constructor].
  intros i j Hij.
  destruct i as [|[|[|i]]], j as [|[|[|j]]]; try lia;
    eexists; (split; [reflexivity|lia]).
Qed.

Lemma sample_three_symbols : three_symbols sample_transitions.
Proof.
  intros [|[|s]] symbol t Hin; simpl in Hin;
    repeat match goal with
           | Hor : _ \/ _ |- _ => destruct Hor
           | Heq : (_, _) = (_, _) |- _ => injection Heq as <- <-
           | Hf : False |- _ => destruct Hf
           end; lia.
Qed.

Lemma get_fundamental_faces_returns_witness :
  well_formed 3 sample_tiling /\
  exists new : list (list (vec float)),
    get_fundamental_faces sample_tiling =
      (Returns tt, extend_faces sample_tiling new) /\
    (length new <= 3)%nat.
Proof.
  split; [exact sample_well_formed|].
  destruct (get_fundamental_faces_returns 3 sample_tiling sample_well_formed)
    as (new & Hret & Hlen & _).
  exists new. auto.
Defined.

Lemma draw_returns_witness :
  well_formed 3 sample_tiling /\
  (2 <= 3)%nat /\
  three_symbols sample_transitions /\
  truthy 30%float = true /\
  truthy (of_int 2 : float) = true /\
  (draw sample_transitions sample_tiling "244-110.png" 1200 960 30%float 30
     no_kwargs).1.2 = Returns tt.
Proof.
  assert (Hcolors :
    match default default_face_colors (face_colors (no_kwargs (F := float))) with
    | Some colors =>
        (length (fundamental_faces (get_fundamental_faces sample_tiling).2)
         <= length colors)%nat
    | None => True
    end) by (vm_compute; lia).
  split; [exact sample_well_formed|]. split; [lia|].
  split; [exact sample_three_symbols|].
  split; [reflexivity|]. split; [reflexivity|].
  exact (proj1 (draw_returns sample_transitions 3 sample_tiling "244-110.png"
                  1200 960 30%float 30 no_kwargs sample_well_formed
                  ltac:(lia) sample_three_symbols eq_refl eq_refl Hcolors)).
Defined.

(** ** No word is yielded twice *)

Section TraverseDistinct.
Context {F : Type} `{Scalar F} {State : Type}.
Variable all_transitions : State -> list (Z * State).
Variable self : tiling F State.

Abbreviation loop := (traverse_loop all_transitions self).

Lemma successors_words (r : record F State) (new : list (record F State)) :
  successors all_transitions self r = Returns new ->
  map rec_word new =
  map (fun tr => rec_word r ++ [tr.1]) (all_transitions (rec_state r)).
Proof.
  unfold successors. revert new. generalize (all_transitions (rec_state r)).
  induction l as [|tr l IH]; intros new Hnew; simpl in Hnew.
  - now injection Hnew as <-.
  - destruct (successor self r tr) as [r'|] eqn:Hs; simpl in Hnew;
      [|discriminate].
    destruct (for_each (successor self r) l) as [rs|] eqn:Hrs;
      simpl in Hnew; [|discriminate].
    injection Hnew as <-. simpl. rewrite (IH rs eq_refl). f_equal.
    unfold successor in Hs.
    destruct (reflect_shape self tr.1 (rec_shape r)); simpl in Hs;
      [|discriminate].
    now injection Hs as <-.
Qed.

Lemma NoDup_snoc_words (w : list Z) (symbols : list Z) :
  List.NoDup symbols -> List.NoDup (map (fun s => w ++ [s]) symbols).
Proof.
  induction 1 as [|s symbols Hs _ IH]; simpl; constructor; [|assumption].
  intros Hin. apply in_map_iff in Hin as (s' & Heq & Hin).
  apply app_inj_tail in Heq as [_ ->]. contradiction.
Qed.

Lemma successors_distinct (r : record F State) (new : list (record F State)) :
  deterministic all_transitions ->
  successors all_transitions self r = Returns new ->
  List.NoDup (map rec_word new).
Proof.
  intros Hdet Hnew. rewrite (successors_words _ _ Hnew).
  rewrite <- (map_map fst (fun s => rec_word r ++ [s])).
  apply NoDup_snoc_words, Hdet.
Qed.

Lemma successors_word (r r' : record F State) (new : list (record F State)) :
  successors all_transitions self r = Returns new -> In r' new ->
  (exists s, rec_word r' = rec_word r ++ [s]) /\
  rec_steps r' = (rec_steps r + 1)%Z.
Proof.
  intros Hnew Hin.
  destruct (successor_of_inv all_transitions self r r') as (s & Hw & Hs & _);
    eauto using successors_In.
Qed.

(** Every word yielded extends the word of a queue entry. *)
Lemma traverse_loop_prefix (depth : Z) (queue : list (record F State)) :
  Forall (fun r => exists p suffix,
            In p queue /\ rec_word r = rec_word p ++ suffix)
    (loop depth queue).1.
Proof.
  apply traverse_loop_Forall.
  - intros p r (p0 & suffix & Hp0 & Hw) _ Hs.
    destruct (successor_of_inv _ _ _ _ Hs) as (s & Hr & _).
    exists p0, (suffix ++ [s]). split; [assumption|].
    now rewrite Hr, Hw, app_assoc.
  - apply List.Forall_forall. intros r Hr. exists r, [].
    split; [assumption|]. now rewrite app_nil_r.
Qed.

(** A word as long as the lowest step count of the queue and not in the
    queue is not yielded. *)
Lemma traverse_loop_fresh (depth : Z) (queue : list (record F State))
    (w : list Z) :
  Forall (fun r => Z.of_nat (length (rec_word r)) = rec_steps r) queue ->
  Forall (fun r => (Z.of_nat (length w) <= rec_steps r)%Z) queue ->
  ~ In w (map rec_word queue) ->
  ~ In w (map rec_word (loop depth queue).1).
Proof.
  intros Hlen Hlow Hfresh Hin.
  apply in_map_iff in Hin as (r & <- & Hr).
  pose proof (traverse_loop_prefix depth queue) as Hprefix.
  rewrite List.Forall_forall in Hprefix, Hlen, Hlow.
  destruct (Hprefix r Hr) as (p & suffix & Hp & Hw).
  specialize (Hlen p Hp). specialize (Hlow p Hp).
  rewrite Hw, length_app in Hlow.
  destruct suffix as [|s suffix]; [|simpl in Hlow; lia].
  rewrite app_nil_r in Hw. apply Hfresh. rewrite Hw. now apply in_map.
Qed.

Lemma distinct_queue_tail (r : record F State) (queue : list (record F State)) :
  distinct_queue (r :: queue) -> distinct_queue queue.
Proof.
  intros (Hnd & Hlen & Hlevel & Hext). split; [|split; [|split]].
  - now inversion Hnd.
  - now inversion Hlen.
  - eapply level_queue_tail, Hlevel.
  - intros a b s Ha Hb. apply Hext; now right.
Qed.

Lemma distinct_queue_push (r : record F State)
    (queue new : list (record F State)) :
  deterministic all_transitions ->
  distinct_queue (r :: queue) ->
  successors all_transitions self r = Returns new ->
  distinct_queue (queue ++ new).
Proof.
  intros Hdet (Hnd & Hlen & Hlevel & Hext) Hnew.
  pose proof (level_queue_head _ _ Hlevel) as Hhead.
  inversion Hnd as [|? ? Hfresh Hnd']; subst.
  inversion Hlen as [|? ? Hr Hlen']; subst.
  rewrite List.Forall_forall in Hhead, Hlen'.
  assert (Hnew' : forall r', In r' new ->
            (exists s, rec_word r' = rec_word r ++ [s]) /\
            rec_steps r' = (rec_steps r + 1)%Z)
    by (intros r' Hr'; eapply successors_word; eassumption).
  split; [|split; [|split]].
  - rewrite map_app. apply List.NoDup_app.
    + assumption.
    + eapply successors_distinct; eassumption.
    + intros w Hq Hn.
      apply in_map_iff in Hq as (a & <- & Ha).
      apply in_map_iff in Hn as (b & Hw & Hb).
      destruct (Hnew' b Hb) as [[s Hs] _].
      apply (Hext r a s); [now left|now right|congruence].
  - apply Forall_app. split; [now apply List.Forall_forall|].
    apply List.Forall_forall. intros r' Hr'.
    destruct (Hnew' r' Hr') as [[s ->] ->]. rewrite length_app. simpl. lia.
  - eapply level_queue_push; [eassumption|].
    apply List.Forall_forall. intros r' Hr'. now destruct (Hnew' r' Hr').
  - intros a b s Ha Hb Heq.
    apply in_app_or in Ha as [Ha|Ha]; apply in_app_or in Hb as [Hb|Hb].
    + apply (Hext a b s); [now right|now right|assumption].
    + destruct (Hnew' b Hb) as [[s' Hs'] _]. rewrite Hs' in Heq.
      apply app_inj_tail in Heq as [Heq _].
      apply Hfresh. rewrite Heq. now apply in_map.
    + destruct (Hnew' a Ha) as [[s' Hs'] _].
      specialize (Hhead b Hb). specialize (Hlen' b Hb).
      rewrite Heq, Hs', !length_app in Hlen'. simpl in Hlen'. lia.
    + destruct (Hnew' a Ha) as [[s1 Hs1] _].
      destruct (Hnew' b Hb) as [[s2 Hs2] _].
      apply (f_equal (@length Z)) in Heq.
      rewrite Hs1, Hs2, !length_app in Heq. simpl in Heq. lia.
Qed.

Lemma traverse_loop_distinct (depth : Z) (queue : list (record F State)) :
  deterministic all_transitions ->
  distinct_queue queue ->
  List.NoDup (map rec_word (loop depth queue).1).
Proof.
  intros Hdet. apply traverse_loop_rounds; clear queue; simpl.
  - constructor.
  - intros r queue _ IH Hq. pose proof Hq as (Hnd & Hlen & Hlevel & _).
    inversion Hnd; subst. inversion Hlen; subst. constructor.
    + apply traverse_loop_fresh; [assumption| |assumption].
      eapply List.Forall_impl; [|exact (level_queue_head _ _ Hlevel)].
      simpl. intros; lia.
    + apply IH. eapply distinct_queue_tail, Hq.
  - intros r queue e _ _ _. repeat constructor. intros [].
  - intros r queue new _ Hnew IH Hq.
    pose proof (distinct_queue_push _ _ _ Hdet Hq Hnew)
      as Hpush.
    pose proof Hq as (Hnd & Hlen & Hlevel & _).
    inversion Hnd as [|? ? Hfresh _]; subst.
    inversion Hlen as [|? ? Hr _]; subst. constructor; [|now apply IH].
    destruct Hpush as (_ & Hlen' & Hlevel' & _).
    apply traverse_loop_fresh; [assumption| |].
    + apply Forall_app. split.
      * eapply List.Forall_impl; [|exact (level_queue_head _ _ Hlevel)].
        simpl. intros; lia.
      * apply List.Forall_forall. intros r' Hr'.
        destruct (successors_word _ _ _ Hnew Hr') as [_ ->]. lia.
    + rewrite map_app. intros Hin.
      apply in_app_or in Hin as [Hin|Hin]; [contradiction|].
      apply in_map_iff in Hin as (r' & Hw & Hr').
      destruct (successors_word _ _ _ Hnew Hr') as [[s Hs] _].
      apply (f_equal (@length Z)) in Hw.
      rewrite Hs, length_app in Hw. simpl in Hw. lia.
Qed.

(** X23.  When no state of the automaton has two transitions with one
    symbol, [traverse] yields no word twice. *)
Theorem traverse_words_distinct (depth : Z) (domain : list (vec F)) :
  deterministic all_transitions ->
  List.NoDup (map rec_word (traverse all_transitions self depth domain).1).
Proof.
  intros Hdet. unfold traverse. apply traverse_loop_distinct; [assumption|].
  split; [|split; [|split]].
  - repeat constructor. intros [].
  - repeat constructor.
  - split; [repeat constructor|]. intros a b [<-|[]] [<-|[]]. lia.
  - intros a b s [<-|[]] [<-|[]]. unfold rec_word. simpl. discriminate.
Qed.
End TraverseDistinct.

Lemma sample_deterministic : deterministic sample_transitions.
Proof.
  intros [|[|s]]; simpl; repeat constructor; simpl; intuition discriminate.
Qed.

Lemma traverse_words_distinct_witness :
  deterministic sample_transitions /\
  List.NoDup
    (map rec_word
       (traverse sample_transitions sample_tiling 30 [[0; 0; 1]%float]).1).
Proof.
  split; [exact sample_deterministic|].
  exact (traverse_words_distinct sample_transitions sample_tiling 30
           [[0; 0; 1]%float] sample_deterministic).
Defined.

(** ** The instance __init__ builds *)

Section InitProperties.
Context {F : Type} `{Scalar F} `{Trig F} {State : Type}.
Variable make_symmetry_matrix : list Z -> outcome (list (list Z)).
Variable get_automaton : list (list Z) -> outcome (automaton State).
Variable get_init_point : matrix F -> list F -> outcome (vec F).

Lemma get_mirrors_returns_shape (cox_mat : list (list Z)) (M : matrix F) :
  get_mirrors cox_mat = Returns M ->
  length M = length cox_mat /\
  Forall (fun row => length row = length (hd [] cox_mat)) M.
Proof.
  unfold get_mirrors, cosines, asarray.
  destruct (rectangular cox_mat) eqn:E; [|discriminate].
  destruct cox_mat as [|r0 [|r1 [|r2 rest]]];
    try destruct r0 as [|x0 [|y0 [|z0 t0]]];
    try destruct r1 as [|x1 [|y1 [|z1 t1]]];
    try destruct r2 as [|x2 [|y2 [|z2 t2]]];
    try discriminate;
    try solve [ exfalso; pose proof (rectangular_rows _ _ E) as Hbad;
                repeat match goal with
                       | Hf : Forall _ (_ :: _) |- _ =>
                           inversion Hf; clear Hf; subst
                       end;
                simpl in *; lia ].
  pose proof (rectangular_rows _ _ E) as Hrows.
  inversion Hrows as [|? ? H1 Hrows']; subst.
  inversion Hrows' as [|? ? H2 Hrest]; subst.
  simpl in H1, H2. intros [= <-]. split.
  - simpl. unfold zeros_like. now rewrite !length_map.
  - unfold zeros_like.
    repeat constructor; simpl; rewrite ?length_map; try lia.
    clear -Hrest. induction Hrest as [|row rest' Hrow _ IH]; simpl;
      constructor; [|exact IH].
    rewrite !length_map. exact Hrow.
Qed.

(** X24.  The instance [__init__] returns has one flag per distance, true
    for the distances that are not zero, no face, and the reflections of
    its mirrors and the distances.  When the helper modules give a
    Coxeter matrix of three rows with orders of at least 1 above the
    diagonal and an initial point of the width of the matrix, and three
    distances are passed, the instance is well-formed. *)
Theorem init_well_formed (pqr : list Z) (init_dist : list F)
    (self : tiling F State) :
  init make_symmetry_matrix get_automaton get_init_point pqr init_dist
    = Returns self ->
  (active self = map truthy init_dist /\
   fundamental_faces self = [] /\
   reflections self = get_reflections (mirrors self) init_dist /\
   get_mirrors (cox_mat self) = Returns (mirrors self)) /\
  (length init_dist = 3%nat -> length (cox_mat self) = 3%nat ->
   (forall i j, (i < j < 3)%nat ->
      exists n, cox_entry self i j = Returns n /\ (1 <= n)%Z) ->
   length (init_v self) = length (hd [] (cox_mat self)) ->
   well_formed (length (hd [] (cox_mat self))) self).
Proof.
  unfold init.
  destruct (make_symmetry_matrix pqr) as [cox|]; simpl; [|discriminate].
  destruct (get_automaton cox) as [dfa0|]; simpl; [|discriminate].
  destruct (get_mirrors cox) as [M|] eqn:HM; simpl; [|discriminate].
  destruct (get_init_point M init_dist) as [v|]; simpl; [|discriminate].
  intros [= <-]. cbn [active fundamental_faces reflections mirrors cox_mat
                        init_v].
  split; [auto|]. intros Hdist Hrows Hcox Hv.
  destruct (get_mirrors_returns_shape cox M HM) as [Hlen Hdim].
  unfold well_formed. cbn [active fundamental_faces reflections mirrors
                             cox_mat init_v].
  split; [now rewrite length_map|]. split; [congruence|].
  split; [assumption|]. split; [eauto|]. split; [assumption|].
  split; [assumption|constructor].
Qed.
End InitProperties.

Section SampleInit.
Open Scope R_scope.

Lemma init_well_formed_witness :
  let make (_ : list Z) := Returns [[1; 2; 4]; [2; 1; 4]; [4; 4; 1]]%Z in
  let auto (_ : list (list Z)) := Returns {| start := 0%nat |} in
  let point (_ : matrix R) (_ : list R) := Returns [0; 0; 1] in
  exists self : tiling R nat,
    init make auto point [2; 4; 4]%Z [1; 1; 0] = Returns self /\
    active self = [true; true; false] /\
    well_formed 3 self.
Proof.
  cbv zeta.
  destruct (init (fun _ => Returns [[1; 2; 4]; [2; 1; 4]; [4; 4; 1]]%Z)
              (fun _ => Returns {| start := 0%nat |})
              (fun _ _ => Returns [0; 0; 1]) [2; 4; 4]%Z [1; 1; 0])
    as [self|e] eqn:Hinit; [|discriminate Hinit].
  exists self.
  destruct (init_well_formed _ _ _ _ _ self Hinit) as [_ Hwf].
  injection Hinit as <-. split; [reflexivity|]. split.
  - cbn [active map truthy real].
    destruct (Req_dec_T 1 0) as [Heq|_]; [lra|].
    destruct (Req_dec_T 0 0) as [_|Hne]; [reflexivity|lra].
  - apply Hwf; try reflexivity.
    intros i j Hij.
    destruct i as [|[|[|i]]], j as [|[|[|j]]]; try lia;
      eexists; (split; [reflexivity|lia]).
Defined.
End SampleInit.

(** ** The tiles are copies of the face *)

Section TraverseShapes.
Context {F : Type} `{Scalar F} {State : Type}.
Variable all_transitions : State -> list (Z * State).
Variable self : tiling F State.

Lemma reflect_inv (v normal out : vec F) (dist : F) :
  reflect v normal dist = Returns out ->
  length v = length normal /\ out = mirror_image v normal dist.
Proof.
  unfold reflect, np_dot.
  destruct (Nat.eqb_spec (length v) (length normal)) as [Hlen|]; simpl;
    [|discriminate].
  intros [= <-]. auto.
Qed.

(** What [reflect_shape] returns: the images of the vertices in one
    mirror of the instance. *)
Lemma reflect_shape_images (mirrors : matrix F) (init_dist : list F)
    (symbol : Z) (shape shape' : list (vec F)) :
  reflections self = get_reflections mirrors init_dist ->
  reflect_shape self symbol shape = Returns shape' ->
  shape <> [] ->
  exists normal dist,
    In normal mirrors /\
    Forall (fun v => length v = length normal) shape /\
    shape' = map (fun v => mirror_image v normal dist) shape.
Proof.
  intros Hrefl Hshape Hne. unfold reflect_shape in Hshape.
  destruct (py_index (reflections self) symbol) as [R|e] eqn:HR.
  2: { destruct shape; [congruence|]. simpl in Hshape. discriminate. }
  assert (Hin : In R (reflections self)).
  { unfold py_index, getitem in HR.
    destruct ((0 <=? symbol)%Z && _);
      [|destruct ((_ <=? symbol)%Z && _); [|discriminate]];
      match type of HR with
      | match ?l !! ?k with _ => _ end = _ =>
          destruct (l !! k) as [x|] eqn:Hx; [|discriminate]
      end;
      injection HR as <-;
      apply list_elem_of_In; eapply list_elem_of_lookup_2, Hx. }
  rewrite Hrefl in Hin.
  destruct (get_reflections_In _ _ _ Hin) as (normal & dist & Hnormal & ->).
  exists normal, dist. split; [assumption|]. clear Hne Hin HR.
  simpl in Hshape. revert shape' Hshape.
  induction shape as [|v shape IH]; intros shape' Hshape; simpl in Hshape.
  - injection Hshape as <-. split; constructor.
  - destruct (reflect v normal dist) as [out|] eqn:Hout; simpl in Hshape;
      [|discriminate].
    destruct (for_each _ shape) as [outs|] eqn:Houts; simpl in Hshape;
      [|discriminate].
    injection Hshape as <-. apply reflect_inv in Hout as [Hlen ->].
    destruct (IH outs eq_refl) as [Hall ->]. split; [|reflexivity].
    constructor; assumption.
Qed.

(** X25.  Every shape [traverse] yields has as many vertices as the
    domain. *)
Theorem traverse_keeps_vertex_count (depth : Z) (domain : list (vec F))
    (r : record F State) :
  In r (traverse all_transitions self depth domain).1 ->
  length (rec_shape r) = length domain.
Proof.
  revert r. apply List.Forall_forall. unfold traverse.
  apply traverse_loop_Forall.
  - intros p r Hp _ Hs.
    destruct (successor_of_inv _ _ _ _ Hs) as (s & _ & _ & Hshape).
    apply for_each_length in Hshape. congruence.
  - repeat constructor.
Qed.
End TraverseShapes.

Lemma traverse_keeps_vertex_count_witness :
  In (2%nat, [1%Z], 1%Z, [[0; -2; 1]%float])
     (traverse sample_transitions sample_tiling 1 [[0; 0; 1]%float]).1 /\
  length [[0; -2; 1]%float] = length [[0; 0; 1]%float].
Proof.
  assert (Hin : In (2%nat, [1%Z], 1%Z, [[0; -2; 1]%float])
                   (traverse sample_transitions sample_tiling 1
                      [[0; 0; 1]%float]).1).
  { vm_compute. right. right. left. reflexivity. }
  split; [exact Hin|].
  exact (traverse_keeps_vertex_count sample_transitions sample_tiling 1
           [[0; 0; 1]%float] _ Hin).
Defined.

Section TraverseCongruent.
Open Scope R_scope.
Context {State : Type}.
Variable all_transitions : State -> list (Z * State).
Variable self : tiling R State.

(** X26.  In exact arithmetic, with mirrors of unit normals, every shape
    [traverse] yields is congruent to the domain: it has as many vertices
    and the distance between any two of them is the distance between the
    vertices of the domain at the same places. *)
Theorem traverse_congruent (depth : Z) (domain : list (vec R))
    (mirrors : matrix R) (init_dist : list R) (r : record R State) :
  reflections self = get_reflections mirrors init_dist ->
  Forall (fun normal => dot normal normal = 1) mirrors ->
  In r (traverse all_transitions self depth domain).1 ->
  length (rec_shape r) = length domain /\
  forall (k l : nat) (p q p0 q0 : vec R),
    rec_shape r !! k = Some p -> rec_shape r !! l = Some q ->
    domain !! k = Some p0 -> domain !! l = Some q0 ->
    sqdist p q = sqdist p0 q0.
Proof.
  intros Hrefl Hunit. revert r. apply List.Forall_forall. unfold traverse.
  apply traverse_loop_Forall.
  - intros parent r [Hlen Hdist] _ Hs.
    destruct (successor_of_inv _ _ _ _ Hs) as (s & _ & _ & Hshape).
    split; [apply for_each_length in Hshape; congruence|].
    intros k l p q p0 q0 Hk Hl Hk0 Hl0.
    destruct (reflect_shape_images self mirrors init_dist s _ _ Hrefl Hshape)
      as (normal & dist & Hnormal & Hall & Himg).
    { intros Hnil. rewrite Hnil in Hlen. destruct domain; [|discriminate].
      discriminate. }
    rewrite Himg in Hk, Hl. unfold vec in *.
    rewrite list_lookup_fmap in Hk, Hl.
    match type of Hk with
    | _ <$> ?x = _ => destruct x as [u|] eqn:Hu; [|discriminate Hk]
    end.
    match type of Hl with
    | _ <$> ?x = _ => destruct x as [w|] eqn:Hw; [|discriminate Hl]
    end.
    injection Hk as <-. injection Hl as <-.
    rewrite List.Forall_forall in Hall, Hunit.
    rewrite mirror_image_sqdist.
    + eapply Hdist; eassumption.
    + apply Hall, list_elem_of_In. eapply list_elem_of_lookup_2, Hu.
    + apply Hall, list_elem_of_In. eapply list_elem_of_lookup_2, Hw.
    + now apply Hunit.
  - repeat constructor. intros k l p q p0 q0 Hk Hl Hk0 Hl0.
    unfold rec_shape in *. simpl in *. congruence.
Qed.
End TraverseCongruent.

Section SampleCongruent.
Open Scope R_scope.

Lemma mirrors_244_unit : Forall (fun normal => dot normal normal = 1) mirrors_244.
Proof.
  repeat constructor; rewrite dot3; try lra.
  rewrite inv_sqrt2. pose proof sqrt2_sqr. nra.
Qed.

Lemma traverse_congruent_witness :
  let domain : list (vec R) := [[0; 0; 1]; [1; 0; 1]] in
  let seed : record R nat := (0%nat, [], 0%Z, domain) in
  reflections sample_tiling_exact = get_reflections mirrors_244 [1; 1; 0] /\
  Forall (fun normal => dot normal normal = 1) mirrors_244 /\
  In seed (traverse sample_transitions sample_tiling_exact 1 domain).1 /\
  length (rec_shape seed) = length domain.
Proof.
  cbv zeta.
  assert (Hin : In (0%nat, [], 0%Z, [[0; 0; 1]; [1; 0; 1]])
                   (traverse sample_transitions sample_tiling_exact 1
                      [[0; 0; 1]; [1; 0; 1]]).1).
  { destruct (traverse_loop_head sample_transitions sample_tiling_exact 1
                (0%nat, [], 0%Z, [[0; 0; 1]; [1; 0; 1]]) []) as [rest Hrest].
    unfold traverse.
    match goal with
    | |- In _ ?out =>
        replace out with ((0%nat, @nil Z, 0%Z, [[0; 0; 1]; [1; 0; 1]]) :: rest)
    end.
    now left. }
  split; [reflexivity|]. split; [exact mirrors_244_unit|].
  split; [exact Hin|].
  exact (proj1 (traverse_congruent sample_transitions sample_tiling_exact 1
                  [[0; 0; 1]; [1; 0; 1]] mirrors_244 [1; 1; 0] _
                  eq_refl mirrors_244_unit Hin)).
Defined.
End SampleCongruent.

(** ** hex_to_rgb in binary64 *)

Section HexToRgbFloat.

Lemma all_bytes_unit_components :
  forallb (fun n => unit_component (Z.of_nat n)) (seq 0 256) = true.
Proof. vm_compute. reflexivity. Qed.

Lemma byte_unit_component (b : Z) :
  (0 <= b < 256)%Z -> unit_component b = true.
Proof.
  intros Hb. pose proof all_bytes_unit_components as Hall.
  rewrite forallb_forall in Hall.
  rewrite <- (Z2Nat.id b) by lia. apply Hall, in_seq. lia.
Qed.

(** X27.  In binary64 [hex_to_rgb] returns, for every integer, three
    components between 0.0 and 1.0, so that none of them is NaN or
    infinite. *)
Theorem hex_to_rgb_float_range (value : Z) :
  exists r g b : float,
    hex_to_rgb value = [r; g; b] /\
    Forall (fun x => PrimFloat.leb 0 x = true /\ PrimFloat.leb x 1 = true)
      [r; g; b].
Proof.
  unfold hex_to_rgb. cbn [map]. do 3 eexists. split; [reflexivity|].
  repeat constructor;
    match goal with
    | |- context [Z.land ?x 255] =>
        pose proof (byte_unit_component (Z.land x 255)) as Hb
    end;
    rewrite land_255 in *;
    specialize (Hb ltac:(apply Z.mod_pos_bound; lia));
    unfold unit_component in Hb; apply andb_prop in Hb; apply Hb.
Qed.
End HexToRgbFloat.

(** Two points that [np.sum] broadcasts and two it refuses. *)
Lemma inset_corners_ragged :
  inset_corners [[1; 2]; [3]]%float 1%float = Raises IndexError /\
  inset_corners [[3]; [1; 2]]%float 1%float = Raises IndexError /\
  inset_corners [[1; 2]; [1; 2; 3]]%float 1%float = Raises ValueError.
Proof. repeat split; vm_compute; reflexivity. Qed.
